(** * xMarket-bots: the trade-ledger and performance-accounting engine

    A shallow embedding of the accounting code of the repository:

    - the bot runners' write path ([normalizeFifoLots],
      [computeCashAfterDelta], [computeFifoPositionPayload],
      [submitSpotOrder]), which is the same text in every runner;
    - the dashboard's read path in [src/hooks/useLiveBotStats.ts]
      ([normalizeOrders], [computeBotStats], [buildClosedTradeEntries],
      [aggregateOpenPositions]).

    JavaScript numbers are kept behind the interface [Number], so that
    every function is written once, as the source has it, and is then
    read at two number systems: IEEE-754 binary64 (Rocq's primitive
    floats, what the code runs on) and exact rationals ([Qc], the
    arithmetic the accounting is meant to perform). *)

From Stdlib Require Import QArith Qcanon Qround Lqa Floats ZArith Sorted.
From stdpp Require Import gmap strings list.

Set Default Proof Using "Type".
Set Warnings "-register-all".

(** ** Numbers *)

(** The operations the accounting code applies to a JavaScript number. *)
Class Number (num : Type) := {
  nadd : num -> num -> num;
  nsub : num -> num -> num;
  nmul : num -> num -> num;
  ndiv : num -> num -> num;
  nneg : num -> num;
  nlt : num -> num -> bool;          (* a < b *)
  nle : num -> num -> bool;          (* a <= b *)
  Math_min : num -> num -> num;
  Math_max : num -> num -> num;
  Math_round : num -> num;
  Number_isFinite : num -> bool;
  nlit : Z -> num;                   (* an integer literal *)
  lit_1e_6 : num;                    (* the literal 1e-6 *)
  lit_1e_9 : num                     (* the literal 1e-9 *)
}.

Declare Scope js_scope.
Delimit Scope js_scope with js.
Infix "+" := nadd : js_scope.
Infix "-" := nsub : js_scope.
Infix "*" := nmul : js_scope.
Infix "/" := ndiv : js_scope.
Notation "- x" := (nneg x) : js_scope.
Infix "<?" := nlt : js_scope.
Infix "<=?" := nle : js_scope.
Notation "a >? b" := (nlt b a) (at level 70, no associativity) : js_scope.
Notation "a >=? b" := (nle b a) (at level 70, no associativity) : js_scope.

(** Errors thrown by the code. *)
Inductive result (A : Type) : Type :=
| Ok (a : A)
| Throw (msg : string).
Arguments Ok {A} a.
Arguments Throw {A} msg.

Definition bind {A B} (r : result A) (k : A -> result B) : result B :=
  match r with
  | Ok a => k a
  | Throw m => Throw m
  end.

Notation "'try!' x := r 'in' k" := (bind r (fun x => k))
  (at level 10, x name, r at level 100, k at level 200).

Inductive SpotSide := buy | sell.

Definition SpotSide_eqb (a b : SpotSide) : bool :=
  match a, b with
  | buy, buy | sell, sell => true
  | _, _ => false
  end.

(** [String.prototype.toLowerCase] on the ASCII letters. *)
Definition lower_ascii (c : Ascii.ascii) : Ascii.ascii :=
  let n := Ascii.N_of_ascii c in
  if ((65 <=? n)%N && (n <=? 90)%N)%bool then Ascii.ascii_of_N (n + 32) else c.

Fixpoint toLowerCase (s : string) : string :=
  match s with
  | EmptyString => EmptyString
  | String c s' => String (lower_ascii c) (toLowerCase s')
  end.

Section Engine.
Context {num : Type} `{Number num}.
Local Open Scope js_scope.

(** ** Untyped documents *)

(** A value read back from the document store ([unknown] in the source). *)
Inductive value : Type :=
| VUndefined
| VNull
| VBool (b : bool)
| VNumber (n : num)
| VString (s : string)
| VTimestamp (millis : num)
| VDate (time : num)
| VArray (items : list value)
| VObject (fields : list (string * value)).

Fixpoint getField (k : string) (fs : list (string * value)) : value :=
  match fs with
  | [] => VUndefined
  | (k', v) :: fs' => if String.eqb k k' then v else getField k fs'
  end.

(** Property access [o?.k]: undefined on what has no such property. *)
Definition field (k : string) (o : value) : value :=
  match o with
  | VObject fs => getField k fs
  | _ => VUndefined
  end.

(** [!entry || typeof entry !== "object"] is false exactly on these. *)
Definition isObjectLike (v : value) : bool :=
  match v with
  | VObject _ | VArray _ | VTimestamp _ | VDate _ => true
  | _ => false
  end.

(** [{ ...old, ...new }] at the top level, as [set(.., { merge: true })]
    does for documents whose fields are numbers, strings and arrays. *)
Fixpoint mergeFields (new old : list (string * value)) : list (string * value) :=
  match old with
  | [] => new
  | (k, v) :: old' =>
      match getField k new with
      | VUndefined => (k, v) :: mergeFields new old'
      | _ => mergeFields new old'
      end
  end.

Definition mergeDoc (new : list (string * value)) (old : option value) : value :=
  match old with
  | Some (VObject fs) => VObject (mergeFields new fs)
  | _ => VObject new
  end.

(** ** Shared helpers *)

Definition STATS_EPSILON : num := lit_1e_6.
Definition FIFO_EPSILON : num := lit_1e_9.
Definition DEFAULT_INITIAL_CASH : num := nlit 1000000.
Definition DEFAULT_INITIAL_CREDITS : num := nlit 1000000.

Definition sanitizeNumber (v : value) : option num :=
  match v with
  | VNumber n => if Number_isFinite n then Some n else None
  | _ => None
  end.

Definition round6 (x : num) : num := Math_round (x * nlit 1000000) / nlit 1000000.

(** [Array.prototype.sort] with a comparator: a stable sort; [b] goes
    before [a] exactly when [cmp a b > 0]. *)
Fixpoint insertBy {A} (cmp : A -> A -> num) (x : A) (l : list A) : list A :=
  match l with
  | [] => [x]
  | y :: l' => if cmp x y >? nlit 0 then y :: insertBy cmp x l' else x :: y :: l'
  end.

Fixpoint sortBy {A} (cmp : A -> A -> num) (l : list A) : list A :=
  match l with
  | [] => []
  | x :: l' => insertBy cmp x (sortBy cmp l')
  end.

(** [xs.reduce((acc, x) => acc + f(x), 0)] *)
Definition sumBy {A} (f : A -> num) (l : list A) : num :=
  fold_left (fun acc x => acc + f x) l (nlit 0).

(** ** The write path (bot runners) *)

Record FifoLotDoc := { qty : num; price : num; ts : num }.

Definition byTs (a b : FifoLotDoc) : num := ts a - ts b.

Definition normalizeFifoLot (entry : value) : option FifoLotDoc :=
  if negb (isObjectLike entry) then None else
  let tsCandidate := field "ts" entry in
  let ts :=
    match tsCandidate with
    | VNumber t => if Number_isFinite t then t else nlit 0
    | _ => nlit 0
    end in
  match sanitizeNumber (field "qty" entry), sanitizeNumber (field "price" entry) with
  | Some qty, Some price =>
      if qty <=? FIFO_EPSILON then None
      else Some {| qty := qty; price := price; ts := ts |}
  | _, _ => None
  end.

Definition normalizeFifoLots (raw : value) : list FifoLotDoc :=
  match raw with
  | VArray items => sortBy byTs (omap normalizeFifoLot items)
  | _ => []
  end.

(** A document snapshot: [None] when the document does not exist. *)
Definition snapshotData (snapshot : option value) : value :=
  match snapshot with
  | Some d => d
  | None => VObject []
  end.

Definition computeCashAfterDelta (snapshot : option value) (delta : num) : num :=
  let data := snapshotData snapshot in
  let base :=
    match sanitizeNumber (field "cash" data) with
    | Some c => c
    | None =>
        match sanitizeNumber (field "initialCredits" data) with
        | Some c => c
        | None => DEFAULT_INITIAL_CASH
        end
    end in
  round6 (base + delta).

Record PositionPayload := {
  p_symbol : string;
  p_qty : num;
  p_avgPrice : num;
  p_lots : list FifoLotDoc;
  p_updatedAt : num
}.

(** The sell loop of [computeFifoPositionPayload]: the lots still to be
    visited, the quantity still to settle and the lots kept so far. *)
Fixpoint consumeLots (currentLots : list FifoLotDoc) (remaining : num)
    (updated : list FifoLotDoc) : num * list FifoLotDoc :=
  match currentLots with
  | [] => (remaining, updated)
  | lot :: rest =>
      if remaining <=? FIFO_EPSILON then consumeLots rest remaining (updated ++ [lot])
      else
        let consume := Math_min (qty lot) remaining in
        let leftover := qty lot - consume in
        let remaining := remaining - consume in
        if leftover >? FIFO_EPSILON
        then consumeLots rest remaining
               (updated ++ [{| qty := round6 leftover; price := price lot; ts := ts lot |}])
        else consumeLots rest remaining updated
  end.

Definition finishLots (nextLots : list FifoLotDoc) : list FifoLotDoc :=
  sortBy byTs
    (map (fun lot => {| qty := round6 (qty lot); price := round6 (price lot); ts := ts lot |})
       (List.filter (fun lot => qty lot >? FIFO_EPSILON) nextLots)).

Definition computeFifoPositionPayload (snapshot : option value) (symbol : string)
    (side : SpotSide) (qty0 price0 ts0 : num) : result PositionPayload :=
  let data := snapshotData snapshot in
  let currentLots := normalizeFifoLots (field "lots" data) in
  try! nextLots :=
    (match side with
     | buy => Ok (currentLots ++ [{| qty := round6 qty0; price := price0; ts := ts0 |}])
     | sell =>
         let '(remaining, updated) := consumeLots currentLots qty0 [] in
         if remaining >? FIFO_EPSILON
         then Throw "Insufficient FIFO lots to settle sell order."
         else Ok updated
     end) in
  let nextLots := finishLots nextLots in
  let totalQty := sumBy qty nextLots in
  let totalCost := sumBy (fun lot => qty lot * price lot) nextLots in
  let avgPrice := if totalQty >? FIFO_EPSILON then round6 (totalCost / totalQty) else nlit 0 in
  Ok {| p_symbol := symbol;
        p_qty := round6 totalQty;
        p_avgPrice := avgPrice;
        p_lots := nextLots;
        p_updatedAt := ts0 |}.

(** What the store holds once a payload has been written. *)
Definition lotDoc (lot : FifoLotDoc) : value :=
  VObject [("qty", VNumber (qty lot)); ("price", VNumber (price lot)); ("ts", VNumber (ts lot))].

Definition payloadFields (p : PositionPayload) : list (string * value) :=
  [("symbol", VString (p_symbol p));
   ("qty", VNumber (p_qty p));
   ("avgPrice", VNumber (p_avgPrice p));
   ("lots", VArray (map lotDoc (p_lots p)));
   ("updatedAt", VNumber (p_updatedAt p))].

(** One account of the ledger store: [users/{uid}], its [positions]
    collection keyed by symbol and its [orders] collection. *)
Record Store := {
  userDoc : option value;
  positions : gmap string value;
  orders : list value
}.

Inductive Write :=
| SetUser (fs : list (string * value))
| SetPosition (symbol : string) (fs : list (string * value))
| AddOrder (fs : list (string * value)).

Definition applyWrite (st : Store) (w : Write) : Store :=
  match w with
  | SetUser fs =>
      {| userDoc := Some (mergeDoc fs (userDoc st));
         positions := positions st;
         orders := orders st |}
  | SetPosition symbol fs =>
      {| userDoc := userDoc st;
         positions := <[symbol := mergeDoc fs (positions st !! symbol)]> (positions st);
         orders := orders st |}
  | AddOrder fs =>
      {| userDoc := userDoc st;
         positions := positions st;
         orders := orders st ++ [VObject fs] |}
  end.

(** [runTransaction]: the writes of the callback are applied together
    when it returns, and none of them when it throws. *)
Definition runTransaction (st : Store) (body : Store -> result (list Write))
    : Store * result unit :=
  match body st with
  | Ok ws => (fold_left applyWrite ws st, Ok tt)
  | Throw m => (st, Throw m)
  end.

Record SpotOrderParams := {
  sp_symbol : string;
  sp_side : SpotSide;
  sp_qty : num;
  sp_fillPrice : num;
  sp_type : option string;
  sp_lotTimestamp : option num;
  sp_extra : list (string * value)
}.

Definition sideString (s : SpotSide) : string :=
  match s with
  | buy => "buy"
  | sell => "sell"
  end.

(** [now] is [Date.now()] and [serverNow] the store's [serverTimestamp()]. *)
Definition submitSpotOrder (now serverNow : num) (st : Store) (params : SpotOrderParams)
    : Store * result unit :=
  let symbol := sp_symbol params in
  let side := sp_side params in
  let qty0 := sp_qty params in
  let fillPrice := sp_fillPrice params in
  let type := default "MARKET" (sp_type params) in
  let lotTimestamp := default now (sp_lotTimestamp params) in
  if negb (Number_isFinite qty0) || (qty0 <=? nlit 0)
  then (st, Throw "Quantity must be positive.")
  else if negb (Number_isFinite fillPrice) || (fillPrice <=? nlit 0)
  then (st, Throw "Price must be positive.")
  else
    let cashDelta :=
      (match side with buy => nlit (-1) | sell => nlit 1 end) * qty0 * fillPrice in
    runTransaction st (fun st =>
      let userSnap := userDoc st in
      let positionSnap := positions st !! symbol in
      let nextCash := computeCashAfterDelta userSnap cashDelta in
      try! positionPayload :=
        computeFifoPositionPayload positionSnap symbol side qty0 fillPrice lotTimestamp in
      Ok [SetUser [("cash", VNumber nextCash)];
          SetPosition symbol (payloadFields positionPayload);
          AddOrder (mergeFields (sp_extra params)
                      [("symbol", VString symbol);
                       ("side", VString (sideString side));
                       ("qty", VNumber qty0);
                       ("type", VString type);
                       ("status", VString "filled");
                       ("fillPrice", VNumber fillPrice);
                       ("ts", VTimestamp serverNow)])]).

(** ** The read path ([useLiveBotStats.ts]) *)

(** [Map<string, V>]: keys in insertion order. *)
Fixpoint Map_get {V} (k : string) (m : list (string * V)) : option V :=
  match m with
  | [] => None
  | (k', v) :: m' => if String.eqb k k' then Some v else Map_get k m'
  end.

Fixpoint Map_set {V} (k : string) (v : V) (m : list (string * V)) : list (string * V) :=
  match m with
  | [] => [(k, v)]
  | (k', v') :: m' => if String.eqb k k' then (k, v) :: m' else (k', v') :: Map_set k v m'
  end.

Record QueryDocumentSnapshot := { doc_id : string; doc_data : value }.

Record NormalizedOrder := {
  ord_symbol : string;
  ord_side : SpotSide;
  ord_qty : num;
  ord_fillPrice : num;
  ord_ts : num
}.

(** The callback of [docs.map] in [normalizeOrders]; [now] is the value
    of [Date.now()] read for this record. *)
Definition normalizeOrder (now : num) (order : QueryDocumentSnapshot) : option NormalizedOrder :=
  let data := doc_data order in
  let symbolRaw := match field "symbol" data with VString s => s | _ => doc_id order end in
  let sideRaw := match field "side" data with VString s => toLowerCase s | _ => "" end in
  let qty := sanitizeNumber (field "qty" data) in
  let fillPrice := sanitizeNumber (field "fillPrice" data) in
  let tsValue := field "ts" data in
  let ts :=
    match tsValue with
    | VNumber t => if Number_isFinite t then t else now
    | VTimestamp millis => millis
    | VDate time => time
    | _ => now
    end in
  if String.eqb symbolRaw "" || (negb (String.eqb sideRaw "buy") && negb (String.eqb sideRaw "sell"))
  then None
  else
    match qty, fillPrice with
    | Some qty, Some fillPrice =>
        if (qty <=? STATS_EPSILON) || (fillPrice <=? STATS_EPSILON) then None
        else Some {| ord_symbol := symbolRaw;
                     ord_side := if String.eqb sideRaw "buy" then buy else sell;
                     ord_qty := qty;
                     ord_fillPrice := fillPrice;
                     ord_ts := ts |}
    | _, _ => None
    end.

Definition byOrdTs (a b : NormalizedOrder) : num := ord_ts a - ord_ts b.

(** [now i] is the clock read while the [i]-th record is mapped. *)
Definition normalizeOrders (now : nat -> num) (docs : list QueryDocumentSnapshot)
    : list NormalizedOrder :=
  sortBy byOrdTs (omap id (imap (fun i order => normalizeOrder (now i) order) docs)).

Record BookLot := { b_qty : num; b_price : num }.

(** The [while (remaining > STATS_EPSILON && book.length)] loop of
    [computeBotStats]; [None] when [fuel] iterations do not end it. *)
Fixpoint settleBook (fuel : nat) (fillPrice : num) (book : list BookLot)
    (remaining orderPnl : num) : option (list BookLot * num * num) :=
  match book with
  | lot :: rest =>
      if remaining >? STATS_EPSILON then
        match fuel with
        | O => None
        | S fuel =>
            let consume := Math_min (b_qty lot) remaining in
            let orderPnl := orderPnl + (fillPrice - b_price lot) * consume in
            let lotQty := b_qty lot - consume in
            let remaining := remaining - consume in
            if lotQty <=? STATS_EPSILON
            then settleBook fuel fillPrice rest remaining orderPnl
            else settleBook fuel fillPrice
                   ({| b_qty := lotQty; b_price := b_price lot |} :: rest) remaining orderPnl
        end
      else Some (book, remaining, orderPnl)
  | [] => Some (book, remaining, orderPnl)
  end.

Record Tally := {
  fifoBooks : list (string * list BookLot);
  realizedPnl : num;
  wins : nat;
  losses : nat;
  closedTrades : nat
}.

(** One turn of the [for (const order of orders)] loop of [computeBotStats]. *)
Definition tallyOrder (t : Tally) (order : NormalizedOrder) : option Tally :=
  let book := default [] (Map_get (ord_symbol order) (fifoBooks t)) in
  match ord_side order with
  | buy =>
      let book := book ++ [{| b_qty := ord_qty order; b_price := ord_fillPrice order |}] in
      Some {| fifoBooks := Map_set (ord_symbol order) book (fifoBooks t);
              realizedPnl := realizedPnl t;
              wins := wins t; losses := losses t; closedTrades := closedTrades t |}
  | sell =>
      match settleBook (length book) (ord_fillPrice order) book (ord_qty order) (nlit 0) with
      | None => None
      | Some (book, remaining, orderPnl) =>
          let books := Map_set (ord_symbol order) book (fifoBooks t) in
          if remaining <=? STATS_EPSILON then
            Some {| fifoBooks := books;
                    realizedPnl := realizedPnl t + orderPnl;
                    wins := if orderPnl >? STATS_EPSILON then S (wins t) else wins t;
                    losses := if orderPnl >? STATS_EPSILON then losses t
                              else if orderPnl <? - STATS_EPSILON then S (losses t)
                              else losses t;
                    closedTrades := S (closedTrades t) |}
          else
            Some {| fifoBooks := books;
                    realizedPnl := realizedPnl t;
                    wins := wins t; losses := losses t; closedTrades := closedTrades t |}
      end
  end.

Fixpoint tallyOrders (t : Tally) (orders : list NormalizedOrder) : option Tally :=
  match orders with
  | [] => Some t
  | order :: orders =>
      match tallyOrder t order with
      | Some t => tallyOrders t orders
      | None => None
      end
  end.

Record BotStats := {
  s_tradesCount : nat;
  s_pnl : num;
  s_roi : num;
  s_realizedPnl : num;
  s_wins : nat;
  s_losses : nat;
  s_winRate : num;
  s_closedTrades : nat
}.

Definition count (n : nat) : num := nlit (Z.of_nat n).

Definition emptyTally : Tally :=
  {| fifoBooks := []; realizedPnl := nlit 0; wins := 0; losses := 0; closedTrades := 0 |}.

(** [None] stands for a settlement loop that does not come to an end. *)
Definition computeBotStats (initialCredits totalValue : num) (orders : list NormalizedOrder)
    : option BotStats :=
  let tradesCount := length orders in
  let pnl := round6 (totalValue - initialCredits) in
  let roi :=
    if initialCredits >? STATS_EPSILON
    then (totalValue - initialCredits) / initialCredits
    else nlit 0 in
  match tallyOrders emptyTally orders with
  | None => None
  | Some t =>
      let winRate :=
        if (0 <? closedTrades t)%nat then count (wins t) / count (closedTrades t) else nlit 0 in
      Some {| s_tradesCount := tradesCount;
              s_pnl := pnl;
              s_roi := roi;
              s_realizedPnl := round6 (realizedPnl t);
              s_wins := wins t;
              s_losses := losses t;
              s_winRate := winRate;
              s_closedTrades := closedTrades t |}
  end.

Record ClosedTradeEntry := {
  e_symbol : string;
  e_qty : num;
  e_buyPrice : num;
  e_sellPrice : num;
  e_buyTs : num;
  e_sellTs : num;
  e_pnl : num
}.

(** The [while (remaining > STATS_EPSILON && lots.length)] loop of
    [buildClosedTradeEntries]. *)
Fixpoint closeLots (fuel : nat) (order : NormalizedOrder) (lots : list FifoLotDoc)
    (remaining : num) (entries : list ClosedTradeEntry)
    : option (list FifoLotDoc * list ClosedTradeEntry) :=
  match lots with
  | lot :: rest =>
      if remaining >? STATS_EPSILON then
        match fuel with
        | O => None
        | S fuel =>
            let consume := Math_min (qty lot) remaining in
            let entries := entries ++
              [{| e_symbol := ord_symbol order;
                  e_qty := round6 consume;
                  e_buyPrice := price lot;
                  e_sellPrice := ord_fillPrice order;
                  e_buyTs := ts lot;
                  e_sellTs := ord_ts order;
                  e_pnl := round6 ((ord_fillPrice order - price lot) * consume) |}] in
            let lotQty := round6 (qty lot - consume) in
            let remaining := round6 (remaining - consume) in
            if lotQty <=? STATS_EPSILON
            then closeLots fuel order rest remaining entries
            else closeLots fuel order
                   ({| qty := lotQty; price := price lot; ts := ts lot |} :: rest)
                   remaining entries
        end
      else Some (lots, entries)
  | [] => Some (lots, entries)
  end.

Fixpoint closeOrders (perSymbol : list (string * list FifoLotDoc))
    (entries : list ClosedTradeEntry) (orders : list NormalizedOrder)
    : option (list ClosedTradeEntry) :=
  match orders with
  | [] => Some entries
  | order :: orders =>
      let lots := default [] (Map_get (ord_symbol order) perSymbol) in
      match ord_side order with
      | buy =>
          let lots := lots ++
            [{| qty := ord_qty order; price := ord_fillPrice order; ts := ord_ts order |}] in
          closeOrders (Map_set (ord_symbol order) lots perSymbol) entries orders
      | sell =>
          match closeLots (length lots) order lots (ord_qty order) entries with
          | None => None
          | Some (lots, entries) =>
              closeOrders (Map_set (ord_symbol order) lots perSymbol) entries orders
          end
      end
  end.

Definition buildClosedTradeEntries (orders : list NormalizedOrder)
    : option (list ClosedTradeEntry) :=
  closeOrders [] [] orders.

Record AggregatedPosition := {
  a_symbol : string;
  a_lots : list FifoLotDoc;
  a_totalQty : num;
  a_avgPrice : num
}.

(** The stateful [agg.lots.map] of the sell branch of
    [aggregateOpenPositions]: [remaining] is threaded from lot to lot. *)
Fixpoint consumeOldest (lots : list FifoLotDoc) (remaining : num) : list FifoLotDoc :=
  match lots with
  | [] => []
  | lot :: rest =>
      if remaining <=? STATS_EPSILON then lot :: consumeOldest rest remaining
      else
        let consume := Math_min (qty lot) remaining in
        let remaining := remaining - consume in
        {| qty := qty lot - consume; price := price lot; ts := ts lot |}
          :: consumeOldest rest remaining
  end.

Definition aggregateOrder (perSymbol : list (string * AggregatedPosition))
    (order : NormalizedOrder) : list (string * AggregatedPosition) :=
  let agg :=
    default {| a_symbol := ord_symbol order; a_lots := []; a_totalQty := nlit 0;
               a_avgPrice := nlit 0 |}
      (Map_get (ord_symbol order) perSymbol) in
  let agg :=
    match ord_side order with
    | buy =>
        {| a_symbol := a_symbol agg;
           a_lots := a_lots agg ++
             [{| qty := ord_qty order; price := ord_fillPrice order; ts := ord_ts order |}];
           a_totalQty := a_totalQty agg + ord_qty order;
           a_avgPrice := a_avgPrice agg |}
    | sell =>
        {| a_symbol := a_symbol agg;
           a_lots := List.filter (fun lot => qty lot >? STATS_EPSILON)
                       (consumeOldest (a_lots agg) (ord_qty order));
           a_totalQty := Math_max (nlit 0) (a_totalQty agg - ord_qty order);
           a_avgPrice := a_avgPrice agg |}
    end in
  Map_set (ord_symbol order) agg perSymbol.

Definition summarize (agg : AggregatedPosition) : AggregatedPosition :=
  let totalCost := sumBy (fun lot => qty lot * price lot) (a_lots agg) in
  let totalQty := sumBy qty (a_lots agg) in
  let avgPrice := if totalQty >? STATS_EPSILON then totalCost / totalQty else nlit 0 in
  {| a_symbol := a_symbol agg;
     a_lots := map (fun lot => {| qty := round6 (qty lot); price := round6 (price lot);
                                  ts := ts lot |})
                 (List.filter (fun lot => qty lot >? STATS_EPSILON) (a_lots agg));
     a_totalQty := round6 totalQty;
     a_avgPrice := round6 avgPrice |}.

Definition aggregateOpenPositions (orders : list NormalizedOrder) : list AggregatedPosition :=
  List.filter (fun agg => a_totalQty agg >? STATS_EPSILON)
    (map (fun kv => summarize (snd kv)) (fold_left aggregateOrder orders [])).

(** [aggregatedPositions.find((entry) => entry.symbol === symbol)?.lots],
    as the hook reads the open lots of one symbol. *)
Definition openLots (symbol : string) (aggs : list AggregatedPosition) : list FifoLotDoc :=
  match find (fun entry => String.eqb (a_symbol entry) symbol) aggs with
  | Some entry => a_lots entry
  | None => []
  end.

(** ** Replaying a fill history through the write path *)

(** The lots the write path reads back for [symbol]. *)
Definition heldLots (st : Store) (symbol : string) : list FifoLotDoc :=
  normalizeFifoLots (field "lots" (snapshotData (positions st !! symbol))).

Definition emptyStore : Store := {| userDoc := None; positions := ∅; orders := [] |}.

(** A recorded fill, submitted again with its own timestamp as the lot's. *)
Definition fillParams (order : NormalizedOrder) : SpotOrderParams :=
  {| sp_symbol := ord_symbol order;
     sp_side := ord_side order;
     sp_qty := ord_qty order;
     sp_fillPrice := ord_fillPrice order;
     sp_type := None;
     sp_lotTimestamp := Some (ord_ts order);
     sp_extra := [] |}.

(** [submitSpotOrder] fill by fill; the first rejected fill ends the replay. *)
Fixpoint submitFills (st : Store) (fills : list NormalizedOrder) : Store * result unit :=
  match fills with
  | [] => (st, Ok tt)
  | order :: fills =>
      match submitSpotOrder (ord_ts order) (ord_ts order) st (fillParams order) with
      | (st, Ok _) => submitFills st fills
      | (st, Throw m) => (st, Throw m)
      end
  end.

End Engine.

Arguments value num : clear implicits.
Arguments FifoLotDoc num : clear implicits.
Arguments NormalizedOrder num : clear implicits.
Arguments ClosedTradeEntry num : clear implicits.
Arguments AggregatedPosition num : clear implicits.
Arguments BotStats num : clear implicits.
Arguments PositionPayload num : clear implicits.
Arguments SpotOrderParams num : clear implicits.
Arguments Store num : clear implicits.
Arguments QueryDocumentSnapshot num : clear implicits.
Arguments BookLot num : clear implicits.
Arguments Tally num : clear implicits.

(** ** The closed trades as the dashboard lists them *)

Definition logoUrlForSymbol (symbol : string) : string :=
  "https://logo.clearbit.com/" ++ toLowerCase symbol ++ ".com".

Section ClosedTrades.
Context {num : Type} `{Number num}.
Local Open Scope js_scope.

(** The fields of [Trade] that [mapClosedTradeEntries] sets. *)
Record Trade := {
  t_id : string;
  t_company : string;
  t_logo : string;
  t_quantity : num;
  t_purchasePrice : num;
  t_purchaseValue : num;
  t_sellPrice : num;
  t_sellValue : num;
  t_pnl : num;
  t_purchaseDate : string;
  t_sellDate : string
}.

(** The comparator [(a, b) => b.sellTs - a.sellTs]. *)
Definition bySellTsDesc (a b : ClosedTradeEntry num) : num := e_sellTs b - e_sellTs a.

(** [mapClosedTradeEntries]; [numberToString] is the conversion of a
    number inside a template literal and [toISOString] stands for
    [new Date(ts).toISOString()]. *)
Definition mapClosedTradeEntries (numberToString toISOString : num -> string)
    (entries : list (ClosedTradeEntry num)) : list Trade :=
  imap (fun index entry =>
          {| t_id := e_symbol entry ++ "-" ++ numberToString (e_sellTs entry) ++ "-"
                       ++ numberToString (count index);
             t_company := e_symbol entry;
             t_logo := logoUrlForSymbol (e_symbol entry);
             t_quantity := round6 (e_qty entry);
             t_purchasePrice := e_buyPrice entry;
             t_purchaseValue := round6 (e_buyPrice entry * e_qty entry);
             t_sellPrice := e_sellPrice entry;
             t_sellValue := round6 (e_sellPrice entry * e_qty entry);
             t_pnl := round6 (e_pnl entry);
             t_purchaseDate := toISOString (e_buyTs entry);
             t_sellDate := toISOString (e_sellTs entry) |})
       (sortBy bySellTsDesc entries).

End ClosedTrades.

Arguments Trade num : clear implicits.

(** ** The indicators of the trend runner *)

Section Indicators.
Context {num : Type} `{Number num}.
Local Open Scope js_scope.

(** [Math.abs x], which is [Math.max(x, -x)]. *)
Definition Math_abs (x : num) : num := Math_max x (- x).

(** [a === b] on two numbers. *)
Definition strictEq (a b : num) : bool := (a <=? b) && (b <=? a).

(** [values.at(-k)] for [k >= 1]: the [k]-th element from the end. *)
Definition at_back {A} (values : list A) (k : nat) : option A :=
  if decide (k <= length values)%nat then values !! (length values - k)%nat else None.

(** [values.slice(-n)]: the last [n] elements, and all of them for [n = 0]. *)
Definition slice_back {A} (values : list A) (n : nat) : list A :=
  match n with
  | O => values
  | S _ => drop (length values - n) values
  end.

(** [ema]: null below [span] values; the result of an empty series (which
    only a [span <= 0] lets through) is [values[0]], undefined. *)
Definition ema (values : list num) (span : num) : value num :=
  if count (length values) <? span then VNull
  else
    let alpha := nlit 2 / (span + nlit 1) in
    match values with
    | [] => VUndefined
    | first :: rest =>
        VNumber (fold_left (fun result v => alpha * v + (nlit 1 - alpha) * result) rest first)
    end.

(** [computeMomentum]; both [at] are defined once the length exceeds [period]. *)
Definition computeMomentum (values : list num) (period : nat) : option num :=
  if bool_decide (length values <= period)%nat then None
  else
    match at_back values 1, at_back values (S period) with
    | Some latest, Some ref =>
        if strictEq ref (nlit 0) then None else Some (latest / ref - nlit 1)
    | _, _ => None
    end.

(** The loop of [computeRsi] from index [i] on: [prev] is [values[i - 1]]. *)
Fixpoint rsiLoop (alpha prev : num) (rest : list num) (i : nat) (rollUp rollDown : num)
    : num * num :=
  match rest with
  | [] => (rollUp, rollDown)
  | v :: rest =>
      let delta := v - prev in
      let gain := Math_max delta (nlit 0) in
      let loss := Math_max (- delta) (nlit 0) in
      if Nat.eqb i 1 then rsiLoop alpha v rest (S i) gain loss
      else rsiLoop alpha v rest (S i)
             (alpha * gain + (nlit 1 - alpha) * rollUp)
             (alpha * loss + (nlit 1 - alpha) * rollDown)
  end.

Definition computeRsi (values : list num) (period : nat) : option num :=
  if bool_decide (length values < period + 1)%nat then None
  else
    let alpha := nlit 1 / count period in
    let '(rollUp, rollDown) :=
      match values with
      | [] => (nlit 0, nlit 0)
      | first :: rest => rsiLoop alpha first rest 1 (nlit 0) (nlit 0)
      end in
    if strictEq rollDown (nlit 0) then Some (nlit 100)
    else
      let rs := rollUp / rollDown in
      Some (nlit 100 - nlit 100 / (nlit 1 + rs)).

(** [diffs] of [computeAtr]: the absolute moves between neighbours. *)
Fixpoint absDiffs (prev : num) (rest : list num) : list num :=
  match rest with
  | [] => []
  | v :: rest => Math_abs (v - prev) :: absDiffs v rest
  end.

Definition computeAtr (values : list num) (period : nat) : option num :=
  if bool_decide (length values < period + 1)%nat then None
  else
    let diffs := match values with [] => [] | first :: rest => absDiffs first rest end in
    if bool_decide (length diffs < period)%nat then None
    else
      let slice := slice_back diffs period in
      let sum := sumBy (fun value => value) slice in
      Some (sum / count period).

End Indicators.

(** *** The feature vector *)

Section TrendFeatures.
Context {num : Type} `{Number num}.
Local Open Scope js_scope.

(** What [derived[name]] gives: one of the five numbers, or a member
    that [derived] inherits from [Object.prototype]. *)
Inductive Feature :=
| FNumber (x : num)
| FInherited (name : string).

(** The property names every object literal inherits, for which
    [name in derived] holds as well. *)
Definition objectPrototypeKeys : list string :=
  ["constructor"; "__defineGetter__"; "__defineSetter__"; "hasOwnProperty";
   "__lookupGetter__"; "__lookupSetter__"; "isPrototypeOf"; "propertyIsEnumerable";
   "toString"; "valueOf"; "__proto__"; "toLocaleString"].

(** [a - b] on two results of [ema]: a number when both are, NaN ([None])
    when one is undefined. *)
Definition emaDiff (a b : value num) : option num :=
  match a, b with
  | VNumber x, VNumber y => Some (x - y)
  | _, _ => None
  end.

Definition isNull (v : value num) : bool :=
  match v with
  | VNull => true
  | _ => false
  end.

(** The loop over [Object.entries(derived)]: the first entry that is not
    a finite number throws. *)
Fixpoint checkFinite (derived : list (string * option num)) : result (list (string * num)) :=
  match derived with
  | [] => Ok []
  | (key, v) :: rest =>
      match v with
      | Some x =>
          if Number_isFinite x
          then try! rest := checkFinite rest in Ok ((key, x) :: rest)
          else Throw ("Feature " ++ key ++ " is invalid.")
      | None => Throw ("Feature " ++ key ++ " is invalid.")
      end
  end.

Definition doubleQuote : string := String (Ascii.ascii_of_nat 34) EmptyString.

(** [names.map]: the first name that [derived] does not have throws. *)
Fixpoint featureVector (derived : list (string * num)) (names : list string)
    : result (list Feature) :=
  match names with
  | [] => Ok []
  | name :: names =>
      match find (fun kv => String.eqb (fst kv) name) derived with
      | Some kv => try! rest := featureVector derived names in Ok (FNumber (snd kv) :: rest)
      | None =>
          if existsb (String.eqb name) objectPrototypeKeys
          then try! rest := featureVector derived names in Ok (FInherited name :: rest)
          else Throw ("Unsupported feature " ++ doubleQuote ++ name ++ doubleQuote ++ " in model.")
      end
  end.

Definition computeTrendFeatures (names : list string) (closes : list num)
    : result (list Feature * list (string * num)) :=
  let ema20 := ema closes (nlit 20) in
  let ema50 := ema closes (nlit 50) in
  let ema100 := ema closes (nlit 100) in
  if isNull ema20 || isNull ema50 || isNull ema100
  then Throw "Not enough candles to compute EMAs."
  else
    match computeMomentum closes 5, computeRsi closes 14, computeAtr closes 14 with
    | Some momentum5, Some rsi14, Some atrValue =>
        let derived :=
          [("ema_diff_short", emaDiff ema20 ema50);
           ("ema_diff_long", emaDiff ema50 ema100);
           ("momentum5", Some momentum5);
           ("rsi14", Some rsi14);
           ("atr", Some atrValue)] in
        try! derived := checkFinite derived in
        try! vector := featureVector derived names in
        Ok (vector, derived)
    | _, _, _ => Throw "Not enough candles to compute momentum/RSI/ATR."
    end.

End TrendFeatures.

Arguments Feature num : clear implicits.

(** ** The runners around the ledger *)

(** [String.prototype.trim] on ASCII strings: tab, line feed, vertical
    tab, form feed, carriage return and space are stripped at both ends. *)
Definition isWhiteSpace (c : Ascii.ascii) : bool :=
  let n := Ascii.nat_of_ascii c in
  (Nat.leb 9 n && Nat.leb n 13) || Nat.eqb n 32.

Fixpoint trimStart (s : string) : string :=
  match s with
  | EmptyString => EmptyString
  | String c rest => if isWhiteSpace c then trimStart rest else s
  end.

Definition reverseString (s : string) : string :=
  String.string_of_list_ascii (rev (String.list_ascii_of_string s)).

Definition trimEnd (s : string) : string := reverseString (trimStart (reverseString s)).

Definition trim (s : string) : string := trimEnd (trimStart s).

(** A string is truthy when it is not empty. *)
Definition truthy (s : string) : bool := negb (String.eqb s "").

Module Momentum.
Section Runner.
Context {num : Type} `{Number num}.
Local Open Scope js_scope.

(** The callback of [positionsSnap.docs.map] in [recordWealthSnapshot]:
    the value of one position at the latest price of its symbol. *)
Definition positionValue (fetchLatestPriceForSymbol : string -> option num)
    (docSnap : QueryDocumentSnapshot num) : num :=
  let data := doc_data docSnap in
  match sanitizeNumber (field "qty" data) with
  | None => nlit 0
  | Some qty =>
      if Math_abs qty <=? FIFO_EPSILON then nlit 0
      else
        let symbol :=
          match field "symbol" data with
          | VString s => if truthy (trim s) then s else doc_id docSnap
          | _ => doc_id docSnap
          end in
        let price := if truthy symbol then fetchLatestPriceForSymbol symbol else None in
        match price with
        | None => nlit 0
        | Some price => round6 (qty * price)
        end
  end.

(** [recordWealthSnapshot]: the document it adds to [wealthHistory], from
    the user document, the position documents and the price feed it reads. *)
Definition recordWealthSnapshot (serverNow : num) (userSnap : option (value num))
    (positionsSnap : list (QueryDocumentSnapshot num))
    (fetchLatestPriceForSymbol : string -> option num) (source : option string)
    : list (string * value num) :=
  let userData := snapshotData userSnap in
  let baseCash :=
    match sanitizeNumber (field "cash" userData) with
    | Some c => c
    | None =>
        match sanitizeNumber (field "initialCredits" userData) with
        | Some c => c
        | None => DEFAULT_INITIAL_CASH
        end
    end in
  let cash := round6 baseCash in
  let positionValues := map (positionValue fetchLatestPriceForSymbol) positionsSnap in
  let stocks := round6 (sumBy (fun value => value) positionValues) in
  let total := round6 (cash + stocks) in
  [("cash", VNumber cash);
   ("stocks", VNumber stocks);
   ("total", VNumber total);
   ("source", VString (default "momentum-bot" source));
   ("snapshotType", VString "order");
   ("ts", VTimestamp serverNow)].

(** The end of [main]: the order placed, if any, once the two latest
    closes are read and the logic script has answered with [action].
    The account is read as it stands when the order is submitted. *)
Definition main_order (now serverNow : num) (st : Store num) (symbol : string)
    (lotSize latest : num) (action : string) : Store num * result unit :=
  let userSnap := userDoc st in
  let positionSnap := positions st !! symbol in
  let cash :=
    default DEFAULT_INITIAL_CASH
      (sanitizeNumber (match userSnap with Some d => field "cash" d | None => VUndefined end)) in
  let qtyHeld :=
    default (nlit 0)
      (sanitizeNumber (match positionSnap with Some d => field "qty" d | None => VUndefined end)) in
  if String.eqb action "buy" && (cash >=? latest * lotSize) then
    submitSpotOrder now serverNow st
      {| sp_symbol := symbol; sp_side := buy; sp_qty := lotSize; sp_fillPrice := latest;
         sp_type := None; sp_lotTimestamp := None; sp_extra := [] |}
  else if String.eqb action "sell" && (qtyHeld >=? lotSize) then
    submitSpotOrder now serverNow st
      {| sp_symbol := symbol; sp_side := sell; sp_qty := lotSize; sp_fillPrice := latest;
         sp_type := None; sp_lotTimestamp := None; sp_extra := [] |}
  else (st, Ok tt).

End Runner.
End Momentum.

Module MLTrend.
Section Runner.
Context {num : Type} `{Number num}.
Local Open Scope js_scope.

(** [!x] on a number: true of 0 and of NaN. *)
Definition isFalsy (x : num) : bool := negb ((x <? nlit 0) || (nlit 0 <? x)).

(** The callback of [positionsSnap.docs.map] in the trend runner's
    [recordWealthSnapshot]; [fetchLatestCloses] throws when the request
    for the closes fails. *)
Definition positionValue (fetchLatestCloses : string -> nat -> result (list num))
    (docSnap : QueryDocumentSnapshot num) : result num :=
  let data := doc_data docSnap in
  match sanitizeNumber (field "qty" data) with
  | None => Ok (nlit 0)
  | Some qty =>
      if Math_abs qty <=? FIFO_EPSILON then Ok (nlit 0)
      else
        let symbol :=
          match field "symbol" data with
          | VString s => if truthy (trim s) then s else doc_id docSnap
          | _ => doc_id docSnap
          end in
        if negb (truthy symbol) then Ok (nlit 0)
        else
          try! closes := fetchLatestCloses symbol 2%nat in
          match at_back closes 1 with
          | None => Ok (nlit 0)
          | Some latest => if isFalsy latest then Ok (nlit 0) else Ok (round6 (qty * latest))
          end
  end.

(** [Promise.all] over the positions: the values, or the error of a
    request that failed. *)
Fixpoint positionValues (fetchLatestCloses : string -> nat -> result (list num))
    (docs : list (QueryDocumentSnapshot num)) : result (list num) :=
  match docs with
  | [] => Ok []
  | docSnap :: docs =>
      try! value := positionValue fetchLatestCloses docSnap in
      try! values := positionValues fetchLatestCloses docs in
      Ok (value :: values)
  end.

(** [recordWealthSnapshot] of the trend runner: the document it adds to
    [wealthHistory], and [None] when an error is caught and only logged. *)
Definition recordWealthSnapshot (serverNow : num) (userSnap : option (value num))
    (positionsSnap : list (QueryDocumentSnapshot num))
    (fetchLatestCloses : string -> nat -> result (list num)) (source : option string)
    : option (list (string * value num)) :=
  let userData := snapshotData userSnap in
  let baseCash :=
    match sanitizeNumber (field "cash" userData) with
    | Some c => c
    | None =>
        match sanitizeNumber (field "initialCredits" userData) with
        | Some c => c
        | None => DEFAULT_INITIAL_CASH
        end
    end in
  let cash := round6 baseCash in
  match positionValues fetchLatestCloses positionsSnap with
  | Throw _ => None
  | Ok positionValues =>
      let stocks := round6 (sumBy (fun value => value) positionValues) in
      let total := round6 (cash + stocks) in
      Some [("cash", VNumber cash);
            ("stocks", VNumber stocks);
            ("total", VNumber total);
            ("source", VString (default "ml-trend-bot" source));
            ("snapshotType", VString "order");
            ("ts", VTimestamp serverNow)]
  end.

(** The end of [main]: the decision taken from the predicted return and
    the two thresholds read from the environment, and the order placed. *)
Definition main_order (now serverNow : num) (st : Store num) (symbol : string)
    (lotSize latestPrice predictedReturn BUY_RETURN_THRESHOLD SELL_RETURN_THRESHOLD : num)
    : Store num * result unit :=
  let userSnap := userDoc st in
  let positionSnap := positions st !! symbol in
  let cash :=
    default DEFAULT_INITIAL_CASH
      (sanitizeNumber (match userSnap with Some d => field "cash" d | None => VUndefined end)) in
  let qtyHeld :=
    default (nlit 0)
      (sanitizeNumber (match positionSnap with Some d => field "qty" d | None => VUndefined end)) in
  let action :=
    if predictedReturn >=? BUY_RETURN_THRESHOLD then "buy"
    else if predictedReturn <=? SELL_RETURN_THRESHOLD then "sell"
    else "hold" in
  if String.eqb action "buy" && (cash >=? latestPrice * lotSize) then
    submitSpotOrder now serverNow st
      {| sp_symbol := symbol; sp_side := buy; sp_qty := lotSize; sp_fillPrice := latestPrice;
         sp_type := None; sp_lotTimestamp := None; sp_extra := [] |}
  else if String.eqb action "sell" && (qtyHeld >=? lotSize) then
    submitSpotOrder now serverNow st
      {| sp_symbol := symbol; sp_side := sell; sp_qty := lotSize; sp_fillPrice := latestPrice;
         sp_type := None; sp_lotTimestamp := None; sp_extra := [] |}
  else (st, Ok tt).

End Runner.
End MLTrend.

(** ** Exact arithmetic *)

Module Exact.

Definition round (x : Qc) : Qc := Q2Qc (inject_Z (Qfloor (x + Q2Qc (1 # 2)))).

#[global] Instance exact : Number Qc := {|
  nadd := Qcplus;
  nsub := Qcminus;
  nmul := Qcmult;
  ndiv := Qcdiv;
  nneg := Qcopp;
  nlt a b := negb (Qle_bool b a);
  nle a b := Qle_bool a b;
  Math_min a b := if Qle_bool a b then a else b;
  Math_max a b := if Qle_bool a b then b else a;
  Math_round := round;
  Number_isFinite _ := true;
  nlit z := Q2Qc (inject_Z z);
  lit_1e_6 := Q2Qc (1 # 1000000);
  lit_1e_9 := Q2Qc (1 # 1000000000)
|}.

(** The multiples of [10^-6]: [grid n] is [n / 10^6]. *)
Definition grid (n : Z) : Qc := Q2Qc (n # 1000000).

End Exact.

(** ** IEEE-754 binary64 *)

Module F64.
Local Open Scope float_scope.

Definition of_Z (z : Z) : float :=
  match z with
  | Z0 => 0
  | Zpos p => PrimFloat.of_uint63 (Uint63.of_Z (Zpos p))
  | Zneg p => - PrimFloat.of_uint63 (Uint63.of_Z (Zpos p))
  end.

Definition isFinite (x : float) : bool := (x - x =? 0).

Definition isNegative (x : float) : bool := (x <? 0) || (1 / x <? 0).

(** Round to the nearest integer, ties to even, for [|x| < 2^52]. *)
Definition rint (x : float) : float :=
  if x <? 0 then (x - 0x1p52) + 0x1p52 else (x + 0x1p52) - 0x1p52.

(** [Math.round]: the nearest integer, ties towards +infinity. *)
Definition round (x : float) : float :=
  if negb (isFinite x) then x
  else if 0x1p52 <=? abs x then x
  else
    let r := rint x in
    let r := if x - r =? 0.5 then r + 1 else r in
    if (r =? 0) && isNegative x then -0 else r.

Definition min (a b : float) : float :=
  if a <? b then a
  else if b <? a then b
  else if negb (a =? a) then a
  else if negb (b =? b) then b
  else if isNegative a then a else b.

Definition max (a b : float) : float :=
  if a <? b then b
  else if b <? a then a
  else if negb (a =? a) then a
  else if negb (b =? b) then b
  else if isNegative a then b else a.

#[global] Instance binary64 : Number float | 10 := {|
  nadd := PrimFloat.add;
  nsub := PrimFloat.sub;
  nmul := PrimFloat.mul;
  ndiv := PrimFloat.div;
  nneg := PrimFloat.opp;
  nlt := PrimFloat.ltb;
  nle := PrimFloat.leb;
  Math_min := min;
  Math_max := max;
  Math_round := round;
  Number_isFinite := isFinite;
  nlit := of_Z;
  lit_1e_6 := 0x1.0c6f7a0b5ed8dp-20;
  lit_1e_9 := 0x1.12e0be826d695p-30
|}.

End F64.

(** ** Scenarios *)

Section Scenarios.
Context {num : Type} `{Number num}.
Local Open Scope js_scope.

Definition fill (symbol : string) (side : SpotSide) (qty price ts : num) : NormalizedOrder num :=
  {| ord_symbol := symbol; ord_side := side; ord_qty := qty; ord_fillPrice := price;
     ord_ts := ts |}.

(** Scenario A: buy 10 at 100, buy 5 at 110, sell 12 at 120. *)
Definition scenarioA : list (NormalizedOrder num) :=
  [ fill "AAPL" buy (nlit 10) (nlit 100) (nlit 1);
    fill "AAPL" buy (nlit 5) (nlit 110) (nlit 2);
    fill "AAPL" sell (nlit 12) (nlit 120) (nlit 3) ].

(** Its two buys. *)
Definition scenarioA_buys : list (NormalizedOrder num) :=
  [ fill "AAPL" buy (nlit 10) (nlit 100) (nlit 1);
    fill "AAPL" buy (nlit 5) (nlit 110) (nlit 2) ].

Definition scenarioA_lots : list (FifoLotDoc num) :=
  [ {| qty := nlit 3; price := nlit 110; ts := nlit 2 |} ].

Definition scenarioA_closed : list (ClosedTradeEntry num) :=
  [ {| e_symbol := "AAPL"; e_qty := nlit 10; e_buyPrice := nlit 100; e_sellPrice := nlit 120;
       e_buyTs := nlit 1; e_sellTs := nlit 3; e_pnl := nlit 200 |};
    {| e_symbol := "AAPL"; e_qty := nlit 2; e_buyPrice := nlit 110; e_sellPrice := nlit 120;
       e_buyTs := nlit 2; e_sellTs := nlit 3; e_pnl := nlit 20 |} ].

Definition scenarioA_holds : Prop :=
  snd (submitFills emptyStore scenarioA) = Ok tt /\
  heldLots (fst (submitFills emptyStore scenarioA)) "AAPL" = scenarioA_lots /\
  openLots "AAPL" (aggregateOpenPositions scenarioA) = scenarioA_lots /\
  buildClosedTradeEntries scenarioA = Some scenarioA_closed.

(** Scenario B: no fills, and a total value equal to the initial credits. *)
Definition scenarioB_stats : BotStats num :=
  {| s_tradesCount := 0; s_pnl := nlit 0; s_roi := nlit 0; s_realizedPnl := nlit 0;
     s_wins := 0; s_losses := 0; s_winRate := nlit 0; s_closedTrades := 0 |}.

(** Scenario C: a sell of 5 against an account that holds nothing. *)
Definition scenarioC : SpotOrderParams num :=
  fillParams (fill "AAPL" sell (nlit 5) (nlit 100) (nlit 1)).

(** An account with 100 in cash that buys 10 at 20. *)
Definition poorStore : Store num :=
  {| userDoc := Some (VObject [("cash", VNumber (nlit 100))]); positions := ∅; orders := [] |}.

Definition bigBuy : SpotOrderParams num :=
  fillParams (fill "AAPL" buy (nlit 10) (nlit 20) (nlit 1)).

(** A buy of 1 followed by a sell of 1 - 2^-20, about 0.99999905. *)
Definition dustHistory : list (NormalizedOrder num) :=
  [ fill "AAPL" buy (nlit 1) (nlit 1) (nlit 1);
    fill "AAPL" sell (nlit 1 - nlit 1 / nlit 1048576) (nlit 1) (nlit 2) ].

(** The lot of one millionth the write path is left with. *)
Definition dustLot : FifoLotDoc num := {| qty := lit_1e_6; price := nlit 1; ts := nlit 1 |}.

Definition dust_disagrees : Prop :=
  snd (submitFills emptyStore dustHistory) = Ok tt /\
  heldLots (fst (submitFills emptyStore dustHistory)) "AAPL" = [dustLot] /\
  openLots "AAPL" (aggregateOpenPositions dustHistory) = [].

(** Three buys of 1 + 3 * 2^-23, about 1.00000036: each lot is stored as 1. *)
Definition fractionalBuys : list (NormalizedOrder num) :=
  [ fill "AAPL" buy (nlit 1 + nlit 3 / nlit 8388608) (nlit 100) (nlit 1);
    fill "AAPL" buy (nlit 1 + nlit 3 / nlit 8388608) (nlit 100) (nlit 2);
    fill "AAPL" buy (nlit 1 + nlit 3 / nlit 8388608) (nlit 100) (nlit 3) ].

Definition fractional_drifts : Prop :=
  snd (submitFills emptyStore fractionalBuys) = Ok tt /\
  sumBy qty (heldLots (fst (submitFills emptyStore fractionalBuys)) "AAPL") = nlit 3 /\
  sumBy qty (openLots "AAPL" (aggregateOpenPositions fractionalBuys)) = nlit 3 /\
  (sumBy ord_qty fractionalBuys - nlit 3 >? lit_1e_6) = true.

(** An account provisioned with 100 credits and no [cash] field. *)
Definition uncashedStore : Store num :=
  {| userDoc := Some (VObject [("initialCredits", VNumber (nlit 100))]);
     positions := ∅; orders := [] |}.

(** The account [poorStore] after its buy of 10 at 20. *)
Definition boughtStore : Store num := fst (submitSpotOrder (nlit 1) (nlit 1) poorStore bigBuy).

(** Two position documents, the second without a [symbol] field. *)
Definition twoPositions : list (QueryDocumentSnapshot num) :=
  [ {| doc_id := "AAPL";
       doc_data := VObject [("symbol", VString "AAPL"); ("qty", VNumber (nlit 3))] |};
    {| doc_id := "MSFT"; doc_data := VObject [("qty", VNumber (nlit 2))] |} ].

Definition priceFeed (symbol : string) : option num :=
  if String.eqb symbol "AAPL" then Some (nlit 120)
  else if String.eqb symbol "MSFT" then Some (nlit 50)
  else None.

(** A hundred closes at 10. *)
Definition flatCloses : list num := replicate 100 (nlit 10).

(** A feed of closes, oldest first, and one whose request for AAPL fails. *)
Definition closesFeed (symbol : string) (limitRows : nat) : result (list num) :=
  if String.eqb symbol "AAPL" then Ok [nlit 119; nlit 120]
  else if String.eqb symbol "MSFT" then Ok [nlit 50]
  else Ok [].

Definition brokenFeed (symbol : string) (limitRows : nat) : result (list num) :=
  if String.eqb symbol "AAPL" then Throw "request failed" else Ok [].

(** The first of [twoPositions]. *)
Definition applePosition : QueryDocumentSnapshot num :=
  {| doc_id := "AAPL";
     doc_data := VObject [("symbol", VString "AAPL"); ("qty", VNumber (nlit 3))] |}.

End Scenarios.

(** 4500000000.001, as the nearest binary64 number. *)
Definition largeAmount : float := 0x1.0c388d0000419p+32.

(** ** Vocabulary of the statements *)

Section Vocabulary.
Import Exact.
Local Open Scope Qc_scope.

(** The balance [computeCashAfterDelta] starts from: the [cash] field,
    else [initialCredits], else 1,000,000. *)
Definition storedCash (st : Store Qc) : Qc :=
  match field "cash" (snapshotData (userDoc st)) with
  | VNumber c => c
  | _ =>
      match field "initialCredits" (snapshotData (userDoc st)) with
      | VNumber c => c
      | _ => nlit 1000000
      end
  end.

(** The symbol [normalizeOrders] gives a record: its [symbol] field when
    that is a string, the document id otherwise. *)
Definition symbolOf (d : QueryDocumentSnapshot Qc) : string :=
  match field "symbol" (doc_data d) with
  | VString s => s
  | _ => doc_id d
  end.

(** Its side, in lower case; empty when the field is not a string. *)
Definition sideOf (d : QueryDocumentSnapshot Qc) : string :=
  match field "side" (doc_data d) with
  | VString s => toLowerCase s
  | _ => ""
  end.

(** The records [normalizeOrders] is said to keep. *)
Definition wellFormed (d : QueryDocumentSnapshot Qc) : Prop :=
  symbolOf d <> "" /\
  (sideOf d = "buy" \/ sideOf d = "sell") /\
  (exists q, field "qty" (doc_data d) = VNumber q /\ STATS_EPSILON < q) /\
  (exists p, field "fillPrice" (doc_data d) = VNumber p /\ STATS_EPSILON < p).

(** *** Lots and lot lists *)

Definition tsLe (a b : FifoLotDoc Qc) : Prop := ts a <= ts b.

(** A lot as the write path stores it: quantity and price rounded to six
    decimals, quantity above [FIFO_EPSILON]. *)
Definition stable (lot : FifoLotDoc Qc) : Prop :=
  round6 (qty lot) = qty lot /\ round6 (price lot) = price lot /\ FIFO_EPSILON < qty lot.

Definition rounded (lot : FifoLotDoc Qc) : FifoLotDoc Qc :=
  {| qty := round6 (qty lot); price := round6 (price lot); ts := ts lot |}.

Definition setQty (lot : FifoLotDoc Qc) (q : Qc) : FifoLotDoc Qc :=
  {| qty := q; price := price lot; ts := ts lot |}.

(** The lots of every symbol are stored rounded, positive and in order
    of acquisition. *)
Definition ledgerInv (st : Store Qc) : Prop :=
  forall s, Forall stable (heldLots st s) /\ Sorted tsLe (heldLots st s).

(** [lot'] is [lot] with part of its quantity sold. *)
Definition reduced (lot lot' : FifoLotDoc Qc) : Prop :=
  price lot' = price lot /\ ts lot' = ts lot /\ 0 < qty lot' /\ qty lot' <= qty lot.

(** [after] is what is left of [before] once its oldest lots are
    consumed: a suffix of it, whose first lot may be reduced. *)
Definition fifoSuffix (before after : list (FifoLotDoc Qc)) : Prop :=
  exists k,
    after = drop k before \/
    exists lot lot', before !! k = Some lot /\ reduced lot lot' /\
                     after = lot' :: drop (S k) before.

(** The same before the final normalization of the lot list. *)
Definition cut (W X : list (FifoLotDoc Qc)) : Prop :=
  exists k,
    X = drop k W \/
    exists lot q', W !! k = Some lot /\ round6 q' = q' /\ 0 <= q' /\ q' <= qty lot /\
                   X = setQty lot q' :: drop (S k) W.

(** *** The replay of the dashboard, symbol by symbol *)

Definition lotOf (o : NormalizedOrder Qc) : FifoLotDoc Qc :=
  {| qty := ord_qty o; price := ord_fillPrice o; ts := ord_ts o |}.

Definition heavy (lot : FifoLotDoc Qc) : bool := nlt STATS_EPSILON (qty lot).

(** The lots [aggregateOpenPositions] holds for a symbol while it replays. *)
Definition internalLots (m : list (string * AggregatedPosition Qc)) (s : string)
    : list (FifoLotDoc Qc) :=
  match Map_get s m with
  | Some agg => a_lots agg
  | None => []
  end.

(** What it shows of them at the end. *)
Definition shownLots (L : list (FifoLotDoc Qc)) : list (FifoLotDoc Qc) :=
  if nlt STATS_EPSILON (round6 (sumBy qty L)) then map rounded (List.filter heavy L) else [].

Definition aggWf (m : list (string * AggregatedPosition Qc)) : Prop :=
  NoDup (map fst m) /\ forall k agg, (k, agg) ∈ m -> a_symbol agg = k.

(** What a replayed sell leaves: a suffix of the lots, whose first lot
    may be reduced but still holds more than [STATS_EPSILON]. *)
Definition cutShown (L X : list (FifoLotDoc Qc)) : Prop :=
  exists k,
    X = drop k L \/
    exists lot q', L !! k = Some lot /\ STATS_EPSILON < q' /\ q' <= qty lot /\
                   X = setQty lot q' :: drop (S k) L.

(** *** Fill histories *)

(** A fill as [normalizeOrders] lets it through. *)
Definition validFill (o : NormalizedOrder Qc) : Prop :=
  STATS_EPSILON < ord_qty o /\ STATS_EPSILON < ord_fillPrice o.

Definition buyOf (symbol : string) (o : NormalizedOrder Qc) : Prop :=
  ord_symbol o = symbol /\ ord_side o = buy /\ validFill o.

Definition ordTsLe (a b : NormalizedOrder Qc) : Prop := ord_ts a <= ord_ts b.

Definition onStep (m : Z) (x : Qc) : Prop := exists j : Z, (0 <= j)%Z /\ x = grid (m * j).

Definition stepLot (m : Z) (lot : FifoLotDoc Qc) : Prop :=
  exists j : Z, (1 <= j)%Z /\ qty lot = grid (m * j).

(** A fill whose quantity is a whole number of steps of [m] millionths. *)
Definition stepFill (m : Z) (o : NormalizedOrder Qc) : Prop :=
  validFill o /\ onStep m (ord_qty o).

(** The quantity a fill adds to the position in [s]. *)
Definition signedQty (s : string) (o : NormalizedOrder Qc) : Qc :=
  if decide (ord_symbol o = s)
  then match ord_side o with buy => ord_qty o | sell => - ord_qty o end
  else 0.

Definition netQty (s : string) (fills : list (NormalizedOrder Qc)) : Qc :=
  sumBy (signedQty s) fills.

(** The write path's store and the dashboard's replay, after the same
    fills [seen], the last of them at time [T]. *)
Definition Sim (m : Z) (T : Qc) (seen : list (NormalizedOrder Qc)) (st : Store Qc)
    (M : list (string * AggregatedPosition Qc)) : Prop :=
  forall s,
    heldLots st s = map rounded (internalLots M s) /\
    Forall (stepLot m) (internalLots M s) /\
    Forall (fun lot => ts lot <= T) (internalLots M s) /\
    Sorted tsLe (internalLots M s) /\
    sumBy qty (internalLots M s) = netQty s seen.

(** Half a millionth: the most [round6] moves a number. *)
Definition halfStep : Qc := Q2Qc (1 # 2000000).

(** Half a millionth for every fill of [fills] in symbol [s]. *)
Definition slack (s : string) (fills : list (NormalizedOrder Qc)) : Qc :=
  sumBy (fun o => if decide (ord_symbol o = s) then halfStep else 0) fills.

(** The stored lots of every symbol are within [slack] of its net quantity. *)
Definition Drift (seen : list (NormalizedOrder Qc)) (st : Store Qc) : Prop :=
  ledgerInv st /\
  forall s,
    netQty s seen - slack s seen <= sumBy qty (heldLots st s) /\
    sumBy qty (heldLots st s) <= netQty s seen + slack s seen.

(** *** The accounts of the write path, the runners and the dashboard *)

(** The accounts the write path produces: one without positions, then
    any accepted order. *)
Inductive ledger : Store Qc -> Prop :=
| ledger_fresh st : positions st = ∅ -> ledger st
| ledger_order st st' now serverNow params :
    ledger st -> submitSpotOrder now serverNow st params = (st', Ok tt) -> ledger st'.

(** A lot on the grid of millionths, holding at least one of them. *)
Definition gridLot (lot : FifoLotDoc Qc) : Prop :=
  exists n m : Z, (1 <= n)%Z /\ qty lot = grid n /\ price lot = grid m.

(** The position document of [s] agrees with the lots read back from it. *)
Definition positionDocOk (st : Store Qc) (s : string) : Prop :=
  match positions st !! s with
  | None => True
  | Some d =>
      field "qty" d = VNumber (sumBy qty (heldLots st s)) /\
      field "lots" d = VArray (map lotDoc (heldLots st s))
  end.

(** What an order adds to the cash balance before rounding. *)
Definition cashDelta (params : SpotOrderParams Qc) : Qc :=
  match sp_side params with
  | buy => - (sp_qty params * sp_fillPrice params)
  | sell => sp_qty params * sp_fillPrice params
  end.

(** The record [submitSpotOrder] writes to the order log when [extra] is empty. *)
Definition orderFields (serverNow : Qc) (params : SpotOrderParams Qc) : list (string * value Qc) :=
  [("symbol", VString (sp_symbol params));
   ("side", VString (sideString (sp_side params)));
   ("qty", VNumber (sp_qty params));
   ("type", VString (default "MARKET" (sp_type params)));
   ("status", VString "filled");
   ("fillPrice", VNumber (sp_fillPrice params));
   ("ts", VTimestamp serverNow)].

(** The sell orders of a history. *)
Definition sellsOf (orders : list (NormalizedOrder Qc)) : list (NormalizedOrder Qc) :=
  List.filter (fun o => SpotSide_eqb (ord_side o) sell) orders.

(** The orders of one symbol. *)
Definition ordersOf (s : string) (orders : list (NormalizedOrder Qc)) : list (NormalizedOrder Qc) :=
  List.filter (fun o => String.eqb (ord_symbol o) s) orders.

(** A closed entry pairs the buy [b] with the sell [o]. *)
Definition pairs (e : ClosedTradeEntry Qc) (b o : NormalizedOrder Qc) : Prop :=
  ord_side b = buy /\ ord_side o = sell /\
  ord_symbol b = e_symbol e /\ ord_symbol o = e_symbol e /\
  e_buyPrice e = ord_fillPrice b /\ e_buyTs e = ord_ts b /\
  e_sellPrice e = ord_fillPrice o /\ e_sellTs e = ord_ts o.

(** The price feed the closes feed stands for: the latest of the two
    closes it answers with, and none when the request fails. *)
Definition priceOfCloses (fetchLatestCloses : string -> nat -> result (list Qc))
    (symbol : string) : option Qc :=
  match fetchLatestCloses symbol 2%nat with
  | Ok closes => at_back closes 1
  | Throw _ => None
  end.

Definition featureNames : list string :=
  ["ema_diff_short"; "ema_diff_long"; "momentum5"; "rsi14"; "atr"].

Definition lotFrom (lots : list (FifoLotDoc Qc)) (p t : Qc) : Prop :=
  exists lot, lot ∈ lots /\ price lot = p /\ ts lot = t.

(** Every lot kept for a symbol comes from a buy of that symbol. *)
Definition lotsFromBuys (seen : list (NormalizedOrder Qc))
    (perSymbol : list (string * list (FifoLotDoc Qc))) : Prop :=
  forall k lots lot, Map_get k perSymbol = Some lots -> lot ∈ lots ->
    exists b, b ∈ seen /\ ord_side b = buy /\ ord_symbol b = k /\
              price lot = ord_fillPrice b /\ ts lot = ord_ts b.

Definition paired (seen : list (NormalizedOrder Qc)) (e : ClosedTradeEntry Qc) : Prop :=
  exists b o before between after,
    seen = before ++ b :: between ++ o :: after /\ pairs e b o.

Definition newestFirst (a b : ClosedTradeEntry Qc) : Prop := e_sellTs b <= e_sellTs a.

Definition roundedEntry (e : ClosedTradeEntry Qc) : Prop :=
  round6 (e_qty e) = e_qty e /\ round6 (e_pnl e) = e_pnl e.

End Vocabulary.

(** * Properties *)

(** ** Facts that hold in every number system *)

Section Generic.
Context {num : Type} `{Number num}.

Lemma insertBy_Forall {A} (P : A -> Prop) cmp x (l : list A) :
  P x -> Forall P l -> Forall P (insertBy cmp x l).
Proof.
  intros Hx Hl. induction Hl as [|y l Hy Hl IH]; simpl.
  - by constructor.
  - case_match; repeat constructor; auto.
Qed.

Lemma sortBy_Forall {A} (P : A -> Prop) cmp (l : list A) :
  Forall P l -> Forall P (sortBy cmp l).
Proof. induction 1; simpl; [constructor | by apply insertBy_Forall]. Qed.

Lemma normalizeFifoLot_qty entry lot :
  normalizeFifoLot entry = Some lot -> nle (qty lot) FIFO_EPSILON = false.
Proof.
  unfold normalizeFifoLot. destruct (negb _); [done|].
  destruct (sanitizeNumber _) as [q|]; [|done].
  destruct (sanitizeNumber _) as [p|]; [|done].
  destruct (nle q _) eqn:E; [done|]. by intros [= <-].
Qed.

(** Every lot read back from the store holds more than [FIFO_EPSILON]. *)
Lemma normalizeFifoLots_qty raw :
  Forall (fun lot => nle (qty lot) FIFO_EPSILON = false) (normalizeFifoLots raw).
Proof.
  destruct raw; simpl; try constructor.
  apply sortBy_Forall, Forall_forall. intros lot Hin.
  apply list_elem_of_omap in Hin as (entry & _ & Hlot).
  by eapply normalizeFifoLot_qty.
Qed.

(** A throw inside the transaction leaves the store as it was. *)
Lemma runTransaction_throw (st : Store num) body m :
  body st = Throw m -> runTransaction st body = (st, Throw m).
Proof. unfold runTransaction. by intros ->. Qed.

Lemma getField_mergeFields k (new old : list (string * value num)) :
  getField k (mergeFields new old) =
  match getField k new with VUndefined => getField k old | v => v end.
Proof.
  induction old as [|[k' v] old IH]; simpl.
  - by destruct (getField k new).
  - destruct (String.eqb_spec k k') as [->|Hk].
    + destruct (getField k' new) eqn:E; simpl; rewrite ?String.eqb_refl, ?IH, ?E; done.
    + destruct (getField k' new) eqn:E; simpl; rewrite ?IH;
        try (apply String.eqb_neq in Hk; rewrite Hk); done.
Qed.

Lemma field_mergeDoc k (new : list (string * value num)) old :
  field k (mergeDoc new old) =
  match getField k new with VUndefined => field k (snapshotData old) | v => v end.
Proof.
  destruct old as [[]|]; simpl; rewrite ?getField_mergeFields; by destruct (getField k new).
Qed.

Lemma insertBy_Permutation {A} cmp (x : A) l : insertBy cmp x l ≡ₚ x :: l.
Proof.
  induction l as [|y l IH]; simpl; [done|].
  case_match; [|done]. rewrite IH. apply Permutation_swap.
Qed.

(** [Array.prototype.sort] keeps the elements. *)
Lemma sortBy_Permutation {A} cmp (l : list A) : sortBy cmp l ≡ₚ l.
Proof.
  induction l as [|x l IH]; simpl; [done|].
  by rewrite insertBy_Permutation, IH.
Qed.

End Generic.

Section GenericStore.
Context {num : Type} `{Number num}.

Lemma submitSpotOrder_ok now serverNow (st st' : Store num) (params : SpotOrderParams num) :
  submitSpotOrder now serverNow st params = (st', Ok tt) ->
  exists payload : PositionPayload num,
    computeFifoPositionPayload (positions st !! sp_symbol params) (sp_symbol params)
      (sp_side params) (sp_qty params) (sp_fillPrice params)
      (default now (sp_lotTimestamp params)) = Ok payload /\
    positions st' =
      <[sp_symbol params := mergeDoc (payloadFields payload) (positions st !! sp_symbol params)]>
        (positions st).
Proof.
  unfold submitSpotOrder.
  case_match; [done|]. case_match; [done|].
  unfold runTransaction.
  destruct (computeFifoPositionPayload _ _ _ _ _ _) as [payload|m]; cbn [bind]; [|done].
  intros E. apply pair_equal_spec in E as [E _]. subst st'.
  exists payload. split; reflexivity.
Qed.

Lemma submitSpotOrder_throw now serverNow (st st' : Store num) (params : SpotOrderParams num) m :
  submitSpotOrder now serverNow st params = (st', Throw m) -> st' = st.
Proof.
  unfold submitSpotOrder, runTransaction.
  repeat case_match; intros E; apply pair_equal_spec in E as [E E']; done.
Qed.

Lemma heldLots_written (st st' : Store num) symbol (payload : PositionPayload num) old :
  positions st' = <[symbol := mergeDoc (payloadFields payload) old]> (positions st) ->
  heldLots st' symbol = normalizeFifoLots (VArray (map lotDoc (p_lots payload))) /\
  forall s, s <> symbol -> heldLots st' s = heldLots st s.
Proof.
  intros E. unfold heldLots. rewrite E. split.
  - rewrite lookup_insert_eq. cbn [snapshotData]. by rewrite field_mergeDoc.
  - intros s Hs. by rewrite lookup_insert_ne.
Qed.

Lemma consumeLots_app (W : list (FifoLotDoc num)) r upd :
  consumeLots W r upd = (fst (consumeLots W r []), upd ++ snd (consumeLots W r [])).
Proof.
  revert r upd. induction W as [|lot W IH]; intros r upd; simpl.
  - by rewrite app_nil_r.
  - repeat case_match; rewrite IH; try rewrite (IH _ [_]); simpl; by rewrite <- ?app_assoc.
Qed.

Lemma computeFifoPositionPayload_lots snapshot symbol side q p t (payload : PositionPayload num) :
  computeFifoPositionPayload snapshot symbol side q p t = Ok payload ->
  let W := normalizeFifoLots (field "lots" (snapshotData snapshot)) in
  match side with
  | buy => p_lots payload = finishLots (W ++ [{| qty := round6 q; price := p; ts := t |}])
  | sell => nlt FIFO_EPSILON (fst (consumeLots W q [])) = false /\
            p_lots payload = finishLots (snd (consumeLots W q []))
  end.
Proof.
  unfold computeFifoPositionPayload. destruct side; cbn [bind].
  - by intros [= <-].
  - destruct (consumeLots _ _ _) as [r S]. cbn [fst snd].
    destruct (nlt FIFO_EPSILON r); cbn [bind]; [done|]. by intros [= <-].
Qed.

End GenericStore.

(** *** The insertion-ordered map *)

Section Maps.
Context {V : Type}.
Implicit Types m : list (string * V).

Lemma Map_get_set_eq k v m : Map_get k (Map_set k v m) = Some v.
Proof.
  induction m as [|[k' v'] m IH]; cbn [Map_set Map_get].
  - by rewrite String.eqb_refl.
  - destruct (String.eqb_spec k k') as [->|Hk]; cbn [Map_get].
    + by rewrite String.eqb_refl.
    + apply String.eqb_neq in Hk. by rewrite Hk.
Qed.

Lemma Map_get_set_ne k k' v m : k' <> k -> Map_get k' (Map_set k v m) = Map_get k' m.
Proof.
  intros Hne. induction m as [|[k0 v0] m IH]; cbn [Map_set Map_get].
  - apply String.eqb_neq in Hne. by rewrite Hne.
  - destruct (String.eqb_spec k k0) as [->|Hk]; cbn [Map_get].
    + apply String.eqb_neq in Hne. by rewrite Hne.
    + by rewrite IH.
Qed.

Lemma Map_set_keys k v m :
  Map_get k m <> None -> map fst (Map_set k v m) = map fst m.
Proof.
  induction m as [|[k0 v0] m IH]; cbn [Map_set Map_get map fst]; [done|].
  destruct (String.eqb_spec k k0) as [->|Hk]; cbn [map fst]; [done|].
  intros Hm. by rewrite IH.
Qed.

Lemma Map_set_keys_new k v m :
  Map_get k m = None -> map fst (Map_set k v m) = map fst m ++ [k].
Proof.
  induction m as [|[k0 v0] m IH]; cbn [Map_set Map_get map fst app]; [done|].
  destruct (String.eqb_spec k k0) as [->|Hk]; cbn [map fst]; [done|].
  intros Hm. by rewrite IH.
Qed.

Lemma Map_get_None k m : Map_get k m = None <-> k ∉ map fst m.
Proof.
  induction m as [|[k0 v0] m IH]; cbn [Map_get map fst].
  - split; [intros _; apply not_elem_of_nil | done].
  - rewrite not_elem_of_cons. destruct (String.eqb_spec k k0) as [->|Hk].
    + split; [done|]. by intros [? _].
    + rewrite IH. split; [done|]. by intros [_ ?].
Qed.

Lemma Map_set_NoDup k v m : NoDup (map fst m) -> NoDup (map fst (Map_set k v m)).
Proof.
  intros Hnd. destruct (Map_get k m) eqn:Hk.
  - rewrite Map_set_keys; [done|]. by rewrite Hk.
  - rewrite Map_set_keys_new by done. apply NoDup_app. split; [done|].
    split; [|apply NoDup_singleton].
    intros x Hx Hx'. apply list_elem_of_singleton in Hx' as ->.
    by apply Map_get_None in Hk.
Qed.

Lemma Map_set_elem k v m kv :
  kv ∈ Map_set k v m -> kv = (k, v) \/ kv ∈ m.
Proof.
  induction m as [|[k0 v0] m IH]; cbn [Map_set].
  - intros Hin. apply list_elem_of_singleton in Hin. by left.
  - destruct (String.eqb_spec k k0) as [->|Hk]; rewrite !elem_of_cons.
    + intros [->|Hin]; [by left | right; by right].
    + intros [->|Hin]; [right; by left|].
      destruct (IH Hin) as [->|Hin']; [by left | right; by right].
Qed.

End Maps.

(** ** Arithmetic on exact rationals *)

Module ExactFacts.
Import Exact.
Local Open Scope Qc_scope.

Lemma Qc_eq_Qeq (a b : Qc) : a = b <-> (this a == this b)%Q.
Proof. split; [intros ->; reflexivity | apply Qc_is_canon]. Qed.

Lemma Qc_neq_Qeq (a b : Qc) : a <> b <-> ~ (this a == this b)%Q.
Proof. rewrite Qc_eq_Qeq. tauto. Qed.

Lemma Qle_bool_false (a b : Q) : Qle_bool a b = false <-> (b < a)%Q.
Proof.
  rewrite <- Bool.not_true_iff_false, Qle_bool_iff.
  split; [apply Qnot_le_lt | apply Qlt_not_le].
Qed.

(** [qc] moves a goal about the exact instance to one on [Q] that [lra]
    decides: the operations of the interface are unfolded, boolean
    comparisons become propositions, every closed [Qred q] is computed and
    every other one is replaced by a fresh rational equal to [q]. *)
Ltac qc_unfold :=
  cbn [nadd nsub nmul ndiv nneg nlt nle Math_min Math_max Math_round Number_isFinite
       nlit lit_1e_6 lit_1e_9 exact] in *;
  unfold round in *.

Ltac qc_props :=
  repeat match goal with
  | H : negb _ = true |- _ => apply Bool.negb_true_iff in H
  | H : negb _ = false |- _ => apply Bool.negb_false_iff in H
  | H : Qle_bool _ _ = true |- _ => apply Qle_bool_iff in H
  | H : Qle_bool _ _ = false |- _ => apply Qle_bool_false in H
  | H : @eq Qc _ _ |- _ => apply Qc_eq_Qeq in H
  | H : ~ @eq Qc _ _ |- _ => apply Qc_neq_Qeq in H
  | |- negb _ = true => apply Bool.negb_true_iff
  | |- negb _ = false => apply Bool.negb_false_iff
  | |- Qle_bool _ _ = true => apply Qle_bool_iff
  | |- Qle_bool _ _ = false => apply Qle_bool_false
  | |- @eq Qc _ _ => apply Qc_is_canon
  | |- ~ @eq Qc _ _ => apply Qc_neq_Qeq
  end.

Ltac is_pos_cst p :=
  lazymatch p with
  | xH => idtac
  | xO ?p' => is_pos_cst p'
  | xI ?p' => is_pos_cst p'
  end.

Ltac is_Z_cst z :=
  lazymatch z with
  | Z0 => idtac
  | Zpos ?p => is_pos_cst p
  | Zneg ?p => is_pos_cst p
  end.

Ltac is_Q_closed q :=
  lazymatch q with
  | Qmake ?n ?d => is_Z_cst n; is_pos_cst d
  | Qplus ?a ?b => is_Q_closed a; is_Q_closed b
  | Qminus ?a ?b => is_Q_closed a; is_Q_closed b
  | Qmult ?a ?b => is_Q_closed a; is_Q_closed b
  | Qdiv ?a ?b => is_Q_closed a; is_Q_closed b
  | Qopp ?a => is_Q_closed a
  | Qinv ?a => is_Q_closed a
  | Qred ?a => is_Q_closed a
  end.

Ltac qc_abstract q :=
  first
    [ is_Q_closed q;
      let v := eval vm_compute in (Qred q) in change (Qred q) with v in *
    | let r := fresh "r" in
      let e := fresh "e" in
      pose proof (Qred_correct q) as e; set (r := Qred q) in *; clearbody r ].

Ltac qc_red :=
  unfold Qcle, Qclt, Qcdiv, Qcinv, Qcminus, Qcplus, Qcmult, Qcopp, Q2Qc, inject_Z in *;
  cbn [this] in *;
  repeat match goal with
  | |- context [Qred ?q] => qc_abstract q
  | H : context [Qred ?q] |- _ => qc_abstract q
  end.

(** Values computed by the program are opaque to the arithmetic. *)
Ltac qc_hide_term t :=
  let a := fresh "a" in set (a := t) in *; clearbody a.

Ltac qc_hide :=
  repeat match goal with
  | |- context [@round6 Qc _ ?x] => qc_hide_term (@round6 Qc _ x)
  | H : context [@round6 Qc _ ?x] |- _ => qc_hide_term (@round6 Qc _ x)
  | |- context [@sumBy Qc _ ?A ?f ?l] => qc_hide_term (@sumBy Qc _ A f l)
  | H : context [@sumBy Qc _ ?A ?f ?l] |- _ => qc_hide_term (@sumBy Qc _ A f l)
  end.

Ltac qc := qc_hide; qc_unfold; qc_props; qc_red; try lra.

(** Equality of computed records: componentwise, [Qc] fields by their values. *)
Ltac qc_struct :=
  lazymatch goal with
  | |- @eq Qc _ _ => apply Qc_is_canon; reflexivity
  | |- ?a = ?a => reflexivity
  | |- _ => f_equal; qc_struct
  end.

Ltac qc_compute := vm_compute; qc_struct.

Lemma Qfloor_unique (q : Q) (n : Z) :
  (inject_Z n <= q)%Q -> (q < inject_Z (n + 1))%Q -> Qfloor q = n.
Proof.
  intros Hlo Hhi.
  pose proof (Qfloor_le q) as Hfl. pose proof (Qlt_floor q) as Hfu.
  assert (n < Qfloor q + 1)%Z by (rewrite Zlt_Qlt; lra).
  assert (Qfloor q < n + 1)%Z by (rewrite Zlt_Qlt; lra).
  lia.
Qed.

Lemma Qmake_inject (n : Z) (d : positive) : (n # d == (n # 1) * (1 # d))%Q.
Proof. unfold Qeq, Qmult. simpl. lia. Qed.

(** [Math.round x] is the integer [n] with [n - 1/2 <= x < n + 1/2]. *)
Lemma round_bounds (x : Qc) :
  let n := Qfloor (x + (1 # 2)) in
  round x = Q2Qc (n # 1) /\ ((n # 1) - (1 # 2) <= x)%Q /\ (x < (n # 1) + (1 # 2))%Q.
Proof.
  intros n. subst n.
  pose proof (Qfloor_le (x + (1 # 2))) as Hfl. pose proof (Qlt_floor (x + (1 # 2))) as Hfu.
  rewrite inject_Z_plus in Hfu. unfold inject_Z in *.
  split; [|lra].
  unfold round. apply Qc_is_canon. cbn [Q2Qc this].
  rewrite !Qred_correct. reflexivity.
Qed.

Lemma round6_bounds (x : Qc) :
  exists n : Z, round6 x = grid n /\
    ((n # 1) - (1 # 2) <= x * (1000000 # 1))%Q /\ (x * (1000000 # 1) < (n # 1) + (1 # 2))%Q.
Proof.
  unfold round6. cbn [Math_round nmul ndiv nlit exact].
  destruct (round_bounds (x * Q2Qc (inject_Z 1000000))%Qc) as (Hr & Hlo & Hhi).
  set (n := Qfloor _) in *. exists n. rewrite Hr. clear Hr.
  split.
  - unfold grid. pose proof (Qmake_inject n 1000000). qc.
  - qc.
Qed.

Lemma round_grid (n : Z) : round (Q2Qc (n # 1)) = Q2Qc (n # 1).
Proof.
  destruct (round_bounds (Q2Qc (n # 1))) as (Hr & _). rewrite Hr.
  f_equal. f_equal.
  apply Qfloor_unique; rewrite ?inject_Z_plus; unfold inject_Z; qc.
Qed.

Lemma round6_grid (n : Z) : round6 (grid n) = grid n.
Proof.
  unfold round6. cbn [Math_round nmul ndiv nlit exact].
  replace (grid n * Q2Qc (inject_Z 1000000))%Qc with (Q2Qc (n # 1)).
  - rewrite round_grid. unfold grid. pose proof (Qmake_inject n 1000000). qc.
  - unfold grid. pose proof (Qmake_inject n 1000000). qc.
Qed.

Lemma round6_idempotent (x : Qc) : round6 (round6 x) = round6 x.
Proof. destruct (round6_bounds x) as (n & -> & _). apply round6_grid. Qed.

Lemma sumBy_acc {A} (f : A -> Qc) (l : list A) (a : Qc) :
  fold_left (fun acc x => nadd acc (f x)) l a = a + sumBy f l.
Proof.
  unfold sumBy. revert a. induction l as [|x l IH]; intros a; simpl.
  - qc.
  - rewrite IH, (IH (_ + _)). qc.
Qed.

Lemma sumBy_cons {A} (f : A -> Qc) (x : A) (l : list A) :
  sumBy f (x :: l) = f x + sumBy f l.
Proof. unfold sumBy at 1. simpl. rewrite sumBy_acc. qc. Qed.

Lemma sumBy_nil {A} (f : A -> Qc) : sumBy f [] = 0.
Proof. unfold sumBy. simpl. qc. Qed.

(** A sell of more than the lots hold leaves a remainder above the epsilon. *)
Lemma consumeLots_short (lots : list (FifoLotDoc Qc)) (r : Qc) upd :
  Forall (fun lot => nle (qty lot) FIFO_EPSILON = false) lots ->
  sumBy qty lots + FIFO_EPSILON < r ->
  FIFO_EPSILON < fst (consumeLots lots r upd).
Proof.
  intros Hpos. revert r upd. induction Hpos as [|lot lots Hlot Hpos IH]; intros r upd Hr.
  - rewrite sumBy_nil in Hr. simpl. unfold FIFO_EPSILON in *. qc.
  - rewrite sumBy_cons in Hr. cbn [consumeLots].
    assert (Hs : 0 <= sumBy qty lots).
    { clear -Hpos. induction Hpos as [|l ls Hl _ IH]; [rewrite sumBy_nil; qc|].
      rewrite sumBy_cons. unfold FIFO_EPSILON in *. qc. }
    destruct (nle r FIFO_EPSILON) eqn:Er.
    { exfalso. clear IH. unfold FIFO_EPSILON in *. qc. }
    assert (Hr' : sumBy qty lots + FIFO_EPSILON < nsub r (Math_min (qty lot) r)).
    { unfold FIFO_EPSILON in *. cbn [Math_min exact]. destruct (Qle_bool (qty lot) r) eqn:Em; qc. }
    case_match; by apply IH.
Qed.

(** *** Sorting by a numeric key *)

Section Sorting.
Context {A : Type} (key : A -> Qc).
Let cmp (a b : A) : Qc := nsub (key a) (key b).
Let le (a b : A) : Prop := key a <= key b.

Lemma insertBy_Sorted x l : Sorted le l -> Sorted le (insertBy cmp x l).
Proof.
  induction 1 as [|y l Hl IH Hy]; cbn [insertBy]; [repeat constructor|].
  destruct (nlt (nlit 0) (cmp x y)) eqn:Hc.
  - constructor; [done|].
    assert (le y x) by (unfold le, cmp in *; qc).
    destruct Hy as [|z l Hz]; cbn [insertBy]; [by constructor|].
    case_match; by constructor.
  - repeat constructor; [done..|]. unfold le, cmp in *. qc.
Qed.

Lemma sortBy_Sorted l : Sorted le (sortBy cmp l).
Proof. induction l; cbn [sortBy]; [constructor | by apply insertBy_Sorted]. Qed.

(** Sorting a list that is in order already changes nothing. *)
Lemma sortBy_sorted l : Sorted le l -> sortBy cmp l = l.
Proof.
  induction 1 as [|x l Hl IH Hx]; cbn [sortBy]; [done|]. rewrite IH.
  destruct Hx as [|y l Hy]; cbn [insertBy]; [done|].
  replace (nlt (nlit 0) (cmp x y)) with false; [done|].
  symmetry. unfold le, cmp in *. qc.
Qed.
End Sorting.

(** *** The settlement loop of [computeBotStats] *)

Lemma settleBook_settled fuel fillPrice (book : list (BookLot Qc)) remaining orderPnl :
  nle remaining STATS_EPSILON = true ->
  settleBook fuel fillPrice book remaining orderPnl = Some (book, remaining, orderPnl).
Proof.
  intros Hr. assert (Hc : nlt STATS_EPSILON remaining = false) by (unfold STATS_EPSILON in *; qc).
  destruct fuel, book; cbn [settleBook]; rewrite ?Hc; reflexivity.
Qed.

(** The settlement loop ends within [length book] iterations. *)
Lemma settleBook_total fillPrice (book : list (BookLot Qc)) :
  forall fuel remaining orderPnl, (length book <= fuel)%nat ->
  is_Some (settleBook fuel fillPrice book remaining orderPnl).
Proof.
  induction book as [|lot rest IH]; intros fuel remaining orderPnl Hfuel.
  - destruct fuel; cbn [settleBook]; eauto.
  - destruct (nlt STATS_EPSILON remaining) eqn:Hc.
    2:{ rewrite settleBook_settled; [eauto|]. unfold STATS_EPSILON in *. qc. }
    destruct fuel as [|fuel]; [simpl in Hfuel; lia|].
    cbn [settleBook]. rewrite Hc.
    destruct (nle (nsub (b_qty lot) (Math_min (b_qty lot) remaining)) STATS_EPSILON) eqn:Hq.
    + apply IH. simpl in Hfuel. lia.
    + rewrite settleBook_settled; [eauto|].
      unfold STATS_EPSILON in *. cbn [Math_min exact] in *.
      destruct (Qle_bool (b_qty lot) remaining) eqn:Hm; qc.
Qed.

Lemma tallyOrder_total (t : Tally Qc) order : is_Some (tallyOrder t order).
Proof.
  unfold tallyOrder. destruct (ord_side order); [eauto|].
  destruct (settleBook_total (ord_fillPrice order) (default [] (Map_get (ord_symbol order) (fifoBooks t)))
              (length (default [] (Map_get (ord_symbol order) (fifoBooks t)))) (ord_qty order) (nlit 0))
    as [[[book remaining] orderPnl] ->]; [lia|].
  case_match; eauto.
Qed.

Lemma tallyOrders_total orders : forall t : Tally Qc, is_Some (tallyOrders t orders).
Proof.
  induction orders as [|order orders IH]; intros t; cbn [tallyOrders]; [eauto|].
  destruct (tallyOrder_total t order) as [t' ->]. apply IH.
Qed.

(** *** The grid of millionths *)

Lemma grid_Q (n : Z) : (this (grid n) == (n # 1) * (1 # 1000000))%Q.
Proof. unfold grid. cbn [this Q2Qc]. rewrite Qred_correct. apply Qmake_inject. Qed.

Lemma Z_Q_le (n m : Z) : (n <= m)%Z <-> ((n # 1) <= (m # 1))%Q.
Proof. rewrite Zle_Qle. reflexivity. Qed.

Lemma Z_Q_lt (n m : Z) : (n < m)%Z <-> ((n # 1) < (m # 1))%Q.
Proof. rewrite Zlt_Qlt. reflexivity. Qed.

Lemma Z_Q_plus (n m : Z) : ((n + m # 1) == (n # 1) + (m # 1))%Q.
Proof. pose proof (inject_Z_plus n m) as E. unfold inject_Z in E. rewrite E. reflexivity. Qed.

Lemma Z_Q_opp (n : Z) : ((- n # 1) == - (n # 1))%Q.
Proof. reflexivity. Qed.

Lemma grid_le (n m : Z) : grid n <= grid m <-> (n <= m)%Z.
Proof.
  rewrite Z_Q_le. pose proof (grid_Q n). pose proof (grid_Q m).
  unfold Qcle. split; intros; lra.
Qed.

Lemma grid_lt (n m : Z) : grid n < grid m <-> (n < m)%Z.
Proof.
  rewrite Z_Q_lt. pose proof (grid_Q n). pose proof (grid_Q m).
  unfold Qclt. split; intros; lra.
Qed.

Lemma grid_inj (n m : Z) : grid n = grid m -> n = m.
Proof.
  intros E. apply Z.le_antisymm; apply grid_le; rewrite E; apply Qcle_refl.
Qed.

Lemma grid_plus (n m : Z) : grid n + grid m = grid (n + m).
Proof.
  pose proof (grid_Q n). pose proof (grid_Q m). pose proof (grid_Q (n + m)).
  pose proof (Z_Q_plus n m). qc.
Qed.

Lemma grid_minus (n m : Z) : grid n - grid m = grid (n - m).
Proof.
  pose proof (grid_Q n). pose proof (grid_Q m). pose proof (grid_Q (n - m)).
  pose proof (Z_Q_plus n (- m)). pose proof (Z_Q_opp m).
  replace (n - m)%Z with (n + - m)%Z in * by lia. qc.
Qed.

Lemma grid_0 : grid 0 = 0.
Proof. qc_compute. Qed.

Lemma grid_above_fifo (n : Z) : FIFO_EPSILON < grid n <-> (1 <= n)%Z.
Proof.
  pose proof (grid_Q n). unfold FIFO_EPSILON. split.
  - intros Hn. assert (0 < n)%Z; [|lia]. apply Z_Q_lt. qc.
  - intros Hn. apply Z_Q_le in Hn. qc.
Qed.

Lemma grid_above_stats (n : Z) : STATS_EPSILON < grid n <-> (2 <= n)%Z.
Proof.
  pose proof (grid_Q n). unfold STATS_EPSILON. split.
  - intros Hn. assert (1 < n)%Z; [|lia]. apply Z_Q_lt. qc.
  - intros Hn. apply Z_Q_le in Hn. qc.
Qed.

Lemma round6_fixed (x : Qc) : round6 x = x <-> exists n, x = grid n.
Proof.
  split.
  - intros <-. destruct (round6_bounds x) as (n & Hn & _). eauto.
  - intros [n ->]. apply round6_grid.
Qed.

Lemma round6_mono (x y : Qc) : x <= y -> round6 x <= round6 y.
Proof.
  intros Hxy.
  destruct (round6_bounds x) as (n & -> & Hn1 & Hn2).
  destruct (round6_bounds y) as (m & -> & Hm1 & Hm2).
  apply grid_le. assert (n < m + 1)%Z; [|lia].
  apply Z_Q_lt. rewrite Z_Q_plus. unfold Qcle in Hxy. lra.
Qed.

Lemma round6_error (x : Qc) :
  round6 x - x <= Q2Qc (1 # 2000000) /\ x - round6 x <= Q2Qc (1 # 2000000).
Proof.
  destruct (round6_bounds x) as (n & -> & Hn1 & Hn2).
  pose proof (grid_Q n). split; qc.
Qed.

Lemma round6_nonneg (x : Qc) : 0 <= x -> 0 <= round6 x.
Proof.
  intros Hx. rewrite <- grid_0, <- (round6_grid 0). apply round6_mono. by rewrite grid_0.
Qed.

End ExactFacts.

(** ** The ledger mutation protocol *)

Section Ledger.
Import Exact ExactFacts.
Local Open Scope Qc_scope.



(** C10. A buy with positive quantity and price is committed whatever the
    balance: the new cash is [round6 (base - qty * price)], with [base]
    the stored cash, else [initialCredits], else 1,000,000, and one order
    record is appended. *)
Theorem buy_commits_unchecked (now serverNow : Qc) (st : Store Qc) (params : SpotOrderParams Qc) :
  sp_side params = buy ->
  0 < sp_qty params -> 0 < sp_fillPrice params ->
  exists st',
    submitSpotOrder now serverNow st params = (st', Ok tt) /\
    field "cash" (snapshotData (userDoc st'))
      = VNumber (round6 (storedCash st - sp_qty params * sp_fillPrice params)) /\
    length (orders st') = S (length (orders st)).
Proof.
  intros Hside Hq Hp. unfold submitSpotOrder.
  replace (nle (sp_qty params) (nlit 0)) with false by (symmetry; qc).
  replace (nle (sp_fillPrice params) (nlit 0)) with false by (symmetry; qc).
  cbn [Number_isFinite exact negb orb]. rewrite Hside.
  unfold runTransaction, computeFifoPositionPayload. cbn [bind fold_left applyWrite].
  eexists. split; [reflexivity|]. cbn [userDoc orders snapshotData]. split.
  - rewrite field_mergeDoc. cbn [getField String.eqb Ascii.eqb Bool.eqb]. f_equal.
    unfold computeCashAfterDelta. f_equal. unfold storedCash.
    unfold sanitizeNumber. cbn [Number_isFinite exact].
    destruct (field "cash" _); try destruct (field "initialCredits" _);
      unfold DEFAULT_INITIAL_CASH; qc; nra.
  - rewrite length_app. simpl. lia.
Qed.

(** With 100 in cash, a buy of 10 at 20 is committed and leaves -100. *)
Lemma buy_commits_unchecked_witness :
  exists st',
    submitSpotOrder (nlit 1) (nlit 1) poorStore bigBuy = (st', Ok tt) /\
    field "cash" (snapshotData (userDoc st'))
      = VNumber (round6 (storedCash poorStore - nlit 10 * nlit 20)) /\
    length (orders st') = 1%nat.
Proof.
  assert (Hq : 0 < sp_qty (bigBuy (num:=Qc))) by (vm_compute; reflexivity).
  assert (Hp : 0 < sp_fillPrice (bigBuy (num:=Qc))) by (vm_compute; reflexivity).
  exact (buy_commits_unchecked (nlit 1) (nlit 1) poorStore bigBuy eq_refl Hq Hp).
Defined.

End Ledger.

(** ** The order normalizer *)

Section Normalizer.
Import Exact ExactFacts.
Local Open Scope Qc_scope.

Lemma sanitizeNumber_exact (v : value Qc) q : sanitizeNumber v = Some q <-> v = VNumber q.
Proof. destruct v; simpl; naive_solver. Qed.

Lemma above_epsilon (q : Qc) : nle q STATS_EPSILON = false <-> STATS_EPSILON < q.
Proof. unfold STATS_EPSILON. split; intros; qc. Qed.

Lemma normalizeOrder_wellFormed now d : is_Some (normalizeOrder now d) <-> wellFormed d.
Proof.
  unfold normalizeOrder, wellFormed. fold (symbolOf d) (sideOf d).
  setoid_rewrite <- sanitizeNumber_exact. setoid_rewrite <- above_epsilon.
  destruct (String.eqb_spec (symbolOf d) "") as [Hsym|Hsym]; cbn [orb].
  { split; [intros [? [=]] | tauto]. }
  destruct (String.eqb_spec (sideOf d) "buy") as [Hb|Hb];
    destruct (String.eqb_spec (sideOf d) "sell") as [Hs|Hs]; cbn [negb andb];
    try (rewrite Hb in Hs; discriminate).
  3:{ split; [intros [? [=]] | tauto]. }
  all: destruct (sanitizeNumber (field "qty" (doc_data d))) as [q|];
       [| split; [intros [? [=]] | intros (_ & _ & (? & [=] & _) & _)]].
  all: destruct (sanitizeNumber (field "fillPrice" (doc_data d))) as [p|];
       [| split; [intros [? [=]] | intros (_ & _ & _ & (? & [=] & _))]].
  all: destruct (nle q STATS_EPSILON) eqn:Hq; destruct (nle p STATS_EPSILON) eqn:Hp; cbn [orb].
  all: split.
  all: try (intros [? [=]]; fail).
  all: try (intros (_ & _ & (? & [= <-] & ?) & (? & [= <-] & ?)); congruence).
  all: try (intros _; eexists; reflexivity).
  all: intros _; (split; [done|]); (split; [auto|]); split; eexists; split; done.
Qed.


End Normalizer.

(** ** The performance aggregator *)

Section Aggregator.
Import Exact ExactFacts.
Local Open Scope Qc_scope.

(** C7. [computeBotStats] always returns; its [roi] is
    [(totalValue - initialCredits) / initialCredits] when [initialCredits]
    exceeds [STATS_EPSILON] and 0 otherwise, its [winRate] is 0 when no
    trade was closed, and scenario B gives zeros throughout, in exact
    arithmetic and in binary64. *)
Theorem computeBotStats_roi (initialCredits totalValue : Qc) (orders : list (NormalizedOrder Qc)) :
  (exists s, computeBotStats initialCredits totalValue orders = Some s /\
     (STATS_EPSILON < initialCredits ->
        s_roi s = (totalValue - initialCredits) / initialCredits) /\
     (initialCredits <= STATS_EPSILON -> s_roi s = 0) /\
     (s_closedTrades s = 0%nat -> s_winRate s = 0)) /\
  computeBotStats (num:=Qc) (nlit 1000000) (nlit 1000000) [] =
    Some scenarioB_stats /\
  computeBotStats (num:=float) (nlit 1000000) (nlit 1000000) [] =
    Some scenarioB_stats.
Proof.
  split; [|split; [qc_compute | vm_compute; reflexivity]].
  unfold computeBotStats.
  destruct (tallyOrders_total orders emptyTally) as [t ->].
  eexists. split; [reflexivity|]. cbn [s_roi s_closedTrades s_winRate]. repeat split.
  - intros Hic. replace (nlt STATS_EPSILON initialCredits) with true; [reflexivity|].
    symmetry. unfold STATS_EPSILON in *. qc.
  - intros Hic. replace (nlt STATS_EPSILON initialCredits) with false; [qc|].
    symmetry. unfold STATS_EPSILON in *. qc.
  - intros ->. simpl. qc.
Qed.


End Aggregator.

(** ** Scenarios *)

(** C3. Scenario A leaves the single lot of 3 at 110 (on the write path
    and in the dashboard's replay alike) and closes two entries, 10 at
    100 with P&L 200 and 2 at 110 with P&L 20, in that order; in binary64
    and in exact arithmetic. *)
Theorem scenario_A : @scenarioA_holds float _ /\ @scenarioA_holds Qc _.
Proof.
  split; unfold scenarioA_holds.
  - split; [|split; [|split]]; vm_compute; reflexivity.
  - split; [|split; [|split]]; ExactFacts.qc_compute.
Qed.

(** ** Rounding *)



(** ** The lots the write path stores *)

Section StoredLots.
Import Exact ExactFacts.
Local Open Scope Qc_scope.

Lemma above_fifo (q : Qc) : nle q FIFO_EPSILON = false <-> FIFO_EPSILON < q.
Proof. unfold FIFO_EPSILON. split; intros; qc. Qed.

Lemma above_fifo' (q : Qc) : nlt FIFO_EPSILON q = true <-> FIFO_EPSILON < q.
Proof. unfold FIFO_EPSILON. split; intros; qc. Qed.

Lemma normalizeFifoLot_lotDoc (lot : FifoLotDoc Qc) :
  FIFO_EPSILON < qty lot -> normalizeFifoLot (lotDoc lot) = Some lot.
Proof.
  intros Hq. apply above_fifo in Hq. unfold normalizeFifoLot, lotDoc.
  cbn [isObjectLike negb field getField String.eqb Ascii.eqb Bool.eqb sanitizeNumber
       Number_isFinite exact].
  rewrite Hq. by destruct lot.
Qed.

Lemma Sorted_tsLe_sortBy (W : list (FifoLotDoc Qc)) : Sorted tsLe W -> sortBy byTs W = W.
Proof. apply (sortBy_sorted ts). Qed.

Lemma readback (W : list (FifoLotDoc Qc)) :
  Forall (fun lot => FIFO_EPSILON < qty lot) W -> Sorted tsLe W ->
  normalizeFifoLots (VArray (map lotDoc W)) = W.
Proof.
  intros Hq Hs. cbn [normalizeFifoLots].
  replace (omap normalizeFifoLot (map lotDoc W)) with W; [by apply Sorted_tsLe_sortBy|].
  clear Hs. induction Hq as [|lot W Hlot _ IH]; [done|].
  cbn [map omap list_omap].
  rewrite normalizeFifoLot_lotDoc by done. f_equal. apply IH.
Qed.

Lemma finishLots_cons (lot : FifoLotDoc Qc) X :
  finishLots (lot :: X) =
  if nlt FIFO_EPSILON (qty lot) then insertBy byTs (rounded lot) (finishLots X)
  else finishLots X.
Proof. unfold finishLots. cbn [List.filter]. by case_match. Qed.

Lemma rounded_stable lot : stable lot -> rounded lot = lot.
Proof. intros (Hq & Hp & _). destruct lot. unfold rounded. cbn in *. by rewrite Hq, Hp. Qed.

Lemma insertBy_sorted_head (lot : FifoLotDoc Qc) W :
  Sorted tsLe (lot :: W) -> insertBy byTs lot W = lot :: W.
Proof.
  intros Hs.
  pose proof (Sorted_tsLe_sortBy (lot :: W) Hs) as E. cbn [sortBy] in E.
  apply Sorted_inv in Hs as [Hs _]. by rewrite (Sorted_tsLe_sortBy W Hs) in E.
Qed.

Lemma finishLots_fixed W : Forall stable W -> Sorted tsLe W -> finishLots W = W.
Proof.
  intros Hst. induction Hst as [|lot W Hlot _ IH]; intros Hs; [done|].
  rewrite finishLots_cons.
  destruct Hlot as (Hq & Hp & Hpos). apply above_fifo' in Hpos as Hpos'. rewrite Hpos'.
  rewrite IH by (by apply Sorted_inv in Hs as [? _]).
  rewrite rounded_stable by done. by apply insertBy_sorted_head.
Qed.

Lemma finishLots_stable X :
  Forall (fun lot => round6 (qty lot) = qty lot) X -> Forall stable (finishLots X).
Proof.
  induction 1 as [|lot X Hlot _ IH]; [constructor|].
  rewrite finishLots_cons. destruct (nlt FIFO_EPSILON (qty lot)) eqn:Hpos; [|done].
  apply insertBy_Forall; [|done]. apply above_fifo' in Hpos.
  unfold stable, rounded. cbn [qty price ts]. rewrite !round6_idempotent, Hlot. done.
Qed.

Lemma finishLots_Sorted X : Sorted tsLe (finishLots X).
Proof. apply (sortBy_Sorted ts). Qed.

Lemma ledgerInv_empty : ledgerInv emptyStore.
Proof. intros s. unfold heldLots, emptyStore. cbn [positions]. rewrite lookup_empty. by split; constructor. Qed.

Lemma consumeLots_Forall (P : FifoLotDoc Qc -> Prop) W r upd :
  (forall lot x, P lot -> P (setQty lot (round6 x))) ->
  Forall P W -> Forall P upd -> Forall P (snd (consumeLots W r upd)).
Proof.
  intros HP HW. revert r upd. induction HW as [|lot W Hlot _ IH]; intros r upd Hupd; [done|].
  cbn [consumeLots]. repeat case_match; apply IH; try done.
  - apply Forall_app; split; [done|]. by repeat constructor.
  - apply Forall_app; split; [done|]. repeat constructor. by apply (HP lot).
Qed.

Lemma stable_Forall_gridded W :
  Forall stable W -> Forall (fun lot => round6 (qty lot) = qty lot) W.
Proof. intros HW. eapply Forall_impl; [exact HW|]. by intros lot (? & _). Qed.

Lemma stable_Forall_positive W :
  Forall stable W -> Forall (fun lot => FIFO_EPSILON < qty lot) W.
Proof. intros HW. eapply Forall_impl; [exact HW|]. by intros lot (_ & _ & ?). Qed.

(** What an accepted mutation leaves in the store. *)
Lemma ledger_step now serverNow (st st' : Store Qc) (params : SpotOrderParams Qc) :
  ledgerInv st ->
  submitSpotOrder now serverNow st params = (st', Ok tt) ->
  let W := heldLots st (sp_symbol params) in
  ledgerInv st' /\
  (forall s, s <> sp_symbol params -> heldLots st' s = heldLots st s) /\
  match sp_side params with
  | buy => heldLots st' (sp_symbol params) =
           finishLots (W ++ [{| qty := round6 (sp_qty params); price := sp_fillPrice params;
                                ts := default now (sp_lotTimestamp params) |}])
  | sell => fst (consumeLots W (sp_qty params) []) <= FIFO_EPSILON /\
            heldLots st' (sp_symbol params) = finishLots (snd (consumeLots W (sp_qty params) []))
  end.
Proof.
  intros Hinv Hok W.
  apply submitSpotOrder_ok in Hok as (payload & Hpay & Hpos).
  apply heldLots_written in Hpos as [Hsym Hother].
  apply computeFifoPositionPayload_lots in Hpay. fold (heldLots st (sp_symbol params)) in Hpay.
  fold W in Hpay. cbn zeta in Hpay.
  destruct (Hinv (sp_symbol params)) as [HWst HWs]. fold W in HWst, HWs.
  assert (Hlots : exists X, p_lots payload = finishLots X /\
                    Forall (fun lot => round6 (qty lot) = qty lot) X).
  { destruct (sp_side params).
    - eexists; split; [exact Hpay|]. apply Forall_app; split; [by apply stable_Forall_gridded|].
      repeat constructor. cbn [qty]. apply round6_idempotent.
    - destruct Hpay as [_ Hpay]. eexists; split; [exact Hpay|].
      apply consumeLots_Forall; [|by apply stable_Forall_gridded|constructor].
      intros lot x _. cbn [setQty qty]. apply round6_idempotent. }
  destruct Hlots as (X & HX & HXg).
  assert (Hback : heldLots st' (sp_symbol params) = finishLots X).
  { rewrite Hsym, HX. apply readback; [|apply finishLots_Sorted].
    apply stable_Forall_positive. by apply finishLots_stable. }
  split; [|split; [done|]].
  - intros s. destruct (decide (s = sp_symbol params)) as [->|Hs].
    + rewrite Hback. split; [by apply finishLots_stable | apply finishLots_Sorted].
    + rewrite Hother by done. apply Hinv.
  - destruct (sp_side params).
    + by rewrite Hback, <- HX, Hpay.
    + destruct Hpay as [Hr Hpay]. split; [|by rewrite Hback, <- HX, Hpay].
      unfold FIFO_EPSILON in *. qc.
Qed.

Lemma cut_cons lot W X : cut W X -> cut (lot :: W) X.
Proof.
  intros [k [->|(l & q' & Hl & Hq & H0 & Hle & ->)]]; exists (S k); [by left|].
  right. exists l, q'. by repeat split.
Qed.

Lemma consumeLots_settled (W : list (FifoLotDoc Qc)) r :
  r <= FIFO_EPSILON -> consumeLots W r [] = (r, W).
Proof.
  intros Hr. assert (Hc : nle r FIFO_EPSILON = true) by (unfold FIFO_EPSILON in *; qc).
  induction W as [|lot W IH]; cbn [consumeLots]; [done|].
  rewrite Hc, consumeLots_app, IH. done.
Qed.

Lemma sumBy_nonneg (W : list (FifoLotDoc Qc)) :
  Forall (fun lot => FIFO_EPSILON < qty lot) W -> 0 <= sumBy qty W.
Proof.
  induction 1 as [|lot W Hlot _ IH]; [rewrite sumBy_nil; qc|].
  rewrite sumBy_cons. unfold FIFO_EPSILON in *. qc.
Qed.

(** A sell of at most what the lots hold is settled in full, from the
    head of the list. *)
Lemma consumeLots_cut W : Forall stable W -> forall r,
  r <= sumBy qty W ->
  fst (consumeLots W r []) <= FIFO_EPSILON /\ cut W (snd (consumeLots W r [])).
Proof.
  induction 1 as [|lot W Hlot HW IH]; intros r Hr.
  - rewrite sumBy_nil in Hr. cbn [consumeLots fst snd]. split; [unfold FIFO_EPSILON; qc|].
    exists 0%nat. by left.
  - destruct (nle r FIFO_EPSILON) eqn:Hc.
    { rewrite consumeLots_settled by (unfold FIFO_EPSILON in *; qc). cbn [fst snd].
      split; [unfold FIFO_EPSILON in *; qc|]. exists 0%nat. by left. }
    cbn [consumeLots]. rewrite Hc. rewrite sumBy_cons in Hr.
    destruct Hlot as (Hq & Hp & Hpos).
    cbn [Math_min exact]. destruct (Qle_bool (qty lot) r) eqn:Hm.
    + replace (nlt FIFO_EPSILON (nsub (qty lot) (qty lot))) with false
        by (symmetry; unfold FIFO_EPSILON; qc).
      destruct (IH (nsub r (qty lot))) as [Hrem Hcut]; [qc|].
      split; [done|]. by apply cut_cons.
    + replace (nsub r r) with (0 : Qc) by qc.
      assert (H0 : (0 : Qc) <= FIFO_EPSILON) by (unfold FIFO_EPSILON; qc).
      destruct (nlt FIFO_EPSILON (nsub (qty lot) r)) eqn:Hl.
      * rewrite consumeLots_app, consumeLots_settled by done. cbn [fst snd app].
        split; [done|]. exists 0%nat. right.
        exists lot, (round6 (nsub (qty lot) r)). split; [done|].
        split; [apply round6_idempotent|]. split; [apply round6_nonneg; qc|].
        split; [|done]. rewrite <- Hq at 2. apply round6_mono.
        unfold FIFO_EPSILON in *. qc.
      * rewrite consumeLots_settled by done. cbn [fst snd].
        split; [done|]. exists 1%nat. by left.
Qed.

Lemma Sorted_drop {A} (R : A -> A -> Prop) k (l : list A) : Sorted R l -> Sorted R (drop k l).
Proof.
  revert l. induction k as [|k IH]; intros l Hl; [by rewrite drop_0|].
  destruct l as [|x l]; [done|]. cbn [drop]. apply IH. by apply Sorted_inv in Hl as [? _].
Qed.

Lemma finishLots_cut W X :
  Forall stable W -> Sorted tsLe W -> cut W X -> fifoSuffix W (finishLots X).
Proof.
  intros HW Hs [k [->|(lot & q' & Hl & Hq & H0 & Hle & ->)]].
  - exists k. left. apply finishLots_fixed; [by apply Forall_drop | by apply Sorted_drop].
  - assert (Hd : drop k W = lot :: drop (S k) W) by (by apply drop_S).
    assert (Hst : Forall stable (lot :: drop (S k) W)) by (rewrite <- Hd; by apply Forall_drop).
    assert (Hso : Sorted tsLe (lot :: drop (S k) W)) by (rewrite <- Hd; by apply Sorted_drop).
    apply Forall_cons in Hst as [Hlot Hst]. apply Sorted_inv in Hso as [Hso Hhd].
    rewrite finishLots_cons, (finishLots_fixed (drop (S k) W)) by done.
    cbn [setQty qty]. destruct (nlt FIFO_EPSILON q') eqn:Hpos.
    + apply above_fifo' in Hpos. exists k. right.
      exists lot, (setQty lot q'). split; [done|]. split.
      { unfold reduced, setQty. cbn. repeat split; try done. unfold FIFO_EPSILON in *. qc. }
      rewrite rounded_stable.
      * apply insertBy_sorted_head. constructor; [done|].
        destruct Hhd; constructor. done.
      * destruct Hlot as (_ & Hp & _). unfold stable, setQty. cbn. done.
    + exists (S k). by left.
Qed.

End StoredLots.

(** ** The lots the dashboard shows *)

Section ShownLots.
Import Exact ExactFacts.
Local Open Scope Qc_scope.

(** *** The dashboard's replay, symbol by symbol *)

Lemma internalLots_aggregateOrder m o s :
  internalLots (aggregateOrder m o) s =
  if decide (s = ord_symbol o) then
    match ord_side o with
    | buy => internalLots m s ++ [lotOf o]
    | sell => List.filter heavy (consumeOldest (internalLots m s) (ord_qty o))
    end
  else internalLots m s.
Proof.
  unfold internalLots, aggregateOrder. destruct (decide (s = ord_symbol o)) as [->|Hs].
  - rewrite Map_get_set_eq. destruct (Map_get (ord_symbol o) m), (ord_side o); reflexivity.
  - by rewrite Map_get_set_ne.
Qed.

Lemma aggWf_aggregateOrder m o : aggWf m -> aggWf (aggregateOrder m o).
Proof.
  intros [Hnd Hsym]. split; [by apply Map_set_NoDup|].
  intros k agg Hin. apply Map_set_elem in Hin as [[= -> ->]|Hin]; [|by apply Hsym].
  destruct (Map_get (ord_symbol o) m) as [agg|] eqn:Hg.
  - assert (a_symbol agg = ord_symbol o) as Hs.
    { apply Hsym. clear -Hg. induction m as [|[k0 v0] m IH]; [done|]. cbn [Map_get] in Hg.
      destruct (String.eqb_spec (ord_symbol o) k0) as [->|Hk].
      - injection Hg as ->. apply list_elem_of_here.
      - apply list_elem_of_further. by apply IH. }
    by destruct (ord_side o).
  - by destruct (ord_side o).
Qed.

Lemma aggWf_fold orders : forall m, aggWf m -> aggWf (fold_left aggregateOrder orders m).
Proof.
  induction orders as [|o orders IH]; intros m Hm; [done|].
  cbn [fold_left]. by apply IH, aggWf_aggregateOrder.
Qed.

Lemma openLots_shown m s :
  aggWf m ->
  openLots s (List.filter (fun agg => nlt STATS_EPSILON (a_totalQty agg))
                (map (fun kv => summarize (snd kv)) m))
  = shownLots (internalLots m s).
Proof.
  intros [Hnd Hsym]. unfold openLots, internalLots.
  induction m as [|[k agg] m IH]; cbn [map List.filter Map_get find snd].
  - unfold shownLots. rewrite sumBy_nil.
    replace (nlt STATS_EPSILON (round6 0)) with false; [done|].
    rewrite <- grid_0, round6_grid. symmetry. unfold STATS_EPSILON. rewrite grid_0. qc.
  - assert (Hk : a_symbol agg = k) by (apply Hsym, list_elem_of_here).
    cbn [map fst] in Hnd. apply NoDup_cons in Hnd as [Hk' Hnd].
    specialize (IH Hnd (fun k0 agg0 Hin => Hsym k0 agg0 (list_elem_of_further _ _ _ Hin))).
    destruct (String.eqb_spec s k) as [->|Hs].
    + change (a_totalQty (summarize agg)) with (round6 (sumBy qty (a_lots agg))).
      unfold shownLots. cbn [a_lots].
      destruct (nlt STATS_EPSILON (round6 (sumBy qty (a_lots agg)))) eqn:Ht.
      * cbn [find]. change (a_symbol (summarize agg)) with (a_symbol agg).
        rewrite Hk, String.eqb_refl. reflexivity.
      * rewrite IH. apply Map_get_None in Hk' as ->. unfold shownLots.
        rewrite sumBy_nil.
        replace (nlt STATS_EPSILON (round6 0)) with false; [done|].
        rewrite <- grid_0, round6_grid. symmetry. unfold STATS_EPSILON. rewrite grid_0. qc.
    + destruct (nlt STATS_EPSILON (a_totalQty (summarize agg))); [|apply IH].
      cbn [find]. change (a_symbol (summarize agg)) with (a_symbol agg). rewrite Hk.
      apply String.eqb_neq in Hs. rewrite String.eqb_sym, Hs. apply IH.
Qed.

(** The lots the dashboard shows for [s] after replaying [orders]. *)
Lemma openLots_aggregate orders s :
  openLots s (aggregateOpenPositions orders)
  = shownLots (internalLots (fold_left aggregateOrder orders []) s).
Proof.
  unfold aggregateOpenPositions. apply openLots_shown, aggWf_fold.
  split; [constructor | by intros ?? ?%elem_of_nil].
Qed.

Lemma above_stats (q : Qc) : nlt STATS_EPSILON q = true <-> STATS_EPSILON < q.
Proof. unfold STATS_EPSILON. split; intros; qc. Qed.

Lemma filter_heavy_all L : Forall (fun lot => STATS_EPSILON < qty lot) L -> List.filter heavy L = L.
Proof.
  induction 1 as [|lot L Hlot _ IH]; [done|]. cbn [List.filter].
  unfold heavy at 1. apply above_stats in Hlot. by rewrite Hlot, IH.
Qed.

Lemma consumeOldest_settled (L : list (FifoLotDoc Qc)) r :
  r <= STATS_EPSILON -> consumeOldest L r = L.
Proof.
  intros Hr. assert (Hc : nle r STATS_EPSILON = true) by (unfold STATS_EPSILON in *; qc).
  induction L as [|lot L IH]; cbn [consumeOldest]; [done|]. by rewrite Hc, IH.
Qed.

Lemma cutShown_cons lot L X : cutShown L X -> cutShown (lot :: L) X.
Proof.
  intros [k [->|(l & q' & Hl & Hq & Hle & ->)]]; exists (S k); [by left|].
  right. exists l, q'. by repeat split.
Qed.

Lemma consumeOldest_cut L : Forall (fun lot => STATS_EPSILON < qty lot) L -> forall r,
  cutShown L (List.filter heavy (consumeOldest L r)).
Proof.
  induction 1 as [|lot L Hlot HL IH]; intros r.
  - exists 0%nat. by left.
  - destruct (nle r STATS_EPSILON) eqn:Hc.
    { rewrite consumeOldest_settled by (unfold STATS_EPSILON in *; qc).
      rewrite filter_heavy_all by (by constructor). exists 0%nat. by left. }
    cbn [consumeOldest]. rewrite Hc. cbn [List.filter]. unfold heavy at 1. cbn [qty].
    cbn [Math_min exact]. destruct (Qle_bool (qty lot) r) eqn:Hm.
    + replace (nlt STATS_EPSILON (nsub (qty lot) (qty lot))) with false
        by (symmetry; unfold STATS_EPSILON; qc).
      apply cutShown_cons, IH.
    + replace (nsub r r) with (0 : Qc) by qc.
      rewrite consumeOldest_settled by (unfold STATS_EPSILON; qc).
      rewrite filter_heavy_all by done.
      destruct (nlt STATS_EPSILON (nsub (qty lot) r)) eqn:Hl.
      * exists 0%nat. right. exists lot, (nsub (qty lot) r).
        split; [done|]. split; [by apply above_stats|]. split; [|done].
        unfold STATS_EPSILON in *. qc.
      * exists 1%nat. by left.
Qed.

Lemma sumBy_drop_le (L : list (FifoLotDoc Qc)) k :
  Forall (fun lot => STATS_EPSILON < qty lot) L -> sumBy qty (drop k L) <= sumBy qty L.
Proof.
  intros HL. revert k. induction HL as [|lot L Hlot _ IH]; intros [|k]; cbn [drop]; try apply Qcle_refl.
  rewrite sumBy_cons. specialize (IH k). unfold STATS_EPSILON in *. qc.
Qed.

Lemma cutShown_sum L X :
  Forall (fun lot => STATS_EPSILON < qty lot) L -> cutShown L X -> sumBy qty X <= sumBy qty L.
Proof.
  intros HL [k [->|(lot & q' & Hl & Hq & Hle & ->)]]; [by apply sumBy_drop_le|].
  apply Qcle_trans with (sumBy qty (drop k L)); [|by apply sumBy_drop_le].
  rewrite (drop_S _ _ _ Hl), !sumBy_cons. cbn [setQty qty]. qc.
Qed.

Lemma cutShown_heavy L X :
  Forall (fun lot => STATS_EPSILON < qty lot) L -> cutShown L X ->
  Forall (fun lot => STATS_EPSILON < qty lot) X.
Proof.
  intros HL [k [->|(lot & q' & Hl & Hq & Hle & ->)]]; [by apply Forall_drop|].
  constructor; [done | by apply Forall_drop].
Qed.

Lemma map_rounded_drop k L : map rounded (drop k L) = drop k (map rounded L).
Proof. revert k. induction L as [|lot L IH]; intros [|k]; cbn [drop map]; by rewrite ?IH. Qed.

Lemma map_rounded_lookup k L lot :
  L !! k = Some lot -> map rounded L !! k = Some (rounded lot).
Proof.
  revert k. induction L as [|l L IH]; intros [|k]; cbn [map]; try done.
  - by intros [= ->].
  - apply IH.
Qed.

Lemma shownLots_heavy L :
  Forall (fun lot => STATS_EPSILON < qty lot) L ->
  shownLots L = if nlt STATS_EPSILON (round6 (sumBy qty L)) then map rounded L else [].
Proof. intros HL. unfold shownLots. by rewrite filter_heavy_all. Qed.

(** The lots shown after a sell are a FIFO suffix of those shown before. *)
Lemma shownLots_cut L X :
  Forall (fun lot => STATS_EPSILON < qty lot) L -> cutShown L X ->
  fifoSuffix (shownLots L) (shownLots X).
Proof.
  intros HL Hcut.
  rewrite (shownLots_heavy X) by (by eapply cutShown_heavy).
  destruct (nlt STATS_EPSILON (round6 (sumBy qty X))) eqn:HX.
  2:{ exists (length (shownLots L)). left. by rewrite drop_all. }
  rewrite shownLots_heavy by done.
  replace (nlt STATS_EPSILON (round6 (sumBy qty L))) with true.
  2:{ symmetry. apply above_stats. apply above_stats in HX.
      eapply Qclt_le_trans; [exact HX|]. apply round6_mono. by apply cutShown_sum. }
  destruct Hcut as [k [->|(lot & q' & Hl & Hq & Hle & ->)]]; exists k.
  - left. apply map_rounded_drop.
  - right. exists (rounded lot), (rounded (setQty lot q')).
    split; [by apply map_rounded_lookup|]. split.
    + unfold reduced, rounded, setQty. cbn. repeat split.
      * apply Qclt_le_trans with (round6 STATS_EPSILON); [|apply round6_mono; by apply Qclt_le_weak].
        change STATS_EPSILON with (grid 1). rewrite round6_grid.
        apply (grid_lt 0 1). lia.
      * by apply round6_mono.
    + cbn [map]. by rewrite map_rounded_drop.
Qed.

End ShownLots.

(** ** First in, first out *)

Section FirstInFirstOut.
Import Exact ExactFacts.
Local Open Scope Qc_scope.

Lemma submitSpotOrder_accepts now serverNow (st : Store Qc) (params : SpotOrderParams Qc) :
  0 < sp_qty params -> 0 < sp_fillPrice params ->
  (sp_side params = sell ->
   fst (consumeLots (heldLots st (sp_symbol params)) (sp_qty params) []) <= FIFO_EPSILON) ->
  exists st', submitSpotOrder now serverNow st params = (st', Ok tt).
Proof.
  intros Hq Hp Hsell. unfold submitSpotOrder.
  replace (nle (sp_qty params) (nlit 0)) with false by (symmetry; qc).
  replace (nle (sp_fillPrice params) (nlit 0)) with false by (symmetry; qc).
  cbn [Number_isFinite exact negb orb].
  unfold runTransaction, computeFifoPositionPayload.
  fold (heldLots st (sp_symbol params)).
  destruct (sp_side params); cbn [bind]; [by eexists|].
  specialize (Hsell eq_refl).
  destruct (consumeLots _ _ _) as [r X]. cbn [fst] in Hsell.
  replace (nlt FIFO_EPSILON r) with false by (symmetry; unfold FIFO_EPSILON in *; qc).
  cbn [bind]. by eexists.
Qed.

Lemma submitFills_app (st : Store Qc) fills fills' :
  submitFills st (fills ++ fills') =
  match submitFills st fills with
  | (st', Ok _) => submitFills st' fills'
  | (st', Throw m) => (st', Throw m)
  end.
Proof.
  revert st. induction fills as [|o fills IH]; intros st; cbn [app submitFills]; [done|].
  destruct (submitSpotOrder _ _ _ _) as [st' [[]|m]]; [apply IH | done].
Qed.

Lemma validFill_positive o : validFill o -> 0 < ord_qty o /\ 0 < ord_fillPrice o.
Proof. intros [Hq Hp]. unfold STATS_EPSILON in *. split; qc. Qed.

Lemma submitFills_buys (st : Store Qc) buys :
  ledgerInv st -> Forall (fun o => ord_side o = buy /\ validFill o) buys ->
  exists st', submitFills st buys = (st', Ok tt) /\ ledgerInv st'.
Proof.
  intros Hinv Hbuys. revert st Hinv.
  induction Hbuys as [|o buys [Hside Hvalid] _ IH]; intros st Hinv; cbn [submitFills]; [by eexists|].
  apply validFill_positive in Hvalid as [Hq Hp].
  destruct (submitSpotOrder_accepts (ord_ts o) (ord_ts o) st (fillParams o)) as [st' Hok];
    [done | done | by cbn [fillParams sp_side]; rewrite Hside |].
  rewrite Hok. apply IH. by eapply ledger_step.
Qed.

Lemma internalLots_buys symbol buys : forall m,
  Forall (buyOf symbol) buys ->
  internalLots (fold_left aggregateOrder buys m) symbol
  = internalLots m symbol ++ map lotOf buys.
Proof.
  induction buys as [|o buys IH]; intros m Hb; cbn [fold_left map].
  - by rewrite app_nil_r.
  - apply Forall_cons in Hb as [(Hsym & Hside & _) Hb].
    rewrite IH, internalLots_aggregateOrder by done.
    rewrite Hsym, decide_True, Hside by done. by rewrite <- app_assoc.
Qed.

Lemma Sorted_map_lotOf buys : Sorted ordTsLe buys -> Sorted tsLe (map lotOf buys).
Proof.
  induction 1 as [|o buys _ IH Hhd]; cbn [map]; constructor; [done|].
  destruct Hhd; constructor. done.
Qed.

Lemma Sorted_map_rounded L : Sorted tsLe L -> Sorted tsLe (map rounded L).
Proof.
  induction 1 as [|o buys _ IH Hhd]; cbn [map]; constructor; [done|].
  destruct Hhd; constructor. done.
Qed.

Lemma Sorted_filter_heavy L : Sorted tsLe L -> Sorted tsLe (List.filter heavy L).
Proof.
  intros Hs. apply Sorted_StronglySorted in Hs.
  2:{ intros a b c Hab Hbc. unfold tsLe in *. by apply Qcle_trans with (ts b). }
  apply StronglySorted_Sorted. induction Hs as [|lot L _ IH Hall]; cbn [List.filter]; [constructor|].
  destruct (heavy lot); [|done]. constructor; [done|].
  clear -Hall. induction Hall as [|x L Hx _ IH]; cbn [List.filter]; [constructor|].
  destruct (heavy x); [by constructor | done].
Qed.

Lemma shownLots_Sorted L : Sorted tsLe L -> Sorted tsLe (shownLots L).
Proof.
  intros Hs. unfold shownLots. case_match; [|constructor].
  by apply Sorted_map_rounded, Sorted_filter_heavy.
Qed.



End FirstInFirstOut.

(** ** The write path against the dashboard *)

Section Replay.
Import Exact ExactFacts.
Local Open Scope Qc_scope.

(** *** Quantities on a step of [m] millionths *)

Section Step.
Variable m : Z.
Hypothesis Hm : (2 <= m)%Z.

Lemma step_above (j : Z) :
  nlt FIFO_EPSILON (grid (m * j)) = bool_decide (1 <= j)%Z /\
  nlt STATS_EPSILON (grid (m * j)) = bool_decide (1 <= j)%Z.
Proof using Hm.
  pose proof (grid_above_fifo (m * j)) as H9. pose proof (grid_above_stats (m * j)) as H6.
  rewrite <- above_fifo' in H9. rewrite <- above_stats in H6.
  destruct (decide (1 <= j)%Z) as [Hj|Hj].
  - rewrite bool_decide_eq_true_2 by done. split; [apply H9 | apply H6]; nia.
  - rewrite bool_decide_eq_false_2 by done.
    split; apply Bool.not_true_is_false; intros E; [apply H9 in E | apply H6 in E]; nia.
Qed.

Lemma step_below (j : Z) :
  nle (grid (m * j)) FIFO_EPSILON = bool_decide (j <= 0)%Z /\
  nle (grid (m * j)) STATS_EPSILON = bool_decide (j <= 0)%Z.
Proof using Hm.
  destruct (step_above j) as [H9 H6].
  assert (E : forall x e : Qc, nle x e = negb (nlt e x)) by (intros; cbn [nle nlt exact]; by rewrite Bool.negb_involutive).
  rewrite !E, H9, H6. repeat case_bool_decide; try lia; done.
Qed.

Lemma stepLot_stable lot : stepLot m lot -> stable (rounded lot).
Proof using Hm.
  intros (j & Hj & Hq). unfold stable, rounded. cbn [qty price].
  rewrite !round6_idempotent. split; [done|]. split; [done|].
  rewrite Hq, (round6_grid (m * j)). apply grid_above_fifo. nia.
Qed.

Lemma stepLot_heavy lot : stepLot m lot -> STATS_EPSILON < qty lot.
Proof using Hm. intros (j & Hj & ->). apply grid_above_stats. nia. Qed.

Lemma stepLot_rounded_qty lot : stepLot m lot -> qty (rounded lot) = qty lot.
Proof. intros (j & Hj & Hq). cbn [rounded qty]. by rewrite Hq, (round6_grid (m * j)). Qed.

(** On such quantities the sell loops of the two paths do the same. *)
Lemma sell_agrees L : Forall (stepLot m) L -> forall r, onStep m r ->
  let L' := List.filter heavy (consumeOldest L r) in
  snd (consumeLots (map rounded L) r []) = map rounded L' /\
  onStep m (fst (consumeLots (map rounded L) r [])) /\
  sumBy qty L' + r = sumBy qty L + fst (consumeLots (map rounded L) r []) /\
  Forall (stepLot m) L'.
Proof using Hm.
  induction 1 as [|lot L Hlot HL IH]; intros r Hr L'.
  - subst L'. cbn [map consumeLots consumeOldest List.filter fst snd].
    split; [done|]. split; [done|]. split; [|done]. rewrite !sumBy_nil. qc.
  - destruct Hr as (jr & Hjr & ->). subst L'.
    destruct (step_below jr) as [H9 H6].
    destruct (decide (jr <= 0)%Z) as [Hz|Hz].
    { rewrite bool_decide_eq_true_2 in H9, H6 by done.
      rewrite consumeLots_settled by (unfold FIFO_EPSILON in *; qc).
      rewrite consumeOldest_settled by (unfold STATS_EPSILON in *; qc).
      rewrite filter_heavy_all.
      2:{ constructor; [by apply stepLot_heavy|]. eapply Forall_impl; [exact HL|].
          apply stepLot_heavy. }
      pose proof Hlot as Hlot'.
      cbn [fst snd]. split; [done|]. split; [exists jr; split; [lia|done]|].
      split; [qc | by constructor]. }
    rewrite bool_decide_eq_false_2 in H9, H6 by done.
    pose proof (stepLot_rounded_qty lot Hlot) as Hrq. pose proof Hlot as Hlot'.
    assert (Hheavy : Forall (fun lot => STATS_EPSILON < qty lot) L)
      by (eapply Forall_impl; [exact HL | apply stepLot_heavy]).
    destruct Hlot as (jl & Hjl & Hql).
    destruct (Qle_bool (grid (m * jl)) (grid (m * jr))) eqn:Hmin.
    + assert (Hle : (jl <= jr)%Z).
      { assert (m * jl <= m * jr)%Z; [|nia]. apply grid_le. qc. }
      pose proof (grid_minus (m * jr) (m * jl)) as Hg.
      replace (m * jr - m * jl)%Z with (m * (jr - jl))%Z in Hg by lia.
      pose proof (grid_minus (m * jl) (m * jl)) as Hg0.
      replace (m * jl - m * jl)%Z with (m * 0)%Z in Hg0 by lia.
      destruct (step_above 0) as [E9 E6]. rewrite bool_decide_eq_false_2 in E9, E6 by lia.
      assert (EW : consumeLots (map rounded (lot :: L)) (grid (m * jr)) []
                   = consumeLots (map rounded L) (grid (m * (jr - jl))) []).
      { cbn [map consumeLots]. rewrite H9, Hrq, Hql. cbn [Math_min exact]. rewrite Hmin.
        change (nsub ?a ?b) with (a - b). by rewrite Hg0, E9, Hg. }
      assert (EL : List.filter heavy (consumeOldest (lot :: L) (grid (m * jr)))
                   = List.filter heavy (consumeOldest L (grid (m * (jr - jl))))).
      { cbn [consumeOldest]. rewrite H6, Hql. cbn [Math_min exact]. rewrite Hmin.
        change (nsub ?a ?b) with (a - b). rewrite Hg0, Hg. cbn [List.filter].
        unfold heavy at 1. cbn [qty]. by rewrite E6. }
      rewrite EW, EL.
      destruct (IH (grid (m * (jr - jl)))) as (HX & Hrem & Hsum & Hstep).
      { exists (jr - jl)%Z. split; [lia|done]. }
      split; [done|]. split; [done|]. split; [|done].
      rewrite sumBy_cons, Hql. clear -Hsum Hg. qc.
    + assert (Hlt : (jr < jl)%Z).
      { assert (m * jr < m * jl)%Z; [|nia]. apply grid_lt. qc. }
      pose proof (grid_minus (m * jl) (m * jr)) as Hg.
      replace (m * jl - m * jr)%Z with (m * (jl - jr))%Z in Hg by lia.
      pose proof (grid_minus (m * jr) (m * jr)) as Hg0.
      replace (m * jr - m * jr)%Z with 0%Z in Hg0 by lia. rewrite grid_0 in Hg0.
      destruct (step_above (jl - jr)) as [E9 E6]. rewrite bool_decide_eq_true_2 in E9, E6 by lia.
      assert (EW : consumeLots (map rounded (lot :: L)) (grid (m * jr)) []
                   = (0, setQty (rounded lot) (grid (m * (jl - jr))) :: map rounded L)).
      { cbn [map consumeLots]. rewrite H9, Hrq, Hql. cbn [Math_min exact]. rewrite Hmin.
        change (nsub ?a ?b) with (a - b). rewrite Hg0, Hg, E9.
        rewrite consumeLots_app, consumeLots_settled by (unfold FIFO_EPSILON; qc).
        cbn [fst snd app]. by rewrite (round6_grid (m * (jl - jr))). }
      assert (EL : List.filter heavy (consumeOldest (lot :: L) (grid (m * jr)))
                   = setQty lot (grid (m * (jl - jr))) :: L).
      { cbn [consumeOldest]. rewrite H6, Hql. cbn [Math_min exact]. rewrite Hmin.
        change (nsub ?a ?b) with (a - b). rewrite Hg0, Hg. cbn [List.filter].
        unfold heavy at 1. cbn [qty]. rewrite E6.
        rewrite consumeOldest_settled by (unfold STATS_EPSILON; qc).
        by rewrite filter_heavy_all. }
      rewrite EW, EL. cbn [fst snd map]. split; [|split; [|split]].
      * f_equal. unfold rounded, setQty. cbn [qty price ts].
        by rewrite (round6_grid (m * (jl - jr))).
      * exists 0%Z. split; [lia|]. rewrite <- grid_0. f_equal. lia.
      * rewrite !sumBy_cons. cbn [setQty qty]. rewrite Hql. clear -Hg. qc.
      * constructor; [|done]. exists (jl - jr)%Z. split; [lia|done].
Qed.

End Step.

Lemma sumBy_app {A} (f : A -> Qc) (l l' : list A) : sumBy f (l ++ l') = sumBy f l + sumBy f l'.
Proof.
  induction l as [|x l IH]; cbn [app]; [rewrite sumBy_nil; qc|].
  rewrite !sumBy_cons, IH. qc.
Qed.

Lemma sumBy_map_rounded m L : Forall (stepLot m) L -> sumBy qty (map rounded L) = sumBy qty L.
Proof.
  induction 1 as [|lot L Hlot _ IH]; [done|]. cbn [map].
  by rewrite !sumBy_cons, IH, (stepLot_rounded_qty m lot).
Qed.

Lemma Sorted_snoc {A} (R : A -> A -> Prop) (l : list A) x :
  Sorted R l -> Forall (fun y => R y x) l -> Sorted R (l ++ [x]).
Proof.
  induction 1 as [|y l Hl IH Hhd]; intros Hall; cbn [app]; [by repeat constructor|].
  apply Forall_cons in Hall as [Hy Hall]. constructor; [by apply IH|].
  destruct Hhd; cbn [app]; by constructor.
Qed.

Lemma finishLots_snoc W new :
  Forall stable W -> Sorted tsLe (W ++ [rounded new]) -> FIFO_EPSILON < qty new ->
  finishLots (W ++ [new]) = W ++ [rounded new].
Proof.
  intros HW. induction HW as [|lot W Hlot _ IH]; intros Hs Hq; cbn [app] in *.
  - rewrite finishLots_cons. apply above_fifo' in Hq. by rewrite Hq.
  - rewrite finishLots_cons. destruct Hlot as (Hlq & Hlp & Hpos).
    apply above_fifo' in Hpos as Hpos'. rewrite Hpos'.
    rewrite IH by (by apply Sorted_inv in Hs as [? _]).
    rewrite rounded_stable by done. by apply insertBy_sorted_head.
Qed.

Lemma cutShown_Forall (P : FifoLotDoc Qc -> Prop) L X :
  (forall lot q', P lot -> P (setQty lot q')) ->
  Forall P L -> cutShown L X -> Forall P X.
Proof.
  intros HP HL [k [->|(lot & q' & Hl & Hq & Hle & ->)]]; [by apply Forall_drop|].
  constructor; [|by apply Forall_drop].
  apply HP. eapply Forall_lookup_1; eauto.
Qed.

Lemma cutShown_Sorted L X : Sorted tsLe L -> cutShown L X -> Sorted tsLe X.
Proof.
  intros HL [k [->|(lot & q' & Hl & Hq & Hle & ->)]]; [by apply Sorted_drop|].
  pose proof (Sorted_drop tsLe k L HL) as Hd. rewrite (drop_S _ _ _ Hl) in Hd.
  apply Sorted_inv in Hd as [Hd Hhd]. constructor; [done|].
  destruct Hhd; constructor. done.
Qed.

Section Agreement.
Variable m : Z.
Hypothesis Hm : (2 <= m)%Z.

Lemma Sim_ledgerInv T seen st M : Sim m T seen st M -> ledgerInv st.
Proof using Hm.
  intros HS s. destruct (HS s) as (-> & Hstep & _ & Hsorted & _). split.
  - clear -Hstep Hm. induction Hstep; cbn [map]; constructor; [by apply (stepLot_stable m Hm)|done].
  - by apply Sorted_map_rounded.
Qed.

Lemma Sim_empty T : Sim m T [] emptyStore [].
Proof.
  intros s. unfold heldLots, emptyStore, internalLots, netQty. cbn [positions Map_get].
  rewrite lookup_empty. cbn [snapshotData field getField normalizeFifoLots map].
  rewrite !sumBy_nil. repeat split; constructor.
Qed.

Lemma stepFill_stepLot o : stepFill m o -> stepLot m (lotOf o).
Proof using Hm.
  intros [[Hq _] (j & Hj & E)]. exists j. split; [|done].
  rewrite E in Hq. apply grid_above_stats in Hq. nia.
Qed.

Lemma netQty_snoc s seen o : netQty s (seen ++ [o]) = netQty s seen + signedQty s o.
Proof. unfold netQty. rewrite sumBy_app, sumBy_cons, sumBy_nil. qc. Qed.

Lemma sim_step T seen st M o st' :
  Sim m T seen st M -> T <= ord_ts o -> stepFill m o ->
  submitSpotOrder (ord_ts o) (ord_ts o) st (fillParams o) = (st', Ok tt) ->
  Sim m (ord_ts o) (seen ++ [o]) st' (aggregateOrder M o).
Proof using Hm.
  intros HS HT Hfill Hok s.
  destruct (ledger_step _ _ _ _ _ (Sim_ledgerInv _ _ _ _ HS) Hok) as (_ & Hother & Hsym).
  cbn [fillParams sp_symbol sp_side sp_qty sp_fillPrice sp_lotTimestamp default from_option id]
    in Hother, Hsym.
  rewrite internalLots_aggregateOrder, netQty_snoc. unfold signedQty.
  destruct (HS s) as (Hheld & Hstep & Hts & Hsorted & Hnet).
  destruct (decide (s = ord_symbol o)) as [->|Hs].
  2:{ rewrite decide_False by done. rewrite Hother by done.
      split; [done|]. split; [done|]. split; [|split; [done|]].
      2:{ rewrite Hnet. clear. qc. }
      eapply Forall_impl; [exact Hts|]. intros lot Hl. exact (Qcle_trans _ _ _ Hl HT). }
  rewrite decide_True by done. rewrite Hheld in Hsym.
  set (L := internalLots M (ord_symbol o)) in *.
  pose proof (stepFill_stepLot o Hfill) as Hnew.
  destruct (ord_side o).
  - assert (Hs' : Sorted tsLe (L ++ [lotOf o])).
    { apply Sorted_snoc; [done|]. eapply Forall_impl; [exact Hts|].
      intros lot Hl. exact (Qcle_trans _ _ _ Hl HT). }
    split; [|split; [|split; [|split]]].
    + rewrite Hsym, map_app. cbn [map].
      replace (rounded (lotOf o))
        with (rounded {| qty := round6 (ord_qty o); price := ord_fillPrice o; ts := ord_ts o |}).
      2:{ unfold rounded, lotOf. cbn [qty price ts]. by rewrite round6_idempotent. }
      apply finishLots_snoc.
      * clear -Hstep Hm. induction Hstep; cbn [map]; constructor;
          [by apply (stepLot_stable m Hm)|done].
      * replace (rounded {| qty := round6 (ord_qty o); price := ord_fillPrice o; ts := ord_ts o |})
          with (rounded (lotOf o)).
        2:{ unfold rounded, lotOf. cbn [qty price ts]. by rewrite round6_idempotent. }
        change [rounded (lotOf o)] with (map rounded [lotOf o]). rewrite <- map_app.
        by apply Sorted_map_rounded.
      * cbn [qty]. pose proof (stepLot_stable m Hm _ Hnew) as (_ & _ & Hpos).
        exact Hpos.
    + apply Forall_app. by split; [|repeat constructor].
    + apply Forall_app. split; [|repeat constructor; apply Qcle_refl].
      eapply Forall_impl; [exact Hts|]. intros lot Hl. exact (Qcle_trans _ _ _ Hl HT).
    + done.
    + rewrite sumBy_app, sumBy_cons, sumBy_nil, Hnet. cbn [lotOf qty]. qc.
  - destruct Hsym as [Hrem Hsym].
    destruct Hfill as [_ Hq].
    destruct (sell_agrees m Hm L Hstep (ord_qty o) Hq) as (HX & (j & Hj & Hrem') & Hsum & Hstep').
    assert (Hcut : cutShown L (List.filter heavy (consumeOldest L (ord_qty o)))).
    { apply consumeOldest_cut. eapply Forall_impl; [exact Hstep|]. apply (stepLot_heavy m Hm). }
    set (L' := List.filter heavy (consumeOldest L (ord_qty o))) in *.
    assert (Hs' : Sorted tsLe L') by (by eapply cutShown_Sorted).
    split; [|split; [done|split; [|split; [done|]]]].
    + rewrite Hsym, HX. apply finishLots_fixed; [|by apply Sorted_map_rounded].
      clear -Hstep' Hm. induction Hstep'; cbn [map]; constructor;
        [by apply (stepLot_stable m Hm)|done].
    + eapply (cutShown_Forall (fun lot => ts lot <= ord_ts o)); [done| |exact Hcut].
      eapply Forall_impl; [exact Hts|]. intros lot Hl. exact (Qcle_trans _ _ _ Hl HT).
    + assert (j = 0)%Z as ->.
      { rewrite Hrem' in Hrem. destruct (step_below m Hm j) as [E _].
        assert (nle (grid (m * j)) FIFO_EPSILON = true) as E'
          by (unfold FIFO_EPSILON in *; qc).
        rewrite E' in E. symmetry in E. apply bool_decide_eq_true in E. lia. }
      rewrite Hrem' in Hsum. replace (m * 0)%Z with 0%Z in Hsum by lia. rewrite grid_0 in Hsum.
      rewrite <- Hnet. clear -Hsum. qc.
Qed.

Lemma sim_fold fills : forall T seen st M st',
  Sim m T seen st M ->
  Forall (stepFill m) fills -> Forall (fun o => T <= ord_ts o) fills ->
  StronglySorted ordTsLe fills ->
  submitFills st fills = (st', Ok tt) ->
  exists T', Sim m T' (seen ++ fills) st' (fold_left aggregateOrder fills M).
Proof using Hm.
  induction fills as [|o fills IH]; intros T seen st M st' HS Hfills HT Hsorted Hok.
  - cbn [submitFills] in Hok. apply pair_equal_spec in Hok as [-> _].
    rewrite app_nil_r. by exists T.
  - cbn [submitFills fold_left] in *.
    apply Forall_cons in Hfills as [Hfill Hfills]. apply Forall_cons in HT as [HTo HT].
    apply StronglySorted_inv in Hsorted as [Hsorted Hafter].
    destruct (submitSpotOrder (ord_ts o) (ord_ts o) st (fillParams o)) as [st1 [[]|msg]] eqn:Hstep.
    2:{ by apply pair_equal_spec in Hok as [_ ?]. }
    pose proof (sim_step _ _ _ _ _ _ HS HTo Hfill Hstep) as HS1.
    destruct (IH _ _ _ _ _ HS1 Hfills Hafter Hsorted Hok) as [T' HS'].
    exists T'. by rewrite (cons_middle o), app_assoc.
Qed.

Lemma shownLots_step L : Forall (stepLot m) L -> shownLots L = map rounded L.
Proof using Hm.
  intros HL. rewrite shownLots_heavy
    by (eapply Forall_impl; [exact HL | apply (stepLot_heavy m Hm)]).
  destruct HL as [|lot L (j & Hj & Hq) HL]; [by case_match|].
  replace (nlt STATS_EPSILON _) with true; [done|]. symmetry. apply above_stats.
  apply Qclt_le_trans with (round6 (grid (m * j))).
  - rewrite (round6_grid (m * j)). apply grid_above_stats. nia.
  - apply round6_mono. rewrite sumBy_cons, Hq.
    assert (0 <= sumBy qty L); [|qc].
    clear -HL Hm. induction HL as [|l L Hl _ IH]; [rewrite sumBy_nil; qc|].
    rewrite sumBy_cons. apply (stepLot_heavy m Hm) in Hl. unfold STATS_EPSILON in *. qc.
Qed.

End Agreement.

Lemma ordTsLe_trans : Transitive ordTsLe.
Proof. intros a b c Hab Hbc. exact (Qcle_trans _ _ _ Hab Hbc). Qed.

(** The two paths after the same accepted history of step fills. *)
Lemma replay_simulation (m : Z) (fills : list (NormalizedOrder Qc)) :
  (2 <= m)%Z -> Forall (stepFill m) fills -> Sorted ordTsLe fills ->
  snd (submitFills emptyStore fills) = Ok tt ->
  exists T, Sim m T fills (fst (submitFills emptyStore fills))
              (fold_left aggregateOrder fills []).
Proof.
  intros Hm Hfills Hsorted Hok.
  apply Sorted_StronglySorted in Hsorted; [|apply ordTsLe_trans].
  destruct (submitFills emptyStore fills) as [st r] eqn:Hrun. cbn [fst snd] in *. subst r.
  destruct fills as [|o fills].
  - cbn [submitFills] in Hrun. apply pair_equal_spec in Hrun as [<- _].
    exists 0. apply Sim_empty.
  - assert (HT : Forall (fun o' => ord_ts o <= ord_ts o') (o :: fills)).
    { apply StronglySorted_inv in Hsorted as [_ Hall].
      constructor; [apply Qcle_refl | exact Hall]. }
    exact (sim_fold m Hm (o :: fills) (ord_ts o) [] emptyStore [] st
             (Sim_empty m _) Hfills HT Hsorted Hrun).
Qed.




(** On step quantities both paths hold exactly the net quantity. *)
Lemma conserved_on_steps (m : Z) (fills : list (NormalizedOrder Qc)) :
  (2 <= m)%Z -> Forall (stepFill m) fills -> Sorted ordTsLe fills ->
  snd (submitFills emptyStore fills) = Ok tt ->
  forall s,
    sumBy qty (heldLots (fst (submitFills emptyStore fills)) s) = netQty s fills /\
    sumBy qty (openLots s (aggregateOpenPositions fills)) = netQty s fills.
Proof.
  intros Hm Hfills Hsorted Hok s.
  destruct (replay_simulation m fills Hm Hfills Hsorted Hok) as [T HS].
  destruct (HS s) as (-> & Hstep & _ & _ & Hnet).
  rewrite openLots_aggregate, (shownLots_step m Hm) by done.
  by rewrite (sumBy_map_rounded m).
Qed.

End Replay.

(** ** Conservation of quantity *)

Section Conservation.
Import Exact ExactFacts.
Local Open Scope Qc_scope.

Lemma submitSpotOrder_positive now serverNow (st st' : Store Qc) (params : SpotOrderParams Qc) :
  submitSpotOrder now serverNow st params = (st', Ok tt) -> 0 < sp_qty params.
Proof.
  unfold submitSpotOrder. cbn [Number_isFinite exact negb orb].
  destruct (nle (sp_qty params) (nlit 0)) eqn:Hq.
  - intros E. apply pair_equal_spec in E as [_ E]. discriminate.
  - intros _. qc.
Qed.

Lemma sumBy_insertBy (x : FifoLotDoc Qc) l :
  sumBy qty (insertBy byTs x l) = qty x + sumBy qty l.
Proof.
  induction l as [|y l IH]; cbn [insertBy]; [by rewrite sumBy_cons|].
  case_match; [|by rewrite sumBy_cons]. rewrite !sumBy_cons, IH. qc.
Qed.

Lemma gridded_small (x : Qc) :
  round6 x = x -> 0 <= x -> nlt FIFO_EPSILON x = false -> x = 0.
Proof.
  intros Hg H0 Hs. apply round6_fixed in Hg as [n ->].
  assert (~ (1 <= n)%Z).
  { intros Hn. apply grid_above_fifo in Hn. apply above_fifo' in Hn. congruence. }
  assert (0 <= n)%Z by (apply grid_le; by rewrite grid_0).
  replace n with 0%Z by lia. apply grid_0.
Qed.

Lemma finishLots_sum X :
  Forall (fun lot => round6 (qty lot) = qty lot /\ 0 <= qty lot) X ->
  sumBy qty (finishLots X) = sumBy qty X.
Proof.
  induction 1 as [|lot X [Hg H0] _ IH]; [done|].
  rewrite finishLots_cons, sumBy_cons. destruct (nlt FIFO_EPSILON (qty lot)) eqn:Hpos.
  - rewrite sumBy_insertBy, IH. cbn [rounded qty]. by rewrite Hg.
  - rewrite IH, (gridded_small (qty lot)) by done. qc.
Qed.

Lemma stable_nonneg lot : stable lot -> round6 (qty lot) = qty lot /\ 0 <= qty lot.
Proof. intros (Hg & _ & Hpos). split; [done|]. unfold FIFO_EPSILON in *. qc. Qed.

(** What the sell loop leaves, up to the rounding of the one lot it splits. *)
Lemma consumeLots_sum W : Forall stable W -> forall r, 0 <= r ->
  exists e,
    sumBy qty (snd (consumeLots W r [])) + r
      = sumBy qty W + fst (consumeLots W r []) + e /\
    ((e = 0 /\ 0 <= fst (consumeLots W r [])) \/
     (fst (consumeLots W r []) = 0 /\ - halfStep <= e /\ e <= halfStep)).
Proof.
  induction 1 as [|lot W Hlot HW IH]; intros r Hr.
  - exists 0. cbn [consumeLots fst snd]. rewrite sumBy_nil. split; [qc | by left].
  - destruct (nle r FIFO_EPSILON) eqn:Hc.
    { rewrite consumeLots_settled by (unfold FIFO_EPSILON in *; qc). cbn [fst snd].
      exists 0. split; [qc | by left]. }
    cbn [consumeLots]. rewrite Hc, sumBy_cons.
    destruct Hlot as (Hq & Hp & Hpos).
    cbn [Math_min exact]. destruct (Qle_bool (qty lot) r) eqn:Hm.
    + replace (nlt FIFO_EPSILON (nsub (qty lot) (qty lot))) with false
        by (symmetry; unfold FIFO_EPSILON; qc).
      destruct (IH (nsub r (qty lot))) as (e & Hsum & He); [qc|].
      exists e. split; [|done]. revert Hsum.
      generalize (consumeLots W (nsub r (qty lot)) []). intros [rem X]. cbn [fst snd].
      intros Hsum. clear -Hsum. qc.
    + replace (nsub r r) with (0 : Qc) by qc.
      assert (H0 : (0 : Qc) <= FIFO_EPSILON) by (unfold FIFO_EPSILON; qc).
      destruct (nlt FIFO_EPSILON (nsub (qty lot) r)) eqn:Hl.
      * rewrite consumeLots_app, consumeLots_settled by done. cbn [fst snd app].
        rewrite sumBy_cons. cbn [qty].
        exists (round6 (nsub (qty lot) r) - nsub (qty lot) r). split; [qc|]. right.
        split; [done|]. destruct (round6_error (nsub (qty lot) r)) as [E1 E2].
        unfold halfStep. split; qc.
      * rewrite consumeLots_settled by done. cbn [fst snd].
        exists (- nsub (qty lot) r). split; [qc|]. right. split; [done|].
        unfold halfStep, FIFO_EPSILON in *. split; qc.
Qed.

Lemma consumeLots_gridded W : Forall stable W -> forall r upd,
  Forall (fun lot => round6 (qty lot) = qty lot /\ 0 <= qty lot) upd ->
  Forall (fun lot => round6 (qty lot) = qty lot /\ 0 <= qty lot) (snd (consumeLots W r upd)).
Proof.
  induction 1 as [|lot W Hlot _ IH]; intros r upd Hupd; [done|].
  cbn [consumeLots]. repeat case_match; apply IH; try done.
  - apply Forall_app; split; [done|]. repeat constructor; by apply stable_nonneg.
  - apply Forall_app; split; [done|]. repeat constructor; cbn [qty].
    + apply round6_idempotent.
    + apply round6_nonneg. match goal with H : nlt FIFO_EPSILON _ = true |- _ =>
        apply above_fifo' in H; unfold FIFO_EPSILON in H end. qc.
Qed.

Lemma slack_snoc s seen o :
  slack s (seen ++ [o]) = slack s seen + (if decide (ord_symbol o = s) then halfStep else 0).
Proof. unfold slack. rewrite sumBy_app, sumBy_cons, sumBy_nil. qc. Qed.

Lemma drift_step seen st o st' :
  Drift seen st ->
  submitSpotOrder (ord_ts o) (ord_ts o) st (fillParams o) = (st', Ok tt) ->
  Drift (seen ++ [o]) st'.
Proof.
  intros [Hinv Hdrift] Hok.
  pose proof (submitSpotOrder_positive _ _ _ _ _ Hok) as Hq.
  destruct (ledger_step _ _ _ _ _ Hinv Hok) as (Hinv' & Hother & Hsym).
  cbn [fillParams sp_symbol sp_side sp_qty sp_fillPrice sp_lotTimestamp default from_option id]
    in Hother, Hsym, Hq.
  split; [done|]. intros s. rewrite netQty_snoc, slack_snoc. unfold signedQty.
  destruct (Hdrift s) as [Hlo Hhi].
  destruct (decide (ord_symbol o = s)) as [<-|Hs].
  2:{ rewrite Hother by done. clear -Hlo Hhi. split; qc. }
  destruct (Hinv (ord_symbol o)) as [Hstable _].
  set (W := heldLots st (ord_symbol o)) in *.
  destruct (ord_side o).
  - rewrite Hsym, finishLots_sum.
    2:{ apply Forall_app. split.
        - eapply Forall_impl; [exact Hstable | apply stable_nonneg].
        - repeat constructor; cbn [qty]; [apply round6_idempotent|].
          apply round6_nonneg. by apply Qclt_le_weak. }
    rewrite sumBy_app, sumBy_cons, sumBy_nil. cbn [qty].
    destruct (round6_error (ord_qty o)) as [E1 E2]. unfold halfStep.
    clear -Hlo Hhi E1 E2. split; qc.
  - destruct Hsym as [Hrem Hsym]. rewrite Hsym, finishLots_sum.
    2:{ apply consumeLots_gridded; [done|constructor]. }
    destruct (consumeLots_sum W Hstable (ord_qty o)) as (e & Hsum & He);
      [by apply Qclt_le_weak|].
    revert Hsum He Hrem. generalize (consumeLots W (ord_qty o) []). intros [rem X].
    cbn [fst snd]. intros Hsum He Hrem.
    assert (- halfStep <= rem + e /\ rem + e <= halfStep) as [B1 B2].
    { unfold halfStep, FIFO_EPSILON in *. clear -He Hrem.
      destruct He as [[-> H0]|(-> & E1 & E2)]; split; qc. }
    clear -Hlo Hhi Hsum B1 B2. split; qc.
Qed.

Lemma drift_fold fills : forall seen st st',
  Drift seen st -> submitFills st fills = (st', Ok tt) -> Drift (seen ++ fills) st'.
Proof.
  induction fills as [|o fills IH]; intros seen st st' HD Hok.
  - cbn [submitFills] in Hok. apply pair_equal_spec in Hok as [-> _]. by rewrite app_nil_r.
  - cbn [submitFills] in Hok.
    destruct (submitSpotOrder (ord_ts o) (ord_ts o) st (fillParams o)) as [st1 [[]|msg]] eqn:Hstep.
    2:{ by apply pair_equal_spec in Hok as [_ ?]. }
    rewrite (cons_middle o), app_assoc. eapply IH; [|exact Hok].
    by eapply drift_step.
Qed.

Lemma Drift_empty : Drift [] emptyStore.
Proof.
  split; [apply ledgerInv_empty|]. intros s.
  unfold heldLots, emptyStore, netQty, slack. cbn [positions].
  rewrite lookup_empty. cbn [snapshotData field getField normalizeFifoLots].
  rewrite !sumBy_nil. split; qc.
Qed.

(** Whatever the quantities, the lots the ledger stores for a symbol
    stay within half a millionth per fill of the symbol's net quantity. *)
Lemma ledger_drift (fills : list (NormalizedOrder Qc)) :
  snd (submitFills emptyStore fills) = Ok tt ->
  forall s,
    netQty s fills - slack s fills <= sumBy qty (heldLots (fst (submitFills emptyStore fills)) s) /\
    sumBy qty (heldLots (fst (submitFills emptyStore fills)) s) <= netQty s fills + slack s fills.
Proof.
  intros Hok. destruct (submitFills emptyStore fills) as [st r] eqn:Hrun.
  cbn [fst snd] in *. subst r.
  apply (drift_fold fills [] emptyStore st Drift_empty Hrun).
Qed.




End Conservation.

(** * Further properties of the code *)

(** ** The indicators *)

Section IndicatorFacts.
Import Exact ExactFacts.
Local Open Scope Qc_scope.

Lemma Qc_div_mult (a b : Qc) : b <> 0 -> a / b * b = a.
Proof. intros Hb. field. exact Hb. Qed.

(** A quotient of a non-negative number by a larger positive one lies in [0, 1]. *)
Lemma Qc_div_unit (a b : Qc) : 0 <= a -> a <= b -> 0 < b -> 0 <= a / b /\ a / b <= 1.
Proof.
  intros Ha Hab Hb.
  assert (Hne : b <> 0) by (intros ->; qc).
  pose proof (Qc_div_mult a b Hne) as E.
  generalize dependent (a / b). intros c E. subst a.
  split.
  - destruct (Qclt_le_dec c 0) as [Hc|Hc]; [|done]. exfalso. qc. nra.
  - destruct (Qclt_le_dec 1 c) as [Hc|Hc]; [|done]. exfalso. qc. nra.
Qed.

Lemma count_Q (n : nat) : (this (count (num:=Qc) n) == (Z.of_nat n # 1))%Q.
Proof. unfold count. cbn [nlit exact Q2Qc this]. apply Qred_correct. Qed.

Lemma count_le (n m : nat) : count n <= count m <-> (n <= m)%nat.
Proof.
  pose proof (count_Q n). pose proof (count_Q m). unfold Qcle.
  rewrite Nat2Z.inj_le, Z_Q_le. split; intros; lra.
Qed.

Lemma count_S (n : nat) : count (S n) = count n + 1.
Proof.
  pose proof (count_Q n). pose proof (count_Q (S n)).
  pose proof (Z_Q_plus (Z.of_nat n) 1). rewrite Nat2Z.inj_succ in *. unfold Z.succ in *. qc.
Qed.

Lemma count_0 : count (num:=Qc) 0 = 0.
Proof. by apply Qc_is_canon. Qed.

Lemma smooth_within (alpha v r lo hi : Qc) :
  0 <= alpha -> alpha <= 1 -> lo <= v -> v <= hi -> lo <= r -> r <= hi ->
  lo <= alpha * v + (1 - alpha) * r /\ alpha * v + (1 - alpha) * r <= hi.
Proof. intros. split; qc; nra. Qed.



Lemma strictEq_eq (a b : Qc) : strictEq a b = true <-> a = b.
Proof.
  unfold strictEq. rewrite andb_true_iff. cbn [nle exact]. rewrite !Qle_bool_iff.
  split; [intros [? ?]; qc | intros ->; split; apply Qle_refl].
Qed.

Lemma strictEq_neq (a b : Qc) : strictEq a b = false <-> a <> b.
Proof. rewrite <- strictEq_eq. by destruct (strictEq a b). Qed.

Lemma at_back_last {A} (l : list A) (x : A) : at_back (l ++ [x]) 1 = Some x.
Proof.
  unfold at_back. rewrite length_app. cbn [length].
  rewrite decide_True by lia.
  replace (length l + 1 - 1)%nat with (length l) by lia. apply list_lookup_middle. done.
Qed.

Lemma at_back_app {A} (l l' : list A) (x : A) :
  at_back (l ++ x :: l') (S (length l')) = Some x.
Proof.
  unfold at_back. rewrite length_app. cbn [length].
  rewrite decide_True by lia.
  replace (length l + S (length l') - S (length l'))%nat with (length l) by lia.
  by apply list_lookup_middle.
Qed.

Lemma at_back_Some {A} (l : list A) (k : nat) :
  (1 <= k <= length l)%nat -> is_Some (at_back l k).
Proof.
  intros Hk. unfold at_back. rewrite decide_True by lia. apply lookup_lt_is_Some. lia.
Qed.

(** X17. [computeMomentum] returns null exactly when there are at
    most [period] values or the reference value, [period + 1] places from
    the end, is 0. *)
Theorem momentum_null (values : list Qc) (period : nat) :
  computeMomentum values period = None <->
  (length values <= period)%nat \/ at_back values (S period) = Some 0.
Proof.
  unfold computeMomentum. case_bool_decide as Hlen; [by split; [left|]|].
  destruct (at_back_Some values 1) as [latest ->]; [lia|].
  destruct (at_back_Some values (S period)) as [ref ->]; [lia|].
  change (nlit 0) with (0 : Qc).
  destruct (strictEq ref 0) eqn:E.
  - apply strictEq_eq in E as ->. split; [by right | done].
  - apply strictEq_neq in E. split; [done|]. intros [?|[= ->]]; [lia | done].
Qed.

(** X18. [computeMomentum] reads the last value and the one [period]
    places before it: for a positive reference it returns
    [latest / ref - 1], which is positive, negative or zero as the last
    value is above, below or at the reference. *)
Theorem momentum_compares_two_closes (pre mid : list Qc) (ref latest : Qc) :
  0 < ref ->
  exists m,
    computeMomentum (pre ++ ref :: mid ++ [latest]) (S (length mid)) = Some m /\
    m = latest / ref - 1 /\
    (0 < m <-> ref < latest) /\ (m < 0 <-> latest < ref) /\ (m = 0 <-> latest = ref).
Proof.
  intros Href. unfold computeMomentum.
  rewrite bool_decide_false by (rewrite !length_app; cbn [length]; rewrite length_app; cbn [length]; lia).
  replace (pre ++ ref :: mid ++ [latest]) with ((pre ++ ref :: mid) ++ [latest])
    by (by rewrite <- app_assoc).
  rewrite at_back_last.
  replace ((pre ++ ref :: mid) ++ [latest]) with (pre ++ ref :: (mid ++ [latest]))
    by (by rewrite <- app_assoc).
  replace (S (S (length mid))) with (S (length (mid ++ [latest])))
    by (rewrite length_app; cbn [length]; lia).
  rewrite at_back_app.
  change (nlit 0) with (0 : Qc). change (nlit 1) with (1 : Qc).
  replace (strictEq ref 0) with false by (symmetry; apply strictEq_neq; intros ->; qc).
  eexists. split; [reflexivity|]. split; [reflexivity|].
  cbn [nsub ndiv exact].
  assert (Hne : ref <> 0) by (intros ->; qc).
  pose proof (Qc_div_mult latest ref Hne) as E.
  generalize dependent (latest / ref). intros c E. subst latest.
  split; [|split]; split; intros; qc; nra.
Qed.

Lemma momentum_compares_two_closes_witness :
  exists m,
    computeMomentum ([] ++ nlit 10 :: [nlit 11] ++ [nlit 12]) (S (length [nlit 11 : Qc])) = Some m /\
    m = nlit 12 / nlit 10 - 1 /\
    (0 < m <-> nlit 10 < nlit 12) /\ (m < 0 <-> nlit 12 < nlit 10) /\ (m = 0 <-> nlit 12 = nlit 10).
Proof.
  assert (Href : 0 < nlit 10) by (vm_compute; reflexivity).
  exact (momentum_compares_two_closes [] [nlit 11] (nlit 10) (nlit 12) Href).
Defined.

(** *** RSI *)

Lemma max0_nonneg (x : Qc) : 0 <= Math_max x (nlit 0).
Proof. cbn [Math_max exact]. case_match; qc. Qed.

Lemma rsiLoop_nonneg (alpha : Qc) rest :
  0 <= alpha -> alpha <= 1 ->
  forall prev i U D, 0 <= U -> 0 <= D ->
    0 <= fst (rsiLoop alpha prev rest i U D) /\ 0 <= snd (rsiLoop alpha prev rest i U D).
Proof.
  intros Ha0 Ha1. induction rest as [|v rest IH]; intros prev i U D HU HD; cbn [rsiLoop]; [done|].
  pose proof (max0_nonneg (nsub v prev)) as Hg.
  pose proof (max0_nonneg (nneg (nsub v prev))) as Hl.
  destruct (Nat.eqb i 1); apply IH; try done.
  - generalize dependent (Math_max (nsub v prev) (nlit 0)). intros g Hg.
    change (nlit 1) with (1 : Qc). cbn [nadd nsub nmul exact]. qc. nra.
  - generalize dependent (Math_max (nneg (nsub v prev)) (nlit 0)). intros l Hl.
    change (nlit 1) with (1 : Qc). cbn [nadd nsub nmul exact]. qc. nra.
Qed.

Lemma rsi_alpha (period : nat) :
  (1 <= period)%nat -> 0 <= 1 / count period /\ 1 / count period <= 1.
Proof.
  intros Hp. apply count_le in Hp. rewrite count_S, count_0 in Hp.
  apply Qc_div_unit; qc.
Qed.

Lemma computeRsi_bounds (values : list Qc) (period : nat) :
  (1 <= period)%nat -> (period + 1 <= length values)%nat ->
  exists r, computeRsi values period = Some r /\ 0 <= r /\ r <= nlit 100.
Proof.
  intros Hp Hlen. unfold computeRsi. rewrite bool_decide_false by lia.
  destruct (rsi_alpha period Hp) as [Ha0 Ha1].
  destruct values as [|first rest]; [cbn [length] in Hlen; lia|].
  change (nlit 1) with (1 : Qc). change (nlit 0) with (0 : Qc).
  cbn [ndiv exact].
  destruct (rsiLoop_nonneg (1 / count period) rest Ha0 Ha1 first 1 0 0) as [HU HD]; [done|done|].
  destruct (rsiLoop _ _ _ _ _ _) as [U D]. cbn [fst snd] in *.
  destruct (strictEq D 0) eqn:E; [eexists; split; [reflexivity|]; split; qc|].
  apply strictEq_neq in E. eexists. split; [reflexivity|].
  cbn [nsub nadd ndiv exact].
  pose proof (Qc_div_mult U D E) as Ers.
  generalize dependent (U / D). intros rs Ers.
  assert (Hrs : 0 <= rs).
  { destruct (Qclt_le_dec rs 0) as [Hc|Hc]; [|done]. exfalso. subst U. qc. nra. }
  assert (Hne : 1 + rs <> 0) by (intros Hz; qc).
  pose proof (Qc_div_mult (nlit 100) (1 + rs) Hne) as Ec.
  generalize dependent (nlit 100 / (1 + rs)). intros c Ec.
  split.
  - destruct (Qclt_le_dec (nlit 100 - c) 0) as [Hc|Hc]; [|done]. exfalso. qc. nra.
  - destruct (Qclt_le_dec (nlit 100) (nlit 100 - c)) as [Hc|Hc]; [|done]. exfalso. qc. nra.
Qed.

(** X19. For a period of at least 1 and more than [period] values,
    [computeRsi] returns a number between 0 and 100. *)
Theorem rsi_within_bounds (values : list Qc) (period : nat) :
  (1 <= period)%nat -> (period + 1 <= length values)%nat ->
  exists r, computeRsi values period = Some r /\ 0 <= r /\ r <= nlit 100.
Proof. apply computeRsi_bounds. Qed.

Lemma max0_nonpos (x : Qc) : x <= 0 -> Math_max x (nlit 0) = 0.
Proof. intros Hx. cbn [Math_max exact]. case_match; qc. Qed.

Lemma max0_id (x : Qc) : 0 <= x -> Math_max x (nlit 0) = x.
Proof. intros Hx. cbn [Math_max exact]. case_match; qc. Qed.

Lemma rsiLoop_never_down (alpha : Qc) rest :
  forall prev i U, Sorted Qcle (prev :: rest) -> snd (rsiLoop alpha prev rest i U 0) = 0.
Proof.
  induction rest as [|v rest IH]; intros prev i U Hs; cbn [rsiLoop]; [done|].
  apply Sorted_inv in Hs as [Hs Hhd]. apply HdRel_inv in Hhd.
  rewrite (max0_nonpos (nneg (nsub v prev))) by (clear -Hhd; qc).
  destruct (Nat.eqb i 1); [by apply IH|].
  replace (nadd (nmul alpha 0) (nmul (nsub (nlit 1) alpha) 0)) with (0 : Qc) by qc.
  by apply IH.
Qed.

Lemma rsi_within_bounds_witness :
  exists r, computeRsi [nlit 1; nlit 3; nlit 2] 2 = Some r /\ 0 <= r /\ r <= nlit 100.
Proof.
  assert (Hp : (1 <= 2)%nat) by lia.
  assert (Hlen : (2 + 1 <= length [nlit 1; nlit 3; nlit 2 : Qc])%nat) by (simpl; lia).
  exact (rsi_within_bounds [nlit 1; nlit 3; nlit 2] 2 Hp Hlen).
Defined.

(** X20. On a series that never falls, a flat one included,
    [computeRsi] returns 100. *)
Theorem rsi_of_rising_series (values : list Qc) (period : nat) :
  (1 <= period)%nat -> (period + 1 <= length values)%nat ->
  Sorted Qcle values -> computeRsi values period = Some (nlit 100).
Proof.
  intros Hp Hlen Hs. unfold computeRsi. rewrite bool_decide_false by lia.
  destruct values as [|first rest]; [cbn [length] in Hlen; lia|].
  pose proof (rsiLoop_never_down (nlit 1 / count period) rest first 1 (nlit 0) Hs) as HD.
  change (nlit 0) with (0 : Qc) in *.
  destruct (rsiLoop _ _ _ _ _ _) as [U D]. cbn [snd] in HD. subst D.
  by replace (strictEq 0 0) with true by (symmetry; by apply strictEq_eq).
Qed.

Lemma rsi_of_rising_series_witness :
  computeRsi [nlit 1; nlit 2; nlit 2] 2 = Some (nlit 100).
Proof.
  assert (Hp : (1 <= 2)%nat) by lia.
  assert (Hlen : (2 + 1 <= length [nlit 1; nlit 2; nlit 2 : Qc])%nat) by (simpl; lia).
  assert (Hs : Sorted Qcle [nlit 1; nlit 2; nlit 2]).
  { repeat constructor; vm_compute; discriminate. }
  exact (rsi_of_rising_series [nlit 1; nlit 2; nlit 2] 2 Hp Hlen Hs).
Defined.

Lemma rsiLoop_never_up (alpha : Qc) rest :
  forall prev i D, Sorted Qcge (prev :: rest) -> fst (rsiLoop alpha prev rest i 0 D) = 0.
Proof.
  induction rest as [|v rest IH]; intros prev i D Hs; cbn [rsiLoop]; [done|].
  apply Sorted_inv in Hs as [Hs Hhd]. apply HdRel_inv in Hhd.
  rewrite (max0_nonpos (nsub v prev)) by (clear -Hhd; qc).
  destruct (Nat.eqb i 1); [by apply IH|].
  replace (nadd (nmul alpha 0) (nmul (nsub (nlit 1) alpha) 0)) with (0 : Qc) by qc.
  by apply IH.
Qed.

Lemma rsiLoop_fell (alpha : Qc) rest :
  0 < alpha -> alpha < 1 ->
  forall prev i D low,
    (2 <= i)%nat -> 0 <= D -> Sorted Qcge (prev :: rest) ->
    last (prev :: rest) = Some low -> 0 < D \/ low < prev ->
    0 < snd (rsiLoop alpha prev rest i 0 D).
Proof.
  intros Ha0 Ha1. induction rest as [|v rest IH]; intros prev i D low Hi HD Hs Hlast Hpos.
  - cbn [rsiLoop snd]. cbn [last] in Hlast. injection Hlast as <-.
    destruct Hpos as [?|Hlt]; [done|]. exfalso. qc.
  - cbn [rsiLoop]. apply Sorted_inv in Hs as [Hs Hhd]. apply HdRel_inv in Hhd.
    rewrite (max0_nonpos (nsub v prev)) by (clear -Hhd; qc).
    rewrite (max0_id (nneg (nsub v prev))) by (clear -Hhd; qc).
    replace (nneg (nsub v prev)) with (prev - v) by (clear; qc).
    destruct (Nat.eqb_spec i 1) as [->|_]; [lia|].
    replace (nadd (nmul alpha 0) (nmul (nsub (nlit 1) alpha) 0)) with (0 : Qc) by qc.
    change (last (prev :: v :: rest)) with (last (v :: rest)) in Hlast.
    apply (IH v (S i) _ low); [lia| | done | done |].
    + change (nlit 1) with (1 : Qc). cbn [nadd nsub nmul exact]. qc. nra.
    + destruct (Qclt_le_dec v prev) as [Hlt|Hge].
      * left. change (nlit 1) with (1 : Qc). cbn [nadd nsub nmul exact]. qc. nra.
      * assert (v = prev) as -> by qc.
        destruct Hpos as [HDpos|?]; [|by right].
        left. change (nlit 1) with (1 : Qc). cbn [nadd nsub nmul exact]. qc. nra.
Qed.



(** *** ATR *)

Lemma absDiffs_length (prev : Qc) rest : length (absDiffs prev rest) = length rest.
Proof. revert prev. induction rest as [|v rest IH]; intros prev; cbn [absDiffs length]; [done|]. by rewrite IH. Qed.

Lemma absDiffs_drop k : forall (prev : Qc) rest,
  (k <= length rest)%nat ->
  exists p, drop k (prev :: rest) = p :: drop k rest /\
            drop k (absDiffs prev rest) = absDiffs p (drop k rest).
Proof.
  induction k as [|k IH]; intros prev rest Hk; [by exists prev|].
  destruct rest as [|v rest]; [cbn [length] in Hk; lia|].
  cbn [drop absDiffs]. apply IH. cbn [length] in Hk. lia.
Qed.

Lemma Math_abs_bound (a b lo hi : Qc) :
  lo <= a -> a <= hi -> lo <= b -> b <= hi ->
  0 <= Math_abs (nsub a b) /\ Math_abs (nsub a b) <= hi - lo.
Proof.
  intros. unfold Math_abs. cbn [Math_max nneg exact]. case_match; split; qc.
Qed.

Lemma absDiffs_sum (lo hi : Qc) rest : forall prev,
  Forall (fun v => lo <= v /\ v <= hi) (prev :: rest) ->
  0 <= sumBy (fun value => value) (absDiffs prev rest) /\
  sumBy (fun value => value) (absDiffs prev rest) <= count (length rest) * (hi - lo).
Proof.
  induction rest as [|v rest IH]; intros prev Hall; cbn [absDiffs length].
  - rewrite sumBy_nil, count_0. split; qc.
  - apply Forall_cons in Hall as [[Hp1 Hp2] Hall]. pose proof Hall as Hall'.
    apply Forall_cons in Hall' as [[Hv1 Hv2] _].
    destruct (IH v Hall) as [IH1 IH2].
    destruct (Math_abs_bound v prev lo hi) as [Hd1 Hd2]; try done.
    rewrite sumBy_cons, count_S.
    generalize dependent (Math_abs (nsub v prev)). intros d Hd1 Hd2.
    generalize dependent (count (num:=Qc) (length rest)). intros c IH2.
    split; qc; nra.
Qed.

(** X22. [computeAtr] returns null exactly when there are fewer than
    [period + 1] values: its second test, on the number of differences,
    never fires. *)
Theorem atr_null (values : list Qc) (period : nat) :
  computeAtr values period = None <-> (length values < period + 1)%nat.
Proof.
  unfold computeAtr. case_bool_decide as Hlen; [done|].
  destruct values as [|first rest]; [cbn [length] in Hlen; lia|].
  rewrite bool_decide_false; [done|].
  rewrite absDiffs_length. cbn [length] in Hlen. lia.
Qed.



End IndicatorFacts.

(** ** The feature vector *)

Section TrendFeatureFacts.
Import Exact ExactFacts.
Local Open Scope Qc_scope.

Lemma count_lt (n m : nat) : count n < count m <-> (n < m)%nat.
Proof.
  pose proof (count_Q n). pose proof (count_Q m). unfold Qclt.
  rewrite Nat2Z.inj_lt, Z_Q_lt. split; intros; lra.
Qed.

Lemma ema_null (values : list Qc) (n : nat) :
  (length values < n)%nat -> ema values (count n) = VNull.
Proof.
  intros Hlen. unfold ema. apply count_lt in Hlen.
  by replace (nlt (count (length values)) (count n)) with true by (symmetry; qc).
Qed.

Lemma ema_number (values : list Qc) (n : nat) :
  (n <= length values)%nat -> (1 <= length values)%nat ->
  exists e, ema values (count n) = VNumber e.
Proof.
  intros Hlen Hne. unfold ema. apply count_le in Hlen.
  replace (nlt (count (length values)) (count n)) with false by (symmetry; qc).
  destruct values; [cbn [length] in Hne; lia|]. eauto.
Qed.

(** X24. With fewer than 100 closes [computeTrendFeatures] throws
    for want of candles, whatever the feature names. *)
Theorem trend_features_need_history (names : list string) (closes : list Qc) :
  (length closes < 100)%nat ->
  computeTrendFeatures names closes = Throw "Not enough candles to compute EMAs.".
Proof.
  intros Hlen. unfold computeTrendFeatures.
  change (nlit 100) with (count (num:=Qc) 100). rewrite (ema_null closes 100 Hlen).
  cbn [isNull]. by rewrite !orb_true_r.
Qed.

Lemma trend_features_need_history_witness :
  computeTrendFeatures ["rsi14"] [nlit 10; nlit 11 : Qc]
  = Throw "Not enough candles to compute EMAs.".
Proof.
  assert (Hlen : (length [nlit 10; nlit 11 : Qc] < 100)%nat) by (simpl; lia).
  exact (trend_features_need_history ["rsi14"] [nlit 10; nlit 11] Hlen).
Defined.

Lemma at_back_elem {A} (l : list A) k x : at_back l k = Some x -> x ∈ l.
Proof. unfold at_back. case_decide; [|done]. apply list_elem_of_lookup_2. Qed.

Lemma absDiffs_nonneg rest : forall prev : Qc,
  Forall (fun d => 0 <= d) (absDiffs prev rest).
Proof.
  induction rest as [|v rest IH]; intros prev; cbn [absDiffs]; constructor; [|apply IH].
  unfold Math_abs. cbn [Math_max nneg exact]. case_match; qc.
Qed.

Lemma sum_nonneg (l : list Qc) : Forall (fun d => 0 <= d) l -> 0 <= sumBy (fun value => value) l.
Proof.
  induction 1 as [|d l Hd _ IH]; [rewrite sumBy_nil; qc|]. rewrite sumBy_cons. qc.
Qed.

Lemma computeAtr_nonneg (values : list Qc) (period : nat) :
  (1 <= period)%nat -> (period + 1 <= length values)%nat ->
  exists a, computeAtr values period = Some a /\ 0 <= a.
Proof.
  intros Hp Hlen. unfold computeAtr. rewrite bool_decide_false by lia.
  destruct values as [|first rest]; [cbn [length] in Hlen; lia|]. cbn [length] in Hlen.
  rewrite bool_decide_false by (rewrite absDiffs_length; lia).
  eexists. split; [reflexivity|].
  assert (Hs : 0 <= sumBy (fun value => value) (slice_back (absDiffs first rest) period)).
  { apply sum_nonneg. unfold slice_back. destruct period; [apply absDiffs_nonneg|].
    apply Forall_drop, absDiffs_nonneg. }
  assert (Hc : 1 <= count period).
  { change (1 : Qc) with (count (num:=Qc) 1). by apply count_le. }
  cbn [ndiv exact].
  assert (Hne : count period <> 0) by (intros Hz; rewrite Hz in Hc; qc).
  generalize dependent (sumBy (fun value : Qc => value) (slice_back (absDiffs first rest) period)).
  intros sum Hs. pose proof (Qc_div_mult sum (count period) Hne) as E.
  generalize dependent (sum / count period). intros a E.
  generalize dependent (count (num:=Qc) period). intros c Hc Hne E. subst sum.
  destruct (Qclt_le_dec a 0) as [Hlt|?]; [|done]. exfalso. qc; nra.
Qed.

Lemma computeMomentum_positive (values : list Qc) (period : nat) :
  (period < length values)%nat -> Forall (fun v => 0 < v) values ->
  is_Some (computeMomentum values period).
Proof.
  intros Hlen Hpos. unfold computeMomentum. rewrite bool_decide_false by lia.
  destruct (at_back_Some values 1) as [latest ->]; [lia|].
  destruct (at_back_Some values (S period)) as [ref Href]; [lia|]. rewrite Href.
  apply at_back_elem in Href. rewrite Forall_forall in Hpos. specialize (Hpos ref Href).
  replace (strictEq ref (nlit 0)) with false; [eauto|].
  symmetry. apply strictEq_neq. intros ->. qc.
Qed.

Lemma featureVector_known (details : list (string * Qc)) names :
  map fst details = featureNames ->
  Forall (fun name => name ∈ featureNames) names ->
  exists vector,
    featureVector details names = Ok vector /\
    Forall2 (fun name f => exists x, f = FNumber x /\ (name, x) ∈ details) names vector.
Proof.
  intros Hkeys. induction 1 as [|name names Hname _ (vector & Hv & Hall)].
  - exists []. split; [done|constructor].
  - cbn [featureVector]. rewrite Hv. cbn [bind].
    destruct (find (fun kv => String.eqb (fst kv) name) details) as [[k x]|] eqn:Hf.
    + eexists. split; [reflexivity|]. constructor; [|done].
      exists x. split; [done|]. apply find_some in Hf as [Hin Hk]. cbn [fst snd] in *.
      apply String.eqb_eq in Hk as ->. by apply list_elem_of_In.
    + exfalso. rewrite <- Hkeys in Hname. apply list_elem_of_fmap in Hname as ([k x] & -> & Hin).
      apply list_elem_of_In in Hin.
      apply (find_none _ _ Hf) in Hin. cbn [fst] in Hin. by rewrite String.eqb_refl in Hin.
Qed.

(** X25. With at least 100 positive closes and feature names among
    the five it derives, [computeTrendFeatures] returns one number for each
    name, in the order of the names, taken from the five derived features;
    of these [rsi14] lies between 0 and 100 and [atr] is not negative. *)
Theorem trend_features_vector (names : list string) (closes : list Qc) :
  (100 <= length closes)%nat -> Forall (fun v => 0 < v) closes ->
  Forall (fun name => name ∈ featureNames) names ->
  exists vector details rsi atr,
    computeTrendFeatures names closes = Ok (vector, details) /\
    map fst details = featureNames /\
    Forall2 (fun name f => exists x, f = FNumber x /\ (name, x) ∈ details) names vector /\
    ("rsi14", rsi) ∈ details /\ 0 <= rsi /\ rsi <= nlit 100 /\
    ("atr", atr) ∈ details /\ 0 <= atr.
Proof.
  intros Hlen Hpos Hnames. unfold computeTrendFeatures.
  change (nlit 20) with (count (num:=Qc) 20). change (nlit 50) with (count (num:=Qc) 50).
  change (nlit 100) with (count (num:=Qc) 100).
  destruct (ema_number closes 20) as [e20 ->]; [lia|lia|].
  destruct (ema_number closes 50) as [e50 ->]; [lia|lia|].
  destruct (ema_number closes 100) as [e100 ->]; [lia|lia|].
  cbn [isNull orb].
  destruct (computeMomentum_positive closes 5) as [m ->]; [lia|done|].
  destruct (computeRsi_bounds closes 14) as (rsi & -> & Hr0 & Hr1); [lia|lia|].
  destruct (computeAtr_nonneg closes 14) as (atr & -> & Ha); [lia|lia|].
  cbn [emaDiff checkFinite Number_isFinite exact bind].
  destruct (featureVector_known
              [("ema_diff_short", nsub e20 e50); ("ema_diff_long", nsub e50 e100);
               ("momentum5", m); ("rsi14", rsi); ("atr", atr)] names eq_refl Hnames)
    as (vector & -> & Hvec).
  cbn [bind]. exists vector. eexists. exists rsi, atr.
  split; [reflexivity|]. split; [reflexivity|]. split; [exact Hvec|].
  split; [|split; [done|split; [done|split; [|done]]]].
  - do 3 apply list_elem_of_further. apply list_elem_of_here.
  - do 4 apply list_elem_of_further. apply list_elem_of_here.
Qed.

Lemma flatCloses_positive : Forall (fun v : Qc => 0 < v) flatCloses.
Proof. apply Forall_replicate. vm_compute. reflexivity. Defined.

Lemma trend_features_vector_witness :
  exists vector details rsi atr,
    computeTrendFeatures ["rsi14"; "atr"] (flatCloses (num:=Qc)) = Ok (vector, details) /\
    map fst details = featureNames /\
    Forall2 (fun name f => exists x, f = FNumber x /\ (name, x) ∈ details) ["rsi14"; "atr"] vector /\
    ("rsi14", rsi) ∈ details /\ 0 <= rsi /\ rsi <= nlit 100 /\
    ("atr", atr) ∈ details /\ 0 <= atr.
Proof.
  assert (Hlen : (100 <= length (flatCloses (num:=Qc)))%nat) by (vm_compute; lia).
  assert (Hnames : Forall (fun name => name ∈ featureNames) ["rsi14"; "atr"]).
  { repeat constructor; repeat first [apply list_elem_of_here | apply list_elem_of_further]. }
  exact (trend_features_vector ["rsi14"; "atr"] flatCloses Hlen flatCloses_positive Hnames).
Defined.

Lemma featureVector_app (details : list (string * Qc)) known names vector :
  featureVector details known = Ok vector ->
  featureVector details (known ++ names)
  = try! rest := featureVector details names in Ok (vector ++ rest).
Proof.
  revert vector. induction known as [|name known IH]; intros vector; cbn [featureVector app].
  - intros [= <-]. by destruct (featureVector details names).
  - destruct (find _ details) as [kv|].
    + destruct (featureVector details known) as [v|] eqn:Hv; cbn [bind]; [|done].
      intros [= <-]. rewrite (IH v eq_refl). by destruct (featureVector details names).
    + destruct (existsb _ _); [|done].
      destruct (featureVector details known) as [v|] eqn:Hv; cbn [bind]; [|done].
      intros [= <-]. rewrite (IH v eq_refl). by destruct (featureVector details names).
Qed.

Lemma find_unknown (details : list (string * Qc)) name :
  map fst details = featureNames -> name ∉ featureNames ->
  find (fun kv => String.eqb (fst kv) name) details = None.
Proof.
  intros Hkeys Hname. destruct (find _ details) as [[k x]|] eqn:Hf; [|done].
  exfalso. apply find_some in Hf as [Hin Hk]. cbn [fst] in Hk. apply String.eqb_eq in Hk as ->.
  apply Hname. rewrite <- Hkeys. apply list_elem_of_fmap. exists (name, x).
  split; [done|]. by apply list_elem_of_In.
Qed.

Lemma existsb_elem name (l : list string) : existsb (String.eqb name) l = true <-> name ∈ l.
Proof.
  rewrite existsb_exists. split.
  - intros (x & Hin & ->%String.eqb_eq). by apply list_elem_of_In.
  - intros Hin. exists name. split; [by apply list_elem_of_In | apply String.eqb_refl].
Qed.

(** X26. A name that is none of the five features makes
    [computeTrendFeatures] throw, unless every object inherits a member of
    that name ([toString], [constructor], ...): then [name in derived]
    holds and the vector gets that member in place of a number. *)
Theorem trend_features_other_names (known : list string) (name : string) (rest : list string)
    (closes : list Qc) :
  (100 <= length closes)%nat -> Forall (fun v => 0 < v) closes ->
  Forall (fun name => name ∈ featureNames) known -> name ∉ featureNames ->
  (name ∉ objectPrototypeKeys ->
   computeTrendFeatures (known ++ name :: rest) closes
   = Throw ("Unsupported feature " ++ doubleQuote ++ name ++ doubleQuote ++ " in model.")) /\
  (name ∈ objectPrototypeKeys ->
   exists vector details,
     computeTrendFeatures (known ++ [name]) closes = Ok (vector ++ [FInherited name], details) /\
     length vector = length known).
Proof.
  intros Hlen Hpos Hknown Hname. unfold computeTrendFeatures.
  change (nlit 20) with (count (num:=Qc) 20). change (nlit 50) with (count (num:=Qc) 50).
  change (nlit 100) with (count (num:=Qc) 100).
  destruct (ema_number closes 20) as [e20 ->]; [lia|lia|].
  destruct (ema_number closes 50) as [e50 ->]; [lia|lia|].
  destruct (ema_number closes 100) as [e100 ->]; [lia|lia|].
  cbn [isNull orb].
  destruct (computeMomentum_positive closes 5) as [m ->]; [lia|done|].
  destruct (computeRsi_bounds closes 14) as (rsi & -> & _); [lia|lia|].
  destruct (computeAtr_nonneg closes 14) as (atr & -> & _); [lia|lia|].
  cbn [emaDiff checkFinite Number_isFinite exact bind].
  set (details := [("ema_diff_short", nsub e20 e50); ("ema_diff_long", nsub e50 e100);
                   ("momentum5", m); ("rsi14", rsi); ("atr", atr)]).
  destruct (featureVector_known details known eq_refl Hknown) as (vector & Hv & Hall).
  pose proof (find_unknown details name eq_refl Hname) as Hfind.
  split; intros Hproto.
  - rewrite (featureVector_app _ _ _ _ Hv). cbn [featureVector]. rewrite Hfind.
    replace (existsb (String.eqb name) objectPrototypeKeys) with false; [done|].
    symmetry. apply not_true_is_false. by rewrite existsb_elem.
  - rewrite (featureVector_app _ _ _ _ Hv). cbn [featureVector]. rewrite Hfind.
    apply existsb_elem in Hproto. rewrite Hproto. cbn [bind].
    exists vector, details. split; [done|]. symmetry. by eapply Forall2_length.
Qed.

Lemma trend_features_other_names_witness :
  ("toString" ∉ objectPrototypeKeys ->
   computeTrendFeatures (["rsi14"] ++ "toString" :: []) (flatCloses (num:=Qc))
   = Throw ("Unsupported feature " ++ doubleQuote ++ "toString" ++ doubleQuote ++ " in model.")) /\
  ("toString" ∈ objectPrototypeKeys ->
   exists vector details,
     computeTrendFeatures (["rsi14"] ++ ["toString"]) (flatCloses (num:=Qc))
     = Ok (vector ++ [FInherited "toString"], details) /\
     length vector = length ["rsi14"]).
Proof.
  assert (Hlen : (100 <= length (flatCloses (num:=Qc)))%nat) by (vm_compute; lia).
  assert (Hknown : Forall (fun name => name ∈ featureNames) ["rsi14"]).
  { repeat constructor; repeat first [apply list_elem_of_here | apply list_elem_of_further]. }
  assert (Hname : "toString" ∉ featureNames).
  { intros Hin. apply list_elem_of_In in Hin. simpl in Hin.
    repeat (destruct Hin as [Hin|Hin]; [discriminate|]). exact Hin. }
  exact (trend_features_other_names ["rsi14"] "toString" [] flatCloses Hlen flatCloses_positive
           Hknown Hname).
Defined.

End TrendFeatureFacts.

(** ** The ledger, order by order *)

Section LedgerFacts.
Import Exact ExactFacts.
Local Open Scope Qc_scope.

(** The sell loop ends with nothing left to settle, or with what the lots
    could not cover. *)
Lemma consumeLots_remaining (W : list (FifoLotDoc Qc)) : forall r upd,
  fst (consumeLots W r upd) <= FIFO_EPSILON \/ fst (consumeLots W r upd) = r - sumBy qty W.
Proof.
  induction W as [|lot W IH]; intros r upd; cbn [consumeLots].
  - right. rewrite sumBy_nil. cbn [fst]. qc.
  - destruct (nle r FIFO_EPSILON) eqn:Er.
    + left. rewrite consumeLots_app. cbn [fst]. rewrite consumeLots_settled by qc. cbn [fst]. qc.
    + rewrite sumBy_cons.
      assert (Hrest : forall upd', fst (consumeLots W (nsub r (Math_min (qty lot) r)) upd') <= FIFO_EPSILON \/
                fst (consumeLots W (nsub r (Math_min (qty lot) r)) upd') = r - (qty lot + sumBy qty W)).
      { intros upd'. cbn [Math_min exact]. destruct (Qle_bool (qty lot) r) eqn:Em.
        - destruct (IH (nsub r (qty lot)) upd') as [?|E]; [by left|right]. rewrite E. clear. qc.
        - left. rewrite consumeLots_app. cbn [fst].
          replace (nsub r r) with (0 : Qc) by (clear; qc).
          rewrite consumeLots_settled by (unfold FIFO_EPSILON; qc). cbn [fst].
          unfold FIFO_EPSILON. qc. }
      case_match; apply Hrest.
Qed.

Lemma submitSpotOrder_price now serverNow (st st' : Store Qc) (params : SpotOrderParams Qc) :
  submitSpotOrder now serverNow st params = (st', Ok tt) -> 0 < sp_fillPrice params.
Proof.
  unfold submitSpotOrder. cbn [Number_isFinite exact negb orb].
  destruct (nle (sp_qty params) (nlit 0)).
  { intros E. apply pair_equal_spec in E as [_ E]. discriminate. }
  destruct (nle (sp_fillPrice params) (nlit 0)) eqn:Hp.
  - intros E. apply pair_equal_spec in E as [_ E]. discriminate.
  - intros _. qc.
Qed.


Lemma stable_gridLot (lot : FifoLotDoc Qc) : stable lot <-> gridLot lot.
Proof.
  split.
  - intros (Hq & Hp & Hpos).
    apply round6_fixed in Hq as [n Hn]. apply round6_fixed in Hp as [m Hm].
    exists n, m. split; [|done]. apply grid_above_fifo. by rewrite Hn in Hpos.
  - intros (n & m & Hn & Hq & Hp). unfold stable. rewrite Hq, Hp.
    split; [apply round6_grid|]. split; [apply round6_grid|]. by apply grid_above_fifo.
Qed.

Lemma gridded_sum (L : list (FifoLotDoc Qc)) :
  Forall stable L -> round6 (sumBy qty L) = sumBy qty L.
Proof.
  induction 1 as [|lot L (Hq & _) _ IH]; [rewrite sumBy_nil, <- grid_0; apply round6_grid|].
  rewrite sumBy_cons. apply round6_fixed in Hq as [n ->]. apply round6_fixed in IH as [m ->].
  rewrite grid_plus. apply round6_grid.
Qed.

Lemma payload_qty snapshot symbol side (q p t : Qc) (payload : PositionPayload Qc) :
  computeFifoPositionPayload snapshot symbol side q p t = Ok payload ->
  p_qty payload = round6 (sumBy qty (p_lots payload)).
Proof.
  unfold computeFifoPositionPayload. destruct side; cbn [bind].
  - by intros [= <-].
  - destruct (consumeLots _ _ _) as [r X]. destruct (nlt FIFO_EPSILON r); cbn [bind]; [done|].
    by intros [= <-].
Qed.

Lemma payload_lots_stable (st : Store Qc) symbol side (q p t : Qc) (payload : PositionPayload Qc) :
  ledgerInv st ->
  computeFifoPositionPayload (positions st !! symbol) symbol side q p t = Ok payload ->
  Forall stable (p_lots payload) /\ Sorted tsLe (p_lots payload).
Proof.
  intros Hinv Hpay. apply computeFifoPositionPayload_lots in Hpay.
  fold (heldLots st symbol) in Hpay. cbn zeta in Hpay.
  destruct (Hinv symbol) as [HWst _].
  assert (Hlots : exists X, p_lots payload = finishLots X /\
                    Forall (fun lot => round6 (qty lot) = qty lot) X).
  { destruct side.
    - eexists; split; [exact Hpay|]. apply Forall_app; split; [by apply stable_Forall_gridded|].
      repeat constructor. cbn [qty]. apply round6_idempotent.
    - destruct Hpay as [_ Hpay]. eexists; split; [exact Hpay|].
      apply consumeLots_Forall; [|by apply stable_Forall_gridded|constructor].
      intros lot x _. cbn [setQty qty]. apply round6_idempotent. }
  destruct Hlots as (X & -> & HXg).
  split; [by apply finishLots_stable | apply finishLots_Sorted].
Qed.

Lemma heldLots_fresh (st : Store Qc) s : positions st = ∅ -> heldLots st s = [].
Proof. intros E. unfold heldLots. rewrite E, lookup_empty. reflexivity. Qed.

Lemma ledger_ledgerInv (st : Store Qc) :
  ledger st -> ledgerInv st /\ forall s, positionDocOk st s.
Proof.
  induction 1 as [st Hfresh | st st' now serverNow params _ [Hinv Hdoc] Hok].
  - split; intros s.
    + rewrite heldLots_fresh by done. by split; constructor.
    + unfold positionDocOk. by rewrite Hfresh, lookup_empty.
  - destruct (ledger_step _ _ _ _ _ Hinv Hok) as (Hinv' & Hother & _).
    split; [done|]. intros s. unfold positionDocOk.
    pose proof Hok as Hok'.
    apply submitSpotOrder_ok in Hok' as (payload & Hpay & Hpos).
    destruct (payload_lots_stable _ _ _ _ _ _ _ Hinv Hpay) as [Hst Hso].
    pose proof (payload_qty _ _ _ _ _ _ _ Hpay) as Hqty.
    destruct (heldLots_written _ _ _ _ _ Hpos) as [Hsym _].
    rewrite readback in Hsym; [|by apply stable_Forall_positive|done].
    destruct (decide (s = sp_symbol params)) as [->|Hs].
    + rewrite Hpos, lookup_insert_eq. rewrite !field_mergeDoc. cbn [payloadFields getField String.eqb Ascii.eqb Bool.eqb].
      rewrite Hsym, Hqty, gridded_sum by done. done.
    + rewrite Hpos, lookup_insert_ne by done. specialize (Hdoc s). unfold positionDocOk in Hdoc.
      by rewrite Hother.
Qed.


Lemma boughtStore_ledger : ledger (boughtStore (num:=Qc)).
Proof.
  apply (ledger_order poorStore boughtStore (nlit 1) (nlit 1) bigBuy).
  - by apply ledger_fresh.
  - vm_compute. reflexivity.
Defined.


(** X4. Lots above [FIFO_EPSILON] in order of time, written to a
    position document as [computeFifoPositionPayload] returns them, are
    read back unchanged by [normalizeFifoLots]. *)
Theorem lots_round_trip (lots : list (FifoLotDoc Qc)) :
  Forall (fun lot => FIFO_EPSILON < qty lot) lots -> Sorted tsLe lots ->
  normalizeFifoLots (VArray (map lotDoc lots)) = lots.
Proof. apply readback. Qed.

Lemma computeCashAfterDelta_storedCash (st : Store Qc) (delta : Qc) :
  computeCashAfterDelta (userDoc st) delta = round6 (storedCash st + delta).
Proof.
  unfold computeCashAfterDelta, storedCash, sanitizeNumber. cbn [Number_isFinite exact].
  destruct (field "cash" _); try destruct (field "initialCredits" _); reflexivity.
Qed.

Lemma lots_round_trip_witness :
  normalizeFifoLots (VArray (map lotDoc (scenarioA_lots (num:=Qc)))) = scenarioA_lots.
Proof.
  assert (Hq : Forall (fun lot : FifoLotDoc Qc => FIFO_EPSILON < qty lot) scenarioA_lots).
  { repeat constructor. }
  assert (Hs : Sorted tsLe (scenarioA_lots (num:=Qc))) by (repeat constructor).
  exact (lots_round_trip scenarioA_lots Hq Hs).
Defined.

Lemma submitSpotOrder_effects (now serverNow : Qc) (st st' : Store Qc)
    (params : SpotOrderParams Qc) :
  submitSpotOrder now serverNow st params = (st', Ok tt) ->
  field "cash" (snapshotData (userDoc st'))
    = VNumber (round6 (storedCash st + cashDelta params)) /\
  (forall k, k <> "cash" ->
     field k (snapshotData (userDoc st')) = field k (snapshotData (userDoc st))) /\
  (forall s, s <> sp_symbol params -> positions st' !! s = positions st !! s) /\
  exists record,
    orders st' = orders st ++ [record] /\
    forall k, field k record =
      match getField k (sp_extra params) with
      | VUndefined => getField k (orderFields serverNow params)
      | v => v
      end.
Proof.
  unfold submitSpotOrder.
  case_match; [intros E; apply pair_equal_spec in E as [_ E]; discriminate|].
  case_match; [intros E; apply pair_equal_spec in E as [_ E]; discriminate|].
  unfold runTransaction.
  destruct (computeFifoPositionPayload _ _ _ _ _ _) as [payload|m]; cbn [bind];
    [|intros E; apply pair_equal_spec in E as [_ E]; discriminate].
  intros E. apply pair_equal_spec in E as [E _]. subst st'.
  cbn [fold_left applyWrite userDoc positions orders snapshotData].
  split; [|split; [|split]].
  - rewrite field_mergeDoc. cbn [getField String.eqb Ascii.eqb Bool.eqb]. f_equal.
    rewrite computeCashAfterDelta_storedCash. f_equal.
    generalize (storedCash st). intros c. unfold cashDelta.
    destruct (sp_side params); qc; nra.
  - intros k Hk. rewrite field_mergeDoc. cbn [getField].
    apply String.eqb_neq in Hk. by rewrite Hk.
  - intros s Hs. by rewrite lookup_insert_ne.
  - eexists. split; [reflexivity|]. intros k. cbn [field]. apply getField_mergeFields.
Qed.

(** X2. What a committed order changes: the [cash] field becomes
    [round6 (base + delta)], no other field of the user document and no
    position of another symbol changes, and one record is appended to the
    order log, whose fields are those of [extra] where it has them and the
    order's own otherwise. *)
Theorem accepted_order_effects (now serverNow : Qc) (st st' : Store Qc)
    (params : SpotOrderParams Qc) :
  submitSpotOrder now serverNow st params = (st', Ok tt) ->
  field "cash" (snapshotData (userDoc st'))
    = VNumber (round6 (storedCash st + cashDelta params)) /\
  (forall k, k <> "cash" ->
     field k (snapshotData (userDoc st')) = field k (snapshotData (userDoc st))) /\
  (forall s, s <> sp_symbol params -> positions st' !! s = positions st !! s) /\
  exists record,
    orders st' = orders st ++ [record] /\
    forall k, field k record =
      match getField k (sp_extra params) with
      | VUndefined => getField k (orderFields serverNow params)
      | v => v
      end.
Proof. apply submitSpotOrder_effects. Qed.

(** X5. Whatever a position document holds, the lots
    [normalizeFifoLots] reads from it are in order of time and above
    [FIFO_EPSILON], and writing them back and reading again gives the
    same lots. *)
Theorem lots_read_are_clean (raw : value Qc) :
  Sorted tsLe (normalizeFifoLots raw) /\
  Forall (fun lot => FIFO_EPSILON < qty lot) (normalizeFifoLots raw) /\
  normalizeFifoLots (VArray (map lotDoc (normalizeFifoLots raw))) = normalizeFifoLots raw.
Proof.
  assert (Hs : Sorted tsLe (normalizeFifoLots raw)).
  { unfold normalizeFifoLots. destruct raw; try constructor. apply (sortBy_Sorted ts). }
  assert (Hq : Forall (fun lot => FIFO_EPSILON < qty lot) (normalizeFifoLots raw)).
  { eapply Forall_impl; [apply normalizeFifoLots_qty|]. intros lot Hlot. by apply above_fifo. }
  split; [done|]. split; [done|]. by apply readback.
Qed.

Lemma accepted_order_effects_witness :
  field "cash" (snapshotData (userDoc boughtStore))
    = VNumber (round6 (storedCash poorStore + cashDelta bigBuy)) /\
  (forall k, k <> "cash" ->
     field k (snapshotData (userDoc boughtStore)) = field k (snapshotData (userDoc poorStore))) /\
  (forall s, s <> sp_symbol bigBuy -> positions boughtStore !! s = positions (poorStore (num:=Qc)) !! s) /\
  exists record,
    orders boughtStore = orders poorStore ++ [record] /\
    forall k, field k record =
      match getField k (sp_extra bigBuy) with
      | VUndefined => getField k (orderFields (nlit 1) bigBuy)
      | v => v
      end.
Proof.
  assert (Hok : submitSpotOrder (nlit 1) (nlit 1) poorStore bigBuy = (boughtStore (num:=Qc), Ok tt)).
  { vm_compute. reflexivity. }
  exact (accepted_order_effects (nlit 1) (nlit 1) poorStore boughtStore bigBuy Hok).
Defined.

End LedgerFacts.

(** ** The runners *)

Section RunnerFacts.
Import Exact ExactFacts.
Local Open Scope Qc_scope.

Lemma storedCash_field (st : Store Qc) (c : Qc) :
  field "cash" (snapshotData (userDoc st)) = VNumber c ->
  storedCash st = c /\
  sanitizeNumber (match userDoc st with Some d => field "cash" d | None => VUndefined end) = Some c.
Proof.
  intros Hc. unfold storedCash. rewrite Hc. split; [done|].
  destruct (userDoc st); cbn [snapshotData] in Hc; [by rewrite Hc|discriminate].
Qed.

(** The order step of both runners, with the decision as a string. *)
Lemma main_order_cash (now serverNow : Qc) (st : Store Qc) symbol (lotSize latest : Qc) action c :
  field "cash" (snapshotData (userDoc st)) = VNumber c -> 0 <= c ->
  exists c',
    field "cash" (snapshotData
      (userDoc (fst (Momentum.main_order now serverNow st symbol lotSize latest action))))
    = VNumber c' /\ 0 <= c'.
Proof.
  intros Hc Hc0. destruct (storedCash_field st c Hc) as [Hstored Hsan].
  unfold Momentum.main_order. rewrite Hsan. cbn [default from_option id].
  destruct (String.eqb action "buy" && nle (nmul latest lotSize) c) eqn:Hbuy.
  - apply andb_true_iff in Hbuy as [_ Hle].
    destruct (submitSpotOrder _ _ _ _) as [st' [[]|m]] eqn:Hsub; cbn [fst].
    + apply submitSpotOrder_effects in Hsub as (Hcash & _). rewrite Hcash, Hstored.
      eexists. split; [reflexivity|]. apply round6_nonneg.
      unfold cashDelta. cbn [sp_side sp_qty sp_fillPrice]. clear -Hle. qc; nra.
    + apply submitSpotOrder_throw in Hsub as ->. eauto.
  - destruct (String.eqb action "sell" && _) eqn:Hsell; cbn [fst]; [|eauto].
    destruct (submitSpotOrder _ _ _ _) as [st' [[]|m]] eqn:Hsub; cbn [fst].
    + pose proof (submitSpotOrder_positive _ _ _ _ _ Hsub) as Hq.
      pose proof (submitSpotOrder_price _ _ _ _ _ Hsub) as Hp.
      apply submitSpotOrder_effects in Hsub as (Hcash & _). rewrite Hcash, Hstored.
      eexists. split; [reflexivity|]. apply round6_nonneg.
      unfold cashDelta. cbn [sp_side sp_qty sp_fillPrice] in *. clear -Hq Hp Hc0. qc; nra.
    + apply submitSpotOrder_throw in Hsub as ->. eauto.
Qed.

(** X6. When the user document holds a non-negative [cash], the
    order step of both runners leaves a non-negative [cash], whatever the
    decision, the lot size and the price. *)
Theorem runners_never_overdraw (now serverNow : Qc) (st : Store Qc) (symbol : string)
    (lotSize latest : Qc) (c : Qc) :
  field "cash" (snapshotData (userDoc st)) = VNumber c -> 0 <= c ->
  (forall action, exists c',
     field "cash" (snapshotData
       (userDoc (fst (Momentum.main_order now serverNow st symbol lotSize latest action))))
     = VNumber c' /\ 0 <= c') /\
  (forall predictedReturn buyThreshold sellThreshold, exists c',
     field "cash" (snapshotData
       (userDoc (fst (MLTrend.main_order now serverNow st symbol lotSize latest
                        predictedReturn buyThreshold sellThreshold))))
     = VNumber c' /\ 0 <= c').
Proof.
  intros Hc Hc0. split.
  - intros action. by apply (main_order_cash _ _ _ _ _ _ _ c).
  - intros r B S.
    exact (main_order_cash now serverNow st symbol lotSize latest
             (if nle B r then "buy" else if nle r S then "sell" else "hold") c Hc Hc0).
Qed.

Lemma runners_never_overdraw_witness :
  (forall action, exists c',
     field "cash" (snapshotData
       (userDoc (fst (Momentum.main_order (nlit 1) (nlit 1) poorStore "AAPL" (nlit 10) (nlit 20) action))))
     = VNumber c' /\ 0 <= c') /\
  (forall predictedReturn buyThreshold sellThreshold, exists c',
     field "cash" (snapshotData
       (userDoc (fst (MLTrend.main_order (nlit 1) (nlit 1) poorStore "AAPL" (nlit 10) (nlit 20)
                        predictedReturn buyThreshold sellThreshold))))
     = VNumber c' /\ 0 <= c').
Proof.
  assert (Hc : field "cash" (snapshotData (userDoc (poorStore (num:=Qc)))) = VNumber (nlit 100))
    by reflexivity.
  assert (Hc0 : 0 <= nlit 100) by (vm_compute; discriminate).
  exact (runners_never_overdraw (nlit 1) (nlit 1) poorStore "AAPL" (nlit 10) (nlit 20) (nlit 100) Hc Hc0).
Defined.

Lemma main_order_accepted (now serverNow : Qc) (st : Store Qc) symbol (lotSize latest : Qc) action :
  ledger st -> 0 < lotSize -> 0 < latest ->
  snd (Momentum.main_order now serverNow st symbol lotSize latest action) = Ok tt.
Proof.
  intros Hl Hq Hp. destruct (ledger_ledgerInv st Hl) as [Hinv Hdoc].
  unfold Momentum.main_order.
  destruct (String.eqb action "buy" && _).
  - destruct (submitSpotOrder_accepts now serverNow st
      {| sp_symbol := symbol; sp_side := buy; sp_qty := lotSize; sp_fillPrice := latest;
         sp_type := None; sp_lotTimestamp := None; sp_extra := [] |}) as [st' ->]; done.
  - destruct (String.eqb action "sell" && _) eqn:Hsell; [|done].
    apply andb_true_iff in Hsell as [_ Hheld].
    destruct (submitSpotOrder_accepts now serverNow st
      {| sp_symbol := symbol; sp_side := sell; sp_qty := lotSize; sp_fillPrice := latest;
         sp_type := None; sp_lotTimestamp := None; sp_extra := [] |}) as [st' ->]; try done.
    intros _. cbn [sp_symbol sp_qty].
    destruct (Hinv symbol) as [Hst _]. apply consumeLots_cut; [done|].
    specialize (Hdoc symbol). unfold positionDocOk in Hdoc.
    destruct (positions st !! symbol) as [d|].
    + destruct Hdoc as [Hqty _]. rewrite Hqty in Hheld. cbn [sanitizeNumber Number_isFinite exact default from_option id] in Hheld.
      clear -Hheld. qc.
    + exfalso. cbn [sanitizeNumber default from_option id] in Hheld. clear -Hheld Hq. qc.
Qed.



Lemma main_order_default_cash (now serverNow : Qc) (st : Store Qc) symbol (lotSize latest i : Qc) :
  sanitizeNumber (field "cash" (snapshotData (userDoc st))) = None ->
  field "initialCredits" (snapshotData (userDoc st)) = VNumber i ->
  0 < lotSize -> 0 < latest ->
  latest * lotSize <= DEFAULT_INITIAL_CASH ->
  i + grid 1 <= latest * lotSize ->
  exists st',
    Momentum.main_order now serverNow st symbol lotSize latest "buy" = (st', Ok tt) /\
    field "cash" (snapshotData (userDoc st')) = VNumber (round6 (i - latest * lotSize)) /\
    round6 (i - latest * lotSize) <= - grid 1.
Proof.
  intros Hcash Hinit Hq Hp Hdef Hlow. unfold Momentum.main_order.
  assert (Hsan : sanitizeNumber (match userDoc st with Some d => field "cash" d | None => VUndefined end)
                 = None).
  { destruct (userDoc st); [exact Hcash | reflexivity]. }
  rewrite Hsan. cbn [default from_option id String.eqb Ascii.eqb Bool.eqb andb].
  replace (nle (nmul latest lotSize) DEFAULT_INITIAL_CASH) with true by (symmetry; qc).
  destruct (submitSpotOrder_accepts now serverNow st
    {| sp_symbol := symbol; sp_side := buy; sp_qty := lotSize; sp_fillPrice := latest;
       sp_type := None; sp_lotTimestamp := None; sp_extra := [] |}) as [st' Hsub]; try done.
  exists st'. split; [done|].
  apply submitSpotOrder_effects in Hsub as (Hc & _). rewrite Hc.
  assert (Hstored : storedCash st = i).
  { unfold storedCash, sanitizeNumber in *. rewrite Hinit.
    destruct (field "cash" _); try done. }
  rewrite Hstored. unfold cashDelta. cbn [sp_side sp_qty sp_fillPrice].
  replace (i + - (lotSize * latest)) with (i - latest * lotSize) by (clear; qc; nra).
  split; [done|].
  replace (- grid 1) with (round6 (grid (-1))).
  - apply round6_mono. pose proof (grid_Q 1). pose proof (grid_Q (-1)). clear -Hlow H H0. qc; nra.
  - rewrite round6_grid. pose proof (grid_Q 1). pose proof (grid_Q (-1)). qc.
Qed.

(** X8. The buy guard of [main] takes 1,000,000 for a missing
    [cash] field where [computeCashAfterDelta] takes [initialCredits]: with
    [initialCredits] at least a millionth below the cost of the lot, and
    the cost at most 1,000,000, a buy decision is committed and leaves a
    negative balance. *)
Theorem buy_guard_reads_default_cash (now serverNow : Qc) (st : Store Qc) (symbol : string)
    (lotSize latest i : Qc) :
  sanitizeNumber (field "cash" (snapshotData (userDoc st))) = None ->
  field "initialCredits" (snapshotData (userDoc st)) = VNumber i ->
  0 < lotSize -> 0 < latest ->
  latest * lotSize <= DEFAULT_INITIAL_CASH ->
  i + grid 1 <= latest * lotSize ->
  exists st',
    Momentum.main_order now serverNow st symbol lotSize latest "buy" = (st', Ok tt) /\
    (forall predictedReturn buyThreshold sellThreshold,
       buyThreshold <= predictedReturn ->
       MLTrend.main_order now serverNow st symbol lotSize latest
         predictedReturn buyThreshold sellThreshold = (st', Ok tt)) /\
    field "cash" (snapshotData (userDoc st')) = VNumber (round6 (i - latest * lotSize)) /\
    round6 (i - latest * lotSize) <= - grid 1.
Proof.
  intros Hcash Hinit Hq Hp Hdef Hlow.
  destruct (main_order_default_cash now serverNow st symbol lotSize latest i)
    as (st' & Hm & Hc & Hneg); try done.
  exists st'. split; [done|]. split; [|done].
  intros r B S HB. unfold MLTrend.main_order.
  replace (nle B r) with true by (symmetry; clear -HB; qc).
  exact Hm.
Qed.

Lemma buy_guard_reads_default_cash_witness :
  exists st',
    Momentum.main_order (nlit 1) (nlit 1) uncashedStore "AAPL" (nlit 10) (nlit 20) "buy" = (st', Ok tt) /\
    (forall predictedReturn buyThreshold sellThreshold,
       buyThreshold <= predictedReturn ->
       MLTrend.main_order (nlit 1) (nlit 1) uncashedStore "AAPL" (nlit 10) (nlit 20)
         predictedReturn buyThreshold sellThreshold = (st', Ok tt)) /\
    field "cash" (snapshotData (userDoc st')) = VNumber (round6 (nlit 100 - nlit 20 * nlit 10)) /\
    round6 (nlit 100 - nlit 20 * nlit 10) <= - grid 1.
Proof.
  assert (Hcash : sanitizeNumber (field "cash" (snapshotData (userDoc (uncashedStore (num:=Qc))))) = None)
    by reflexivity.
  assert (Hinit : field "initialCredits" (snapshotData (userDoc (uncashedStore (num:=Qc))))
                  = VNumber (nlit 100)) by reflexivity.
  assert (Hq : 0 < nlit 10) by (vm_compute; reflexivity).
  assert (Hp : 0 < nlit 20) by (vm_compute; reflexivity).
  assert (Hdef : nlit 20 * nlit 10 <= DEFAULT_INITIAL_CASH) by (vm_compute; discriminate).
  assert (Hlow : nlit 100 + grid 1 <= nlit 20 * nlit 10) by (vm_compute; discriminate).
  exact (buy_guard_reads_default_cash (nlit 1) (nlit 1) uncashedStore "AAPL" (nlit 10) (nlit 20)
           (nlit 100) Hcash Hinit Hq Hp Hdef Hlow).
Defined.

(** *** The wealth snapshot *)

Lemma sumBy_Permutation {A} (f : A -> Qc) (l l' : list A) :
  l ≡ₚ l' -> sumBy f l = sumBy f l'.
Proof.
  induction 1 as [|x l l' _ IH|x y l|l l' l'' _ IH1 _ IH2].
  - done.
  - by rewrite !sumBy_cons, IH.
  - rewrite !sumBy_cons. qc.
  - by rewrite IH1.
Qed.

Lemma positionValue_grid fetch (docSnap : QueryDocumentSnapshot Qc) :
  exists n, Momentum.positionValue fetch docSnap = grid n.
Proof.
  unfold Momentum.positionValue.
  destruct (sanitizeNumber _); [|exists 0%Z; by rewrite grid_0].
  destruct (nle _ _); [exists 0%Z; by rewrite grid_0|].
  destruct (if truthy _ then _ else _); [|exists 0%Z; by rewrite grid_0].
  destruct (round6_bounds (nmul q q0)) as (n & Hn & _). eauto.
Qed.

Lemma positionValues_grid fetch (docs : list (QueryDocumentSnapshot Qc)) :
  exists n, sumBy (fun value => value) (map (Momentum.positionValue fetch) docs) = grid n.
Proof.
  induction docs as [|d docs [n IH]]; cbn [map]; [exists 0%Z; by rewrite sumBy_nil, grid_0|].
  rewrite sumBy_cons, IH. destruct (positionValue_grid fetch d) as [m ->].
  rewrite grid_plus. eauto.
Qed.






End RunnerFacts.

(** ** The dashboard *)

Section DashboardFacts.
Import Exact ExactFacts.
Local Open Scope Qc_scope.

Lemma tallyOrder_counters (t t' : Tally Qc) order :
  tallyOrder t order = Some t' ->
  (wins t + losses t <= closedTrades t)%nat ->
  (wins t' + losses t' <= closedTrades t')%nat /\
  (closedTrades t' <= closedTrades t + length (sellsOf [order]))%nat.
Proof.
  unfold tallyOrder, sellsOf. cbn [List.filter]. destruct (ord_side order); cbn [SpotSide_eqb length].
  - intros [= <-] Hle. cbn [wins losses closedTrades]. lia.
  - destruct (settleBook _ _ _ _ _) as [[[book remaining] orderPnl]|]; [|done].
    destruct (nle remaining STATS_EPSILON); intros [= <-] Hle; cbn [wins losses closedTrades].
    + repeat case_match; lia.
    + lia.
Qed.

Lemma sellsOf_cons order orders :
  length (sellsOf (order :: orders)) = (length (sellsOf [order]) + length (sellsOf orders))%nat.
Proof. unfold sellsOf. cbn [List.filter]. by destruct (SpotSide_eqb _ _). Qed.

Lemma tallyOrders_counters orders : forall (t t' : Tally Qc),
  tallyOrders t orders = Some t' ->
  (wins t + losses t <= closedTrades t)%nat ->
  (wins t' + losses t' <= closedTrades t')%nat /\
  (closedTrades t' <= closedTrades t + length (sellsOf orders))%nat.
Proof.
  induction orders as [|order orders IH]; intros t t'; cbn [tallyOrders].
  - intros [= <-] Hle. cbn. lia.
  - destruct (tallyOrder t order) as [t1|] eqn:E1; [|done]. intros E Hle.
    destruct (tallyOrder_counters _ _ _ E1 Hle) as [H1 H2].
    destruct (IH _ _ E H1) as [H3 H4]. rewrite sellsOf_cons. lia.
Qed.

(** X12. [computeBotStats] returns for every history, with
    [tradesCount] the number of orders, [wins + losses <= closedTrades],
    [closedTrades] at most the number of sell orders, and [winRate] between
    0 and 1. *)
Theorem stats_counters (initialCredits totalValue : Qc) (orders : list (NormalizedOrder Qc)) :
  exists s,
    computeBotStats initialCredits totalValue orders = Some s /\
    s_tradesCount s = length orders /\
    (s_wins s + s_losses s <= s_closedTrades s)%nat /\
    (s_closedTrades s <= length (sellsOf orders))%nat /\
    0 <= s_winRate s /\ s_winRate s <= 1.
Proof.
  unfold computeBotStats.
  destruct (tallyOrders_total orders emptyTally) as [t Ht]. rewrite Ht.
  destruct (tallyOrders_counters _ _ _ Ht) as [H1 H2]; [cbn; lia|].
  cbn [closedTrades emptyTally] in H2.
  eexists. split; [reflexivity|].
  cbn [s_tradesCount s_wins s_losses s_closedTrades s_winRate].
  split; [done|]. split; [done|]. split; [lia|].
  destruct (Nat.ltb_spec 0 (closedTrades t)) as [Hpos|_]; [|split; qc].
  cbn [ndiv exact]. apply Qc_div_unit.
  - rewrite <- count_0. apply count_le. lia.
  - apply count_le. lia.
  - assert (count 1 <= count (closedTrades t)) as Hc by (apply count_le; lia).
    rewrite count_S, count_0 in Hc. clear -Hc. qc.
Qed.

Lemma internalLots_fold s orders : forall m m',
  internalLots m s = internalLots m' s ->
  internalLots (fold_left aggregateOrder orders m) s
  = internalLots (fold_left aggregateOrder (ordersOf s orders) m') s.
Proof.
  induction orders as [|o orders IH]; intros m m' Hm; [done|].
  unfold ordersOf in *. cbn [fold_left List.filter].
  destruct (String.eqb_spec (ord_symbol o) s) as [Hs|Hs]; cbn [fold_left].
  - apply IH. rewrite !internalLots_aggregateOrder, !decide_True by done. by rewrite Hm.
  - apply IH. rewrite internalLots_aggregateOrder, decide_False by done. exact Hm.
Qed.

(** X13. The lots [aggregateOpenPositions] shows for a symbol are
    those it shows for the orders of that symbol alone. *)
Theorem open_positions_per_symbol (orders : list (NormalizedOrder Qc)) (s : string) :
  openLots s (aggregateOpenPositions orders)
  = openLots s (aggregateOpenPositions (ordersOf s orders)).
Proof. rewrite !openLots_aggregate. f_equal. by apply internalLots_fold. Qed.

Lemma filter_map_NoDup {A B} (f : A -> B) (P : A -> bool) (l : list A) :
  NoDup (map f l) -> NoDup (map f (List.filter P l)).
Proof.
  induction l as [|x l IH]; cbn [map List.filter]; [done|].
  intros [Hx Hnd]%NoDup_cons. destruct (P x); [|by apply IH].
  cbn [map]. apply NoDup_cons. split; [|by apply IH].
  intros Hin. apply Hx. clear -Hin. induction l as [|y l IH]; [done|].
  cbn [List.filter map] in *. destruct (P y).
  - cbn [map] in Hin. apply elem_of_cons in Hin as [->|Hin]; [apply list_elem_of_here|].
    apply list_elem_of_further. by apply IH.
  - apply list_elem_of_further. by apply IH.
Qed.

Lemma aggregate_keys orders : forall (m : list (string * AggregatedPosition Qc)) k,
  k ∈ map fst (fold_left aggregateOrder orders m) ->
  k ∈ map fst m \/ exists o, o ∈ orders /\ ord_symbol o = k.
Proof.
  induction orders as [|o orders IH]; intros m k Hk; [by left|].
  cbn [fold_left] in Hk. apply IH in Hk as [Hk|(o' & Hin & Ho')].
  - unfold aggregateOrder in Hk.
    destruct (Map_get (ord_symbol o) m) eqn:Hg.
    + rewrite Map_set_keys in Hk by (by rewrite Hg). by left.
    + rewrite Map_set_keys_new in Hk by done.
      apply elem_of_app in Hk as [?|Hk]; [by left|].
      apply list_elem_of_singleton in Hk as ->. right. exists o. split; [apply list_elem_of_here|done].
  - right. exists o'. split; [by apply list_elem_of_further|done].
Qed.

Lemma round6_above (q : Qc) : STATS_EPSILON < q -> grid 1 <= round6 q.
Proof.
  intros Hq. rewrite <- (round6_grid 1). apply round6_mono.
  pose proof (grid_Q 1). unfold STATS_EPSILON in Hq. qc.
Qed.


(** *** The closed trades *)

Lemma closeLots_settled fuel order (lots : list (FifoLotDoc Qc)) remaining entries :
  remaining <= STATS_EPSILON ->
  closeLots fuel order lots remaining entries = Some (lots, entries).
Proof.
  intros Hr. assert (Hc : nlt STATS_EPSILON remaining = false) by (unfold STATS_EPSILON in *; qc).
  destruct fuel, lots; cbn [closeLots]; rewrite ?Hc; reflexivity.
Qed.

Lemma round6_0 : round6 (num:=Qc) 0 = 0.
Proof. rewrite <- grid_0. apply round6_grid. Qed.

(** The loop of [buildClosedTradeEntries] ends within [length lots] iterations. *)
Lemma closeLots_total order (lots : list (FifoLotDoc Qc)) :
  forall fuel remaining entries, (length lots <= fuel)%nat ->
  is_Some (closeLots fuel order lots remaining entries).
Proof.
  induction lots as [|lot rest IH]; intros fuel remaining entries Hfuel.
  - destruct fuel; cbn [closeLots]; eauto.
  - destruct (nlt STATS_EPSILON remaining) eqn:Hc.
    2:{ rewrite closeLots_settled; [eauto|]. unfold STATS_EPSILON in *. qc. }
    destruct fuel as [|fuel]; [simpl in Hfuel; lia|].
    cbn [closeLots]. rewrite Hc.
    destruct (nle (round6 (nsub (qty lot) (Math_min (qty lot) remaining))) STATS_EPSILON) eqn:Hq.
    + apply IH. simpl in Hfuel. lia.
    + rewrite closeLots_settled; [eauto|].
      cbn [Math_min exact] in *.
      destruct (Qle_bool (qty lot) remaining) eqn:Hm.
      * exfalso. replace (nsub (qty lot) (qty lot)) with (0 : Qc) in Hq by (clear; qc).
        rewrite round6_0 in Hq. clear -Hq. unfold STATS_EPSILON in Hq. qc.
      * replace (nsub remaining remaining) with (0 : Qc) by (clear; qc).
        rewrite round6_0. unfold STATS_EPSILON. qc.
Qed.

Lemma closeLots_entries order : forall fuel (lots : list (FifoLotDoc Qc)) remaining entries lots' entries',
  closeLots fuel order lots remaining entries = Some (lots', entries') ->
  (exists new, entries' = entries ++ new /\
     Forall (fun e => e_symbol e = ord_symbol order /\
                      e_sellPrice e = ord_fillPrice order /\ e_sellTs e = ord_ts order /\
                      lotFrom lots (e_buyPrice e) (e_buyTs e)) new) /\
  Forall (fun lot' => lotFrom lots (price lot') (ts lot')) lots'.
Proof.
  induction fuel as [|fuel IH]; intros lots remaining entries lots' entries'.
  - destruct lots as [|lot rest]; cbn [closeLots].
    + intros [= <- <-]. split; [exists []; by rewrite app_nil_r|constructor].
    + destruct (nlt STATS_EPSILON remaining); [done|]. intros [= <- <-].
      split; [exists []; by rewrite app_nil_r|].
      apply Forall_forall. intros l Hl. by exists l.
  - destruct lots as [|lot rest]; cbn [closeLots].
    + intros [= <- <-]. split; [exists []; by rewrite app_nil_r|constructor].
    + destruct (nlt STATS_EPSILON remaining).
      2:{ intros [= <- <-]. split; [exists []; by rewrite app_nil_r|].
          apply Forall_forall. intros l Hl. by exists l. }
      set (e := {| e_symbol := ord_symbol order; e_qty := _; e_buyPrice := price lot;
                   e_sellPrice := _; e_buyTs := ts lot; e_sellTs := _; e_pnl := _ |}).
      assert (He : e_symbol e = ord_symbol order /\
                   e_sellPrice e = ord_fillPrice order /\ e_sellTs e = ord_ts order /\
                   lotFrom (lot :: rest) (e_buyPrice e) (e_buyTs e)).
      { repeat split. exists lot. split; [apply list_elem_of_here|done]. }
      clearbody e.
      destruct (nle _ STATS_EPSILON); intros Hrec; apply IH in Hrec as [(new & -> & Hnew) Hlots'].
      * split.
        -- exists (e :: new). split; [by rewrite <- app_assoc|]. constructor; [done|].
           eapply Forall_impl; [exact Hnew|]. intros e' (? & ? & ? & l & Hl & ?).
           repeat split; try done. exists l. split; [by apply list_elem_of_further|done].
        -- eapply Forall_impl; [exact Hlots'|]. intros l' (l & Hl & ?).
           exists l. split; [by apply list_elem_of_further|done].
      * assert (Hsub : forall p t,
                  lotFrom ({| qty := round6 (nsub (qty lot) (Math_min (qty lot) remaining));
                              price := price lot; ts := ts lot |} :: rest) p t ->
                  lotFrom (lot :: rest) p t).
        { intros p t (l & Hl & Hp & Ht). apply elem_of_cons in Hl as [->|Hl].
          - exists lot. split; [apply list_elem_of_here|done].
          - exists l. split; [by apply list_elem_of_further|done]. }
        split.
        -- exists (e :: new). split; [by rewrite <- app_assoc|]. constructor; [done|].
           eapply Forall_impl; [exact Hnew|]. intros e' (? & ? & ? & ?).
           repeat split; try done. by apply Hsub.
        -- eapply Forall_impl; [exact Hlots'|]. intros l'. apply Hsub.
Qed.

Lemma paired_app seen more e : paired seen e -> paired (seen ++ more) e.
Proof.
  intros (b & o & l1 & l2 & l3 & -> & Hp). exists b, o, l1, l2, (l3 ++ more).
  split; [|done]. by rewrite <- !app_assoc, <- !app_comm_cons, <- app_assoc.
Qed.

Lemma closeOrders_paired orders : forall seen perSymbol entries entries',
  lotsFromBuys seen perSymbol -> Forall (paired seen) entries ->
  is_Some (closeOrders perSymbol entries orders) /\
  (closeOrders perSymbol entries orders = Some entries' ->
   Forall (paired (seen ++ orders)) entries').
Proof.
  induction orders as [|order orders IH]; intros seen perSymbol entries entries' Hlots Hent.
  - cbn [closeOrders]. split; [eauto|]. intros [= <-]. by rewrite app_nil_r.
  - cbn [closeOrders].
    assert (Hseen : seen ⊆ seen ++ [order]) by (intros x ?; apply elem_of_app; by left).
    assert (Hlast : order ∈ seen ++ [order])
      by (apply elem_of_app; right; apply list_elem_of_here).
    assert (Hold : forall lot, lot ∈ default [] (Map_get (ord_symbol order) perSymbol) ->
              exists b, b ∈ seen /\ ord_side b = buy /\ ord_symbol b = ord_symbol order /\
                        price lot = ord_fillPrice b /\ ts lot = ord_ts b).
    { intros lot Hlot. destruct (Map_get (ord_symbol order) perSymbol) as [lots|] eqn:Hg.
      - by apply (Hlots _ lots).
      - by apply elem_of_nil in Hlot. }
    replace (seen ++ order :: orders) with ((seen ++ [order]) ++ orders)
      by (by rewrite <- app_assoc).
    destruct (ord_side order) eqn:Hside.
    + apply IH; [|eapply Forall_impl; [exact Hent|]; intros e; by apply paired_app].
      intros k lots lot Hg Hlot.
      destruct (decide (k = ord_symbol order)) as [->|Hk].
      * rewrite Map_get_set_eq in Hg. injection Hg as <-.
        apply elem_of_app in Hlot as [Hlot|Hlot].
        -- destruct (Hold lot Hlot) as (b & Hb & ?). exists b. split; [by apply Hseen|done].
        -- apply list_elem_of_singleton in Hlot as ->. exists order. by repeat split.
      * rewrite Map_get_set_ne in Hg by done.
        destruct (Hlots k lots lot Hg Hlot) as (b & Hb & ?). exists b. split; [by apply Hseen|done].
    + destruct (closeLots_total order (default [] (Map_get (ord_symbol order) perSymbol))
                  (length (default [] (Map_get (ord_symbol order) perSymbol)))
                  (ord_qty order) entries) as [[lots' ents'] Hcl]; [lia|].
      rewrite Hcl. apply closeLots_entries in Hcl as [(new & -> & Hnew) Hlots'].
      apply IH.
      * intros k lots lot Hg Hlot.
        destruct (decide (k = ord_symbol order)) as [->|Hk].
        -- rewrite Map_get_set_eq in Hg. injection Hg as <-.
           rewrite Forall_forall in Hlots'. destruct (Hlots' lot Hlot) as (l & Hl & Hp & Ht).
           destruct (Hold l Hl) as (b & Hb & ? & ? & ? & ?). exists b.
           split; [by apply Hseen|]. repeat split; try done; congruence.
        -- rewrite Map_get_set_ne in Hg by done.
           destruct (Hlots k lots lot Hg Hlot) as (b & Hb & ?). exists b. split; [by apply Hseen|done].
      * apply Forall_app. split.
        -- eapply Forall_impl; [exact Hent|]. intros e. by apply paired_app.
        -- eapply Forall_impl; [exact Hnew|]. intros e (Hs & Hsp & Hst & l & Hl & Hp & Ht).
           destruct (Hold l Hl) as (b & Hb & Hbs & Hbk & Hbp & Hbt).
           apply list_elem_of_split in Hb as (l1 & l2 & ->).
           exists b, order, l1, l2, []. split; [by rewrite <- app_assoc|].
           unfold pairs. repeat split; try done; congruence.
Qed.

(** X15. [buildClosedTradeEntries] returns for every history, and
    each entry pairs a sell order with a buy order of the same symbol that
    comes before it in the history: the entry has the price and time of
    both. *)
Theorem closed_entries_provenance (orders : list (NormalizedOrder Qc)) :
  exists entries,
    buildClosedTradeEntries orders = Some entries /\
    forall e, e ∈ entries ->
      exists b o before between after,
        orders = before ++ b :: between ++ o :: after /\ pairs e b o.
Proof.
  unfold buildClosedTradeEntries.
  assert (H0 : lotsFromBuys [] []) by (intros k lots lot Hg; discriminate).
  destruct (closeOrders_paired orders [] [] [] [] H0 ltac:(constructor)) as [[entries He] _].
  exists entries. split; [done|].
  destruct (closeOrders_paired orders [] [] [] entries H0 ltac:(constructor)) as [_ Hp].
  specialize (Hp He). rewrite app_nil_l in Hp. rewrite Forall_forall in Hp. exact Hp.
Qed.

End DashboardFacts.

(** ** The list of closed trades *)

Section ClosedTradeFacts.
Import Exact ExactFacts.
Local Open Scope Qc_scope.

Lemma insertBy_newestFirst x l :
  Sorted newestFirst l -> Sorted newestFirst (insertBy bySellTsDesc x l).
Proof.
  induction 1 as [|y l Hl IH Hy]; cbn [insertBy]; [repeat constructor|].
  destruct (nlt (nlit 0) (bySellTsDesc x y)) eqn:Hc.
  - constructor; [done|].
    assert (newestFirst y x) by (unfold newestFirst, bySellTsDesc in *; qc).
    destruct Hy as [|z l Hz]; cbn [insertBy]; [by constructor|].
    case_match; by constructor.
  - repeat constructor; [done..|]. unfold newestFirst, bySellTsDesc in *. qc.
Qed.

Lemma sortBy_newestFirst l : Sorted newestFirst (sortBy bySellTsDesc l).
Proof. induction l; cbn [sortBy]; [constructor | by apply insertBy_newestFirst]. Qed.

Lemma closeLots_rounded order : forall fuel (lots : list (FifoLotDoc Qc)) remaining entries lots' entries',
  closeLots fuel order lots remaining entries = Some (lots', entries') ->
  Forall roundedEntry entries -> Forall roundedEntry entries'.
Proof.
  induction fuel as [|fuel IH]; intros lots remaining entries lots' entries'.
  - destruct lots as [|lot rest]; cbn [closeLots]; [by intros [= <- <-]|].
    destruct (nlt STATS_EPSILON remaining); [done|]. by intros [= <- <-].
  - destruct lots as [|lot rest]; cbn [closeLots]; [by intros [= <- <-]|].
    destruct (nlt STATS_EPSILON remaining); [|by intros [= <- <-]].
    destruct (nle _ STATS_EPSILON); intros Hrec Hent; eapply IH; try exact Hrec;
      (apply Forall_app; split; [done|]; repeat constructor; cbn [e_qty e_pnl];
       apply round6_idempotent).
Qed.

Lemma closeOrders_rounded orders : forall perSymbol entries entries',
  closeOrders perSymbol entries orders = Some entries' ->
  Forall roundedEntry entries -> Forall roundedEntry entries'.
Proof.
  induction orders as [|order orders IH]; intros perSymbol entries entries'; cbn [closeOrders].
  - by intros [= <-].
  - destruct (ord_side order); [apply IH|].
    destruct (closeLots _ _ _ _ _) as [[lots' ents']|] eqn:Hcl; [|done].
    intros Hrec Hent. eapply IH; [exact Hrec|]. by eapply closeLots_rounded.
Qed.

Lemma map_imap_Forall {A B C} (g : B -> C) (h : A -> C) (l : list A) :
  forall f : nat -> A -> B,
  Forall (fun x => forall i, g (f i x) = h x) l -> map g (imap f l) = map h l.
Proof.
  induction l as [|x l IH]; intros f Hall; [done|].
  apply Forall_cons in Hall as [Hx Hall]. cbn [imap map]. rewrite Hx. f_equal.
  apply IH. eapply Forall_impl; [exact Hall|]. intros y Hy i. apply Hy.
Qed.



End ClosedTradeFacts.

(** ** The wealth snapshots of the two runners *)

Section SnapshotFacts.
Import Exact ExactFacts.
Local Open Scope Qc_scope.

Lemma isFalsy_zero (x : Qc) : MLTrend.isFalsy x = true <-> x = 0.
Proof.
  unfold MLTrend.isFalsy. rewrite negb_true_iff, orb_false_iff. cbn [nlt nlit exact].
  rewrite !negb_false_iff, !Qle_bool_iff. split; [intros [? ?]; qc | intros ->; split; apply Qle_refl].
Qed.

Lemma round6_mult_0 (q : Qc) : round6 (nmul q 0) = 0.
Proof. replace (nmul q 0) with (0 : Qc) by qc. apply round6_0. Qed.

Lemma ml_positionValue feed (docSnap : QueryDocumentSnapshot Qc) :
  MLTrend.positionValue feed docSnap
  = match MLTrend.positionValue feed docSnap with
    | Ok _ => Ok (Momentum.positionValue (priceOfCloses feed) docSnap)
    | Throw m => Throw m
    end.
Proof.
  unfold MLTrend.positionValue, Momentum.positionValue, priceOfCloses.
  destruct (sanitizeNumber _) as [q|]; [|done].
  destruct (nle _ _); [done|].
  destruct (truthy (match field "symbol" _ with VString s => _ | _ => _ end)); cbn [negb]; [|done].
  destruct (feed _ 2%nat) as [closes|m]; cbn [bind]; [|done].
  destruct (at_back closes 1) as [latest|]; [|done].
  destruct (MLTrend.isFalsy latest) eqn:Hf; [|done].
  apply isFalsy_zero in Hf as ->. change (nlit 0) with (0 : Qc). by rewrite round6_mult_0.
Qed.

Lemma ml_positionValues feed (docs : list (QueryDocumentSnapshot Qc)) values :
  MLTrend.positionValues feed docs = Ok values ->
  values = map (Momentum.positionValue (priceOfCloses feed)) docs.
Proof.
  revert values. induction docs as [|d docs IH]; intros values; cbn [MLTrend.positionValues map].
  - by intros [= <-].
  - rewrite ml_positionValue. destruct (MLTrend.positionValue feed d); cbn [bind]; [|done].
    destruct (MLTrend.positionValues feed docs) as [vs|]; cbn [bind]; [|done].
    intros [= <-]. by rewrite (IH vs eq_refl).
Qed.

Lemma ml_positionValues_answers feed (docs : list (QueryDocumentSnapshot Qc)) :
  (forall symbol, exists closes, feed symbol 2%nat = Ok closes) ->
  exists values, MLTrend.positionValues feed docs = Ok values.
Proof.
  intros Hfeed. induction docs as [|d docs [vs IH]]; cbn [MLTrend.positionValues]; [eauto|].
  rewrite IH. assert (exists v, MLTrend.positionValue feed d = Ok v) as [v ->]; [|cbn [bind]; eauto].
  unfold MLTrend.positionValue.
  destruct (sanitizeNumber _) as [q|]; [|eauto].
  destruct (nle _ _); [eauto|].
  destruct (negb _); [eauto|].
  destruct (Hfeed (match field "symbol" (doc_data d) with
                   | VString s => if truthy (trim s) then s else doc_id d
                   | _ => doc_id d end)) as [closes ->].
  cbn [bind]. destruct (at_back closes 1); [|eauto]. destruct (MLTrend.isFalsy _); eauto.
Qed.

(** X27. When every request for closes is answered, the trend
    runner's [recordWealthSnapshot] writes the document that the momentum
    runner's writes for the price feed made of the latest closes. *)
Theorem runners_snapshots_agree (serverNow : Qc) (userSnap : option (value Qc))
    (docs : list (QueryDocumentSnapshot Qc)) (feed : string -> nat -> result (list Qc))
    (source : string) :
  (forall symbol, exists closes, feed symbol 2%nat = Ok closes) ->
  MLTrend.recordWealthSnapshot serverNow userSnap docs feed (Some source)
  = Some (Momentum.recordWealthSnapshot serverNow userSnap docs (priceOfCloses feed) (Some source)).
Proof.
  intros Hfeed. unfold MLTrend.recordWealthSnapshot, Momentum.recordWealthSnapshot.
  destruct (ml_positionValues_answers feed docs Hfeed) as [values Hv]. rewrite Hv.
  by rewrite (ml_positionValues _ _ _ Hv).
Qed.

Lemma runners_snapshots_agree_witness :
  MLTrend.recordWealthSnapshot (nlit 5) (userDoc (poorStore (num:=Qc))) twoPositions closesFeed
    (Some "bot")
  = Some (Momentum.recordWealthSnapshot (nlit 5) (userDoc poorStore) twoPositions
            (priceOfCloses closesFeed) (Some "bot")).
Proof.
  assert (Hfeed : forall symbol, exists closes : list Qc, closesFeed symbol 2%nat = Ok closes).
  { intros symbol. unfold closesFeed. repeat case_match; eauto. }
  exact (runners_snapshots_agree (nlit 5) (userDoc poorStore) twoPositions closesFeed "bot" Hfeed).
Defined.



End SnapshotFacts.
